(** * Grid construction and alert evaluation of the testgrid updater

    A shallow embedding of [pkg/updater/updater.go]: the sparse metric
    encoder [appendMetric], the run-length cell encoder [appendCell], the
    column fold [appendColumn], the alert walk [alertRow] and the driver
    [constructGrid], followed by the properties of the grids they build. *)

From Stdlib Require Import ZArith List Bool Lia Ascii String.
From Stdlib Require Import PrimFloat FloatOps SpecFloat Uint63 FloatAxioms.
From stdpp Require Import base option list gmap strings sorting lexico.

Local Open Scope Z_scope.

(** ** Go run-time outcomes

    An index out of range stops a Go program with a run-time panic.  A
    computation therefore either returns a value or panics. *)

Inductive go (A : Type) : Type :=
| Ok (a : A)
| Panic.
Arguments Ok {A} a.
Arguments Panic {A}.

Definition go_bind {A B : Type} (m : go A) (k : A -> go B) : go B :=
  match m with
  | Ok a => k a
  | Panic => Panic
  end.

Notation "x <~ m ;; k" := (go_bind m (fun x => k))
  (at level 100, m at next level, right associativity,
   format "x  <~  m  ;;  '/' k").

(** Left fold of a panicking step over a slice, as a [for ... range] loop. *)
Fixpoint go_fold {S B : Type} (f : S -> B -> go S) (s : S) (l : list B) : go S :=
  match l with
  | [] => Ok s
  | b :: l' => s' <~ f s b ;; go_fold f s' l'
  end.

Definition go_map {A B : Type} (f : A -> B) (m : go A) : go B :=
  x <~ m ;; Ok (f x).

(** [count] iterations of a loop body: [for i := 0; i < count; i++]. *)
Fixpoint go_iter {S : Type} (n : nat) (f : S -> go S) (s : S) : go S :=
  match n with
  | O => Ok s
  | Datatypes.S n' => s' <~ f s ;; go_iter n' f s'
  end.

(** [l[i]] for a Go [int] index: negative or past the end panics. *)
Definition index {A : Type} (l : list A) (i : Z) : go A :=
  if i <? 0 then Panic
  else match l !! Z.to_nat i with
       | Some x => Ok x
       | None => Panic
       end.

(** ** Machine integers

    [int32] values are integers in [-2^31, 2^31); arithmetic wraps. *)

Definition wrap32 (z : Z) : Z := (z + 2 ^ 31) mod 2 ^ 32 - 2 ^ 31.

Definition int32_range (z : Z) : Prop := - 2 ^ 31 <= z < 2 ^ 31.

(** ** Floating point

    [float64] is the binary64 type of the kernel.  [math_Floor] and the
    conversions to integers are written on the decoded sign, mantissa and
    exponent. *)

Definition float_of_Z (z : Z) : float :=
  if z <? 0 then PrimFloat.opp (PrimFloat.of_uint63 (Uint63.of_Z (- z)))
  else PrimFloat.of_uint63 (Uint63.of_Z z).

Definition math_Floor (x : float) : float :=
  match Prim2SF x with
  | S754_finite s m e =>
      if 0 <=? e then x
      else
        let q := Z.shiftr (if s then Z.neg m else Z.pos m) (- e) in
        if q =? 0 then PrimFloat.zero else float_of_Z q
  | _ => x
  end.

(** Truncation toward zero of a finite float; [None] on NaN and infinities. *)
Definition float_trunc (x : float) : option Z :=
  match Prim2SF x with
  | S754_zero _ => Some 0
  | S754_finite s m e =>
      let a := if 0 <=? e then Z.shiftl (Z.pos m) e else Z.shiftr (Z.pos m) (- e) in
      Some (if s then - a else a)
  | _ => None
  end.

(** [int64(x)] and [int32(x)] of a float.  The Go specification leaves the
    result implementation-dependent when the value is not representable;
    the amd64 conversion instructions then give the least value of the type. *)
Definition int64_of_float (x : float) : Z :=
  match float_trunc x with
  | Some z => if (- 2 ^ 63 <=? z) && (z <? 2 ^ 63) then z else - 2 ^ 63
  | None => - 2 ^ 63
  end.

Definition int32_of_float (x : float) : Z :=
  match float_trunc x with
  | Some z => if (- 2 ^ 31 <=? z) && (z <? 2 ^ 31) then z else - 2 ^ 31
  | None => - 2 ^ 31
  end.

Example math_Floor_pos : int64_of_float (math_Floor 1000.5%float) = 1000.
Proof. vm_compute. reflexivity. Qed.

Example math_Floor_neg : int64_of_float (math_Floor (-0.5)%float) = -1.
Proof. vm_compute. reflexivity. Qed.

(** ** The grid messages of [pb/state]

    Each message is a record in a module of its name, so that a field reads
    [Row.Results row] as the source reads [row.Results].  A pointer to a
    message is the message itself where the source never mutates through it
    ([Column], [AlertInfo], [Timestamp]) and [option] where the source tests
    it against [nil]. *)

Module Timestamp.
Record t : Type := Build { Seconds : Z; Nanos : Z }.
End Timestamp.

Module Column.
Record t : Type := Make { Build : string; Started : float; Extra : list string }.
End Column.

Module Metric.
Record t : Type := Build { Name : string; Indices : list Z; Values : list float }.
End Metric.

Module AlertInfo.
Record t : Type := Build {
  FailCount : Z;
  FailBuildId : string;
  FailTime : option Timestamp.t;
  FailTestId : string;
  FailureMessage : string;
  PassTime : option Timestamp.t;
  PassBuildId : string
}.
End AlertInfo.

Module Row.
Record t : Type := Build {
  Name : string;
  Id : string;
  Results : list Z;
  CellIds : list string;
  Messages : list string;
  Icons : list string;
  Metric : list string;
  Metrics : list Metric.t;
  AlertInfo : option AlertInfo.t
}.

(** [&state.Row{Name: name, Id: name}] *)
Definition new (name : string) : t :=
  Build name name [] [] [] [] [] [] None.

Definition set_Results (v : list Z) (r : t) : t :=
  Build (Name r) (Id r) v (CellIds r) (Messages r) (Icons r) (Metric r) (Metrics r) (AlertInfo r).
Definition set_CellIds (v : list string) (r : t) : t :=
  Build (Name r) (Id r) (Results r) v (Messages r) (Icons r) (Metric r) (Metrics r) (AlertInfo r).
Definition set_Messages (v : list string) (r : t) : t :=
  Build (Name r) (Id r) (Results r) (CellIds r) v (Icons r) (Metric r) (Metrics r) (AlertInfo r).
Definition set_Icons (v : list string) (r : t) : t :=
  Build (Name r) (Id r) (Results r) (CellIds r) (Messages r) v (Metric r) (Metrics r) (AlertInfo r).
Definition set_Metric (v : list string) (r : t) : t :=
  Build (Name r) (Id r) (Results r) (CellIds r) (Messages r) (Icons r) v (Metrics r) (AlertInfo r).
Definition set_Metrics (v : list Metric.t) (r : t) : t :=
  Build (Name r) (Id r) (Results r) (CellIds r) (Messages r) (Icons r) (Metric r) v (AlertInfo r).
Definition set_AlertInfo (v : option AlertInfo.t) (r : t) : t :=
  Build (Name r) (Id r) (Results r) (CellIds r) (Messages r) (Icons r) (Metric r) (Metrics r) v.
End Row.

Module Grid.
(** [Rows] is a slice of row pointers: position [i] of the list stands for
    the address of the [i]-th row created. *)
Record t : Type := Build { Columns : list (option Column.t); Rows : list Row.t }.

(** [var grid state.Grid] *)
Definition empty : t := Build [] [].
End Grid.

(** Modelled from the spec: the enumeration [state.Row_Result] is declared
    in [pb/state], outside the sources at hand.  Section 3 of the
    specification names [NO_RESULT], [PASS], [FAIL], [FLAKY] and [RUNNING];
    a result is carried as its [int32] code, [NO_RESULT] being the zero
    value.  The codes are those of the protocol-buffer schema. *)
Definition Row_NO_RESULT : Z := 0.
Definition Row_PASS : Z := 1.
Definition Row_RUNNING : Z := 4.
Definition Row_FAIL : Z := 12.
Definition Row_FLAKY : Z := 13.

(** Modelled from the spec: the test-group descriptor of [pb/config]
    (section 3); only the two alert thresholds are read by the code below,
    both [int32] fields. *)
Module TestGroup.
Record t : Type := Build {
  Name : string;
  NumFailuresToAlert : Z;
  NumPassesToDisableAlert : Z
}.
End TestGroup.

(** Modelled from the spec: [cell] and [inflatedColumn] are declared in
    another file of the package.  Section 3: a cell has a result, a message,
    an icon, a cell id and a mapping from metric name to value; an inflated
    column is a column header with a mapping from test name to cell.

    A Go map is listed in the order in which one [range] loop visits it.
    That order is not fixed by the language, so statements quantify over
    every list; the keys of a map are distinct ([cell.wf],
    [inflatedColumn.wf]). *)
Module cell.
Record t : Type := Build {
  result : Z;
  cellID : string;
  message : string;
  icon : string;
  metrics : list (string * float)
}.

Definition wf (c : t) : bool := bool_decide (NoDup (metrics c).*1).
End cell.

Module inflatedColumn.
Record t : Type := Build {
  column : option Column.t;
  cells : list (string * cell.t)
}.

Definition wf (c : t) : bool :=
  bool_decide (NoDup (cells c).*1) && forallb (fun nc => cell.wf nc.2) (cells c).
End inflatedColumn.

(** Modelled from the spec: package [internal/result] is outside the sources
    at hand.  Section 4.F: the results are iterated run-length decoded, and
    [coalesce] maps [RUNNING] to [NO_RESULT] and is otherwise the identity. *)
Module result.
(** The values sent on the channel returned by [Iter], in order. *)
Fixpoint Iter (results : list Z) : list Z :=
  match results with
  | code :: count :: rest => replicate (Z.to_nat count) code ++ Iter rest
  | _ => []
  end.

Definition IgnoreRunning : bool := true.

Definition Coalesce (r : Z) (ignoreRunning : bool) : Z :=
  if (r =? Row_RUNNING) && ignoreRunning then Row_NO_RESULT else r.

(** [<-ch]: the next value, or the zero value once the channel is closed. *)
Definition recv (ch : list Z) : Z * list Z :=
  match ch with
  | [] => (0, [])
  | r :: ch' => (r, ch')
  end.
End result.

(** ** Sparse metrics and run-length encoded cells *)

(** [appendMetric] adds the value at index [idx] to the metric.  [l] is the
    [int32] length of [Indices]; both reads precede the comparison. *)
Definition appendMetric (metric : Metric.t) (idx : Z) (value : float) : go Metric.t :=
  let l := wrap32 (Z.of_nat (length (Metric.Indices metric))) in
  indices <~
    (if l =? 0 then Ok (Metric.Indices metric ++ [idx; 1])
     else
       start <~ index (Metric.Indices metric) (wrap32 (l - 2)) ;;
       len <~ index (Metric.Indices metric) (wrap32 (l - 1)) ;;
       if negb (wrap32 (start + len) =? idx)
       then Ok (Metric.Indices metric ++ [idx; 1])
       else Ok (<[Z.to_nat (wrap32 (l - 1)) := wrap32 (len + 1)]> (Metric.Indices metric))) ;;
  Ok (Metric.Build (Metric.Name metric) indices (Metric.Values metric ++ [value])).

(** [var emptyCell = cell{result: state.Row_NO_RESULT}] *)
Definition emptyCell : cell.t := cell.Build Row_NO_RESULT "" "" "" [].

(** One turn of the loop over [cell.metrics]: the name is recorded in
    [row.Metric] when absent, the series of that name is looked up in
    [row.Metrics] (created and appended when absent) and extended in place. *)
Definition appendCellMetric (row : Row.t) (m : string * float) : go Row.t :=
  let metricName := m.1 in
  let measurement := m.2 in
  let row :=
    if existsb (String.eqb metricName) (Row.Metric row) then row
    else Row.set_Metric (Row.Metric row ++ [metricName]) row in
  let idx := wrap32 (Z.of_nat (length (Row.CellIds row)) - 1) in
  match list_find (fun metric => Metric.Name metric = metricName) (Row.Metrics row) with
  | Some (i, metric) =>
      metric <~ appendMetric metric idx measurement ;;
      Ok (Row.set_Metrics (<[i := metric]> (Row.Metrics row)) row)
  | None =>
      metric <~ appendMetric (Metric.Build metricName [] []) idx measurement ;;
      Ok (Row.set_Metrics (Row.Metrics row ++ [metric]) row)
  end.

(** One turn of the loop [for i := 0; i < count; i++] of [appendCell]. *)
Definition appendCellOnce (c : cell.t) (row : Row.t) : go Row.t :=
  let row := Row.set_CellIds (Row.CellIds row ++ [cell.cellID c]) row in
  if cell.result c =? Row_NO_RESULT then Ok row
  else
    row <~ go_fold appendCellMetric row (cell.metrics c) ;;
    let row := Row.set_Messages (Row.Messages row ++ [cell.message c]) row in
    Ok (Row.set_Icons (Row.Icons row ++ [cell.icon c]) row).

(** [appendCell] adds [count] copies of the cell to the row.  [latest] is the
    result code, already an [int32]. *)
Definition appendCell (row : Row.t) (c : cell.t) (count : Z) : go Row.t :=
  let latest := cell.result c in
  let n := Z.of_nat (length (Row.Results row)) in
  results <~
    (if n =? 0 then Ok (Row.Results row ++ [latest; wrap32 count])
     else
       last <~ index (Row.Results row) (n - 2) ;;
       if negb (last =? latest) then Ok (Row.Results row ++ [latest; wrap32 count])
       else
         len <~ index (Row.Results row) (n - 1) ;;
         Ok (<[Z.to_nat (n - 1) := wrap32 (len + wrap32 count)]> (Row.Results row))) ;;
  go_iter (Z.to_nat count) (appendCellOnce c) (Row.set_Results results row).

(** ** Folding a column into the grid

    [rows] maps a row name to the address of its row, that is to its
    position in [grid.Rows].  Reading or writing through an address that is
    not allocated does not happen in the source; here it yields [Panic], so
    that a result [Ok] also rules it out. *)

Definition load (grid : Grid.t) (p : nat) : go Row.t :=
  match Grid.Rows grid !! p with
  | Some row => Ok row
  | None => Panic
  end.

Definition store (grid : Grid.t) (p : nat) (row : Row.t) : Grid.t :=
  Grid.Build (Grid.Columns grid) (<[p := row]> (Grid.Rows grid)).

Record colState : Type := ColState {
  cs_grid : Grid.t;
  cs_rows : gmap string nat;
  cs_missing : gmap string nat
}.

(** One turn of the loop over [inflated.cells]. *)
Definition appendColumnCell (st : colState) (nc : string * cell.t) : go colState :=
  let name := nc.1 in
  let c := nc.2 in
  let grid := cs_grid st in
  let rows := cs_rows st in
  let missing := delete name (cs_missing st) in
  match rows !! name with
  | Some p =>
      row <~ load grid p ;;
      row <~ appendCell row c 1 ;;
      Ok (ColState (store grid p row) rows missing)
  | None =>
      let row := Row.new name in
      let p := length (Grid.Rows grid) in
      let rows := <[name := p]> rows in
      let grid := Grid.Build (Grid.Columns grid) (Grid.Rows grid ++ [row]) in
      let n := Z.of_nat (length (Grid.Columns grid)) in
      row <~ (if 1 <? n then appendCell row emptyCell (n - 1) else Ok row) ;;
      row <~ appendCell row c 1 ;;
      Ok (ColState (store grid p row) rows missing)
  end.

(** One turn of the loop over [missing]. *)
Definition appendMissing (grid : Grid.t) (np : string * nat) : go Grid.t :=
  row <~ load grid np.2 ;;
  row <~ appendCell row emptyCell 1 ;;
  Ok (store grid np.2 row).

Definition appendColumn (grid : Grid.t) (rows : gmap string nat)
    (inflated : inflatedColumn.t) : go (Grid.t * gmap string nat) :=
  let grid :=
    Grid.Build (Grid.Columns grid ++ [inflatedColumn.column inflated]) (Grid.Rows grid) in
  let missing := rows in
  st <~ go_fold appendColumnCell (ColState grid rows missing) (inflatedColumn.cells inflated) ;;
  grid <~ go_fold appendMissing (cs_grid st) (map_to_list (cs_missing st)) ;;
  Ok (grid, cs_rows st).

(** ** The alert evaluator *)

(** [buildID] extracts the ID from the first extra row or else the [Build]
    field. *)
Definition buildID (col : option Column.t) : string :=
  match col with
  | None => ""
  | Some col =>
      if 0 <? Z.of_nat (length (Column.Extra col))
      then default "" (Column.Extra col !! 0%nat)
      else Column.Build col
  end.

Definition billion : float := 1e9%float.

(** [stamp] converts seconds into a timestamp. *)
Definition stamp (col : option Column.t) : option Timestamp.t :=
  match col with
  | None => None
  | Some col =>
      let seconds := Column.Started col in
      let floor := math_Floor seconds in
      let remain := PrimFloat.sub seconds floor in
      Some (Timestamp.Build (int64_of_float floor)
                            (int32_of_float (PrimFloat.mul remain billion)))
  end.

(** [alertInfo] returns an alert with the configured fields. *)
Definition alertInfo (failures : Z) (msg cellId : string)
    (fail pass : option Column.t) : AlertInfo.t :=
  AlertInfo.Build failures (buildID fail) (stamp fail) cellId msg
                  (stamp pass) (buildID pass).

(** The local variables of [alertRow].  [totalFailures] is an [int32]; the
    other counters are of type [int] and never exceed the number of columns
    walked, so they are kept as integers. *)
Record alertState : Type := AlertState {
  failures : Z;
  totalFailures : Z;
  passes : Z;
  compressedIdx : Z;
  ch : list Z;
  lastFail : option Column.t;
  latestPass : option Column.t;
  failIdx : Z
}.

Inductive control : Type :=
| Next (st : alertState)   (* fall out of the body, or [continue] *)
| Break (st : alertState)  (* [break] *)
| ReturnNil.               (* [return nil] *)

(** The body of the loop over [cols].  A result equals one code only, so
    the source's successive [if res == ...] are written as one cascade; each
    branch that neither breaks nor returns reaches the final
    [compressedIdx++]. *)
Definition alertStep (failuresToOpen passesToClose : Z)
    (st : alertState) (col : option Column.t) : control :=
  let rawRes := (result.recv (ch st)).1 in
  let ch := (result.recv (ch st)).2 in
  let res := result.Coalesce rawRes result.IgnoreRunning in
  let '(AlertState failures totalFailures passes compressedIdx _ lastFail latestPass failIdx) := st in
  if res =? Row_NO_RESULT then
    if rawRes =? Row_RUNNING
    then Next (AlertState failures totalFailures passes (compressedIdx + 1) ch lastFail latestPass failIdx)
    else Next (AlertState failures totalFailures passes compressedIdx ch lastFail latestPass failIdx)
  else if res =? Row_PASS then
    let passes := passes + 1 in
    if failuresToOpen <=? failures
    then Break (AlertState failures totalFailures passes compressedIdx ch lastFail col failIdx)
    else if passesToClose <=? passes then ReturnNil
    else Next (AlertState 0 totalFailures passes (compressedIdx + 1) ch lastFail latestPass failIdx)
  else if res =? Row_FAIL then
    let passes := 0 in
    let failures := failures + 1 in
    let totalFailures := wrap32 (totalFailures + 1) in
    let failIdx := if failures =? 1 then compressedIdx else failIdx in
    Next (AlertState failures totalFailures passes (compressedIdx + 1) ch (col) latestPass failIdx)
  else if res =? Row_FLAKY then
    let passes := 0 in
    if failuresToOpen <=? failures
    then Break (AlertState failures totalFailures passes compressedIdx ch lastFail latestPass failIdx)
    else Next (AlertState 0 totalFailures passes (compressedIdx + 1) ch lastFail latestPass failIdx)
  else Next (AlertState failures totalFailures passes (compressedIdx + 1) ch lastFail latestPass failIdx).

(** The loop [for _, col := range cols]: the state at its exit, or [None]
    when the body returned [nil]. *)
Fixpoint alertLoop (failuresToOpen passesToClose : Z)
    (cols : list (option Column.t)) (st : alertState) : option alertState :=
  match cols with
  | [] => Some st
  | col :: cols' =>
      match alertStep failuresToOpen passesToClose st col with
      | Next st' => alertLoop failuresToOpen passesToClose cols' st'
      | Break st' => Some st'
      | ReturnNil => None
      end
  end.

Definition alertInit (row : Row.t) : alertState :=
  AlertState 0 0 0 0 (result.Iter (Row.Results row)) None None 0.

(** [alertRow] returns an alert if there have been [failuresToOpen]
    consecutive failures more recently than [passesToClose] passes. *)
Definition alertRow (cols : list (option Column.t)) (row : Row.t)
    (failuresToOpen passesToClose : Z) : go (option AlertInfo.t) :=
  if failuresToOpen =? 0 then Ok None
  else
    match alertLoop failuresToOpen passesToClose cols (alertInit row) with
    | None => Ok None
    | Some st =>
        if failures st <? failuresToOpen then Ok None
        else
          msg <~ index (Row.Messages row) (failIdx st) ;;
          id <~ index (Row.CellIds row) (failIdx st) ;;
          Ok (Some (alertInfo (totalFailures st) msg id (lastFail st) (latestPass st)))
    end.

(** [alertRows] configures the alert of every row, in order. *)
Fixpoint alertRows (cols : list (option Column.t)) (rows : list Row.t)
    (openFailures closePasses : Z) : go (list Row.t) :=
  match rows with
  | [] => Ok []
  | r :: rows' =>
      info <~ alertRow cols r openFailures closePasses ;;
      rest <~ alertRows cols rows' openFailures closePasses ;;
      Ok (Row.set_AlertInfo info r :: rest)
  end.

(** ** Sorting

    [sort.SliceStable] keeps equal elements in their order; it is modelled by
    stable insertion, which computes the one stable arrangement whenever
    [less] is a strict weak order. *)
Section SliceStable.
Context {A : Type} (less : A -> A -> bool).

Fixpoint insertStable (x : A) (l : list A) : list A :=
  match l with
  | [] => [x]
  | y :: l' => if less y x then y :: insertStable x l' else x :: y :: l'
  end.

Definition SliceStable (l : list A) : list A := foldr insertStable [] l.
End SliceStable.

(** ** The order of names *)

(** Modelled from the spec: [sortorder.NaturalLess] belongs to a library
    outside the repository ([vbom.ml/util/sortorder]); section 9 asks for a
    comparison that treats embedded numeric runs as integers, so that
    [test-10] sorts after [test-2].  The driver below is written over any
    comparison of names; this module renders the library's comparison, to
    have the one the program runs with at hand: bytes that are not digits
    compare bytewise, runs of digits by their value and then by their number
    of leading zeros, and a digit comes before any other byte. *)
Module sortorder.

Definition isdigit (c : ascii) : bool :=
  (48 <=? nat_of_ascii c)%nat && (nat_of_ascii c <=? 57)%nat.

(** [for ; idx < len(str) && str[idx] == '0'; idx++ {}]: the number of
    zeros passed and what follows them. *)
Fixpoint eatZeros (s : list ascii) : nat * list ascii :=
  match s with
  | c :: r =>
      if (nat_of_ascii c =? 48)%nat
      then (S (eatZeros r).1, (eatZeros r).2)
      else (O, s)
  | [] => (O, [])
  end.

(** [for ; idx < len(str) && isdigit(str[idx]); idx++ {}]: the digits passed
    and what follows them. *)
Fixpoint eatDigits (s : list ascii) : list ascii * list ascii :=
  match s with
  | c :: r =>
      if isdigit c
      then (c :: (eatDigits r).1, (eatDigits r).2)
      else ([], s)
  | [] => ([], [])
  end.

(** [<] on Go strings: bytewise, a proper prefix first. *)
Fixpoint stringLess (s1 s2 : list ascii) : bool :=
  match s1, s2 with
  | _, [] => false
  | [], _ :: _ => true
  | c1 :: r1, c2 :: r2 =>
      if (nat_of_ascii c1 <? nat_of_ascii c2)%nat then true
      else if (nat_of_ascii c2 <? nat_of_ascii c1)%nat then false
      else stringLess r1 r2
  end.

(** The loop of [NaturalLess] on what is left of the two strings; the two
    indices of the source advance together, so that its final
    [len(str1) < len(str2)] compares what is left.  Every turn passes a byte
    of each string: [fuel] is any bound on their lengths. *)
Fixpoint walk (fuel : nat) (s1 s2 : list ascii) : bool :=
  match fuel, s1, s2 with
  | S fuel, c1 :: r1, c2 :: r2 =>
      let dig1 := isdigit c1 in
      let dig2 := isdigit c2 in
      if negb (Bool.eqb dig1 dig2) then dig1
      else if negb dig1 then
        if negb (Ascii.eqb c1 c2) then (nat_of_ascii c1 <? nat_of_ascii c2)%nat
        else walk fuel r1 r2
      else
        let z1 := eatZeros s1 in
        let z2 := eatZeros s2 in
        let d1 := eatDigits z1.2 in
        let d2 := eatDigits z2.2 in
        if negb (length d1.1 =? length d2.1)%nat then (length d1.1 <? length d2.1)%nat
        else if negb (bool_decide (d1.1 = d2.1)) then stringLess d1.1 d2.1
        else if negb (z1.1 =? z2.1)%nat then (z1.1 <? z2.1)%nat
        else walk fuel d1.2 d2.2
  | _, _, _ => (length s1 <? length s2)%nat
  end.

Definition NaturalLess (str1 str2 : string) : bool :=
  let s1 := list_ascii_of_string str1 in
  let s2 := list_ascii_of_string str2 in
  walk (length s1 + length s2) s1 s2.

(** The rank of a string: one key per byte that is not a digit and one per
    run of digits (its number of digits past the zeros, those digits, the
    number of zeros), keys of runs first. *)
Fixpoint keys (fuel : nat) (s : list ascii) : list (nat * (nat * (list nat * nat))) :=
  match fuel, s with
  | S fuel, c :: r =>
      if isdigit c then
        let z := eatZeros s in
        let d := eatDigits z.2 in
        (O, (length d.1, (nat_of_ascii <$> d.1, z.1))) :: keys fuel d.2
      else (1%nat, (nat_of_ascii c, ([], O))) :: keys fuel r
  | _, _ => []
  end.

Definition rank (str : string) : list (nat * (nat * (list nat * nat))) :=
  keys (String.length str) (list_ascii_of_string str).

End sortorder.

(** ** The driver

    It is written over any comparison of names, [sortorder.NaturalLess] for
    the program as it runs. *)
Section ConstructGrid.
Variable NaturalLess : string -> string -> bool.

Definition sortRow (row : Row.t) : Row.t :=
  let row := Row.set_Metric (SliceStable NaturalLess (Row.Metric row)) row in
  Row.set_Metrics
    (SliceStable (fun a b => NaturalLess (Metric.Name a) (Metric.Name b)) (Row.Metrics row))
    row.

(** The sorts that end [constructGrid]. *)
Definition sortGrid (grid : Grid.t) : Grid.t :=
  let rows :=
    SliceStable (fun a b => NaturalLess (Row.Name a) (Row.Name b)) (Grid.Rows grid) in
  Grid.Build (Grid.Columns grid) (map sortRow rows).

(** The alert thresholds read from the group. *)
Definition failsOpenOf (group : TestGroup.t) : Z := TestGroup.NumFailuresToAlert group.

Definition passesCloseOf (group : TestGroup.t) : Z :=
  let failsOpen := TestGroup.NumFailuresToAlert group in
  let passesClose := TestGroup.NumPassesToDisableAlert group in
  if (0 <? failsOpen) && (passesClose =? 0) then 1 else passesClose.

(** One turn of the loop over [cols] in [constructGrid]. *)
Definition constructStep (failsOpen passesClose : Z)
    (st : Grid.t * gmap string nat) (col : inflatedColumn.t) : go (Grid.t * gmap string nat) :=
  st <~ appendColumn st.1 st.2 col ;;
  rs <~ alertRows (Grid.Columns st.1) (Grid.Rows st.1) failsOpen passesClose ;;
  Ok (Grid.Build (Grid.Columns st.1) rs, st.2).

(** [constructGrid] appends all the inflated columns into the returned
    grid. *)
Definition constructGrid (group : TestGroup.t) (cols : list inflatedColumn.t) : go Grid.t :=
  let failsOpen := failsOpenOf group in
  let passesClose := passesCloseOf group in
  st <~ go_fold (constructStep failsOpen passesClose) (Grid.empty, ∅) cols ;;
  Ok (sortGrid st.1).

(** The variant that the specification describes (sections 4.F and 9): all
    the columns are appended first and [alertRows] is invoked once, after
    the loop. *)
Definition appendStep (st : Grid.t * gmap string nat) (col : inflatedColumn.t)
    : go (Grid.t * gmap string nat) :=
  appendColumn st.1 st.2 col.

Definition constructGridOnce (group : TestGroup.t) (cols : list inflatedColumn.t) : go Grid.t :=
  let failsOpen := failsOpenOf group in
  let passesClose := passesCloseOf group in
  st <~ go_fold appendStep (Grid.empty, ∅) cols ;;
  rs <~ alertRows (Grid.Columns st.1) (Grid.Rows st.1) failsOpen passesClose ;;
  Ok (sortGrid (Grid.Build (Grid.Columns st.1) rs)).
End ConstructGrid.

(** * Around the grid

    The parts of the updater outside the construction of the grid that do
    not depend on the object store: the progress log of [Update], the
    listing prefix of [realGCSClient.Objects], the window of results of
    [updateGroup] and the name template of [makeNameConfig]. *)

(** ** Machine integers of 64 bits

    [int] and [time.Duration] are integers in [-2^63, 2^63); arithmetic
    wraps. *)

Definition wrap64 (z : Z) : Z := (z + 2 ^ 63) mod 2 ^ 64 - 2 ^ 63.

Definition int64_range (z : Z) : Prop := - 2 ^ 63 <= z < 2 ^ 63.

(** [a / b] on integers: a zero divisor stops the program with a run-time
    panic, the quotient is truncated toward zero. *)
Definition go_div (a b : Z) : go Z :=
  if b =? 0 then Panic else Ok (wrap64 (Z.quot a b)).

(** ** The progress log

    [logUpdate] loops over a [select] between the channel of indices and a
    timer.  What it meets, in the order in which the [select] takes it, is a
    list of events: an index received, the channel found closed, or a tick,
    given with the time elapsed since the start, in nanoseconds. *)

Inductive event : Type :=
| Recv (i : Z)
| Closed
| Tick (elapsed : Z).

(** The fields of one log entry.  [eta] is the duration computed for the
    fields [remain] and [eta], which the [time] library then rounds to the
    minute. *)
Module progress.
Record t : Type := Build { current : Z; total : Z; percent : Z; eta : Z }.
End progress.

(** The branch [case now := <-timer.C] of the [select]. *)
Definition logTick (total current elapsed : Z) : go progress.t :=
  rate <~ go_div elapsed current ;;
  let eta := wrap64 (wrap64 (total - current) * rate) in
  percent <~ go_div (wrap64 (100 * current)) total ;;
  Ok (progress.Build current total percent eta).

(** The loop [for { select { ... } }]: the entries logged until the channel
    is found closed, or until the events end, when the loop waits. *)
Fixpoint logLoop (total current : Z) (events : list event) : go (list progress.t) :=
  match events with
  | [] => Ok []
  | Recv i :: events' => logLoop total i events'
  | Closed :: _ => Ok []
  | Tick elapsed :: events' =>
      entry <~ logTick total current elapsed ;;
      entries <~ logLoop total current events' ;;
      Ok (entry :: entries)
  end.

(** [logUpdate] posts the progress at every tick; [current] starts at
    zero. *)
Definition logUpdate (total : Z) (events : list event) : go (list progress.t) :=
  logLoop total 0 events.

(** ** The listing prefix *)

(** [strings.HasSuffix(s, suffix)] is
    [len(s) >= len(suffix) && s[len(s)-len(suffix):] == suffix]. *)
Definition strings_HasSuffix (s suffix : string) : bool :=
  (String.length suffix <=? String.length s)%nat &&
  String.eqb (substring (String.length s - String.length suffix)
                        (String.length suffix) s) suffix.

(** The two fields of [storage.Query] that the code sets. *)
Module Query.
Record t : Type := Build { Delimiter : string; Prefix : string }.
End Query.

Module realGCSClient.
(** [Objects] lists the objects of a path: the query that it hands, with
    the context and the bucket of the path, to the storage client.
    [object] is [path.Object()]. *)
Definition Objects (object delimiter : string) : Query.t :=
  let p := object in
  let p := if negb (strings_HasSuffix p "/") then p +:+ "/" else p in
  Query.Build delimiter p.
End realGCSClient.

(** ** The window of results *)

(** [time.Hour], in nanoseconds. *)
Definition time_Hour : Z := 3600000000000.

(** [days] converts a number of days into a [time.Duration], assuming a day
    of 24 hours. *)
Definition days (d : float) : Z :=
  wrap64 (int64_of_float (PrimFloat.mul 24%float d) * time_Hour).

(** The duration [dur] that [updateGroup] computes from the field
    [DaysOfResults] of the group, an [int32]. *)
Definition updateGroup_dur (DaysOfResults : Z) : Z :=
  if 0 <? DaysOfResults then days (float_of_Z DaysOfResults) else days 7%float.

(** ** The name template *)

(** Modelled from the spec: the messages [TestNameConfig] and
    [TestNameConfig_NameElement] are declared in [pb/config], outside the
    sources at hand.  Section 3: a group has an optional name template, a
    format string and an ordered list of metadata keys.  The elements are
    pointers; only the fields that the code reads are kept. *)
Module TestNameConfig_NameElement.
Record t : Type := Build { TargetConfig : string }.
End TestNameConfig_NameElement.

Module TestNameConfig.
Record t : Type := Build {
  NameFormat : string;
  NameElements : list (option TestNameConfig_NameElement.t)
}.
End TestNameConfig.

Module nameConfig.
Record t : Type := Build { format : string; parts : list string }.
End nameConfig.

(** [l[i] = x]; an index past the end panics. *)
Definition assign {A : Type} (l : list A) (i : nat) (x : A) : go (list A) :=
  if decide (i < length l)%nat then Ok (<[i := x]> l) else Panic.

(** One turn of the loop [for i, e := range tnc.NameElements]; reading
    [e.TargetConfig] through a nil pointer panics. *)
Definition namePart (nc : nameConfig.t)
    (ie : nat * option TestNameConfig_NameElement.t) : go nameConfig.t :=
  match ie.2 with
  | None => Panic
  | Some e =>
      parts <~ assign (nameConfig.parts nc) ie.1 (TestNameConfig_NameElement.TargetConfig e) ;;
      Ok (nameConfig.Build (nameConfig.format nc) parts)
  end.

Definition makeNameConfig (tnc : option TestNameConfig.t) : go nameConfig.t :=
  match tnc with
  | None => Ok (nameConfig.Build "%s" ["Tests name"])
  | Some tnc =>
      let nc :=
        nameConfig.Build (TestNameConfig.NameFormat tnc)
          (replicate (length (TestNameConfig.NameElements tnc)) "") in
      go_fold namePart nc (imap pair (TestNameConfig.NameElements tnc))
  end.

(** * Vocabulary of the properties *)

(** ** Decoded results *)

(** The number of cells of one result code in a decoded stream. *)
Fixpoint countResult (code : Z) (l : list Z) : Z :=
  match l with
  | [] => 0
  | r :: l' => (if r =? code then 1 else 0) + countResult code l'
  end.

(** The number of cells of a decoded stream that hold a result, that is the
    number of cells other than [NO_RESULT]. *)
Fixpoint occupied (decoded : list Z) : nat :=
  match decoded with
  | [] => 0
  | r :: decoded' => (if r =? Row_NO_RESULT then 0 else 1) + occupied decoded'
  end.

(** [rle results decoded]: the stream [results] is a sequence of
    [(code, length)] pairs with positive lengths, and [decoded] is what it
    stands for. *)
Inductive rle : list Z -> list Z -> Prop :=
| rle_nil : rle [] []
| rle_snoc (results decoded : list Z) (code n : Z) :
    rle results decoded -> 1 <= n ->
    rle (results ++ [code; n]) (decoded ++ replicate (Z.to_nat n) code).

(** ** Sparse index streams *)

(** The last [(start, length)] pair of an index stream and what precedes it. *)
Definition lastRun (indices : list Z) : option (list Z * Z * Z) :=
  match reverse indices with
  | len :: start :: pre => Some (reverse pre, start, len)
  | _ => None
  end.

(** The sum of the run lengths of a stream of pairs: of an index stream, or
    of run-length encoded results. *)
Fixpoint runSum (indices : list Z) : Z :=
  match indices with
  | _ :: len :: rest => len + runSum rest
  | _ => 0
  end.

(** [sparse indices e s]: the stream is a sequence of pairs whose starts are
    not negative, whose lengths are positive, each start lying strictly past
    the end of the run before it; [e] is the index that follows the last run
    ([-1] when there is none) and [s] the sum of the lengths. *)
Inductive sparse : list Z -> Z -> Z -> Prop :=
| sparse_nil : sparse [] (-1) 0
| sparse_snoc (l : list Z) (e s start len : Z) :
    sparse l e s -> e < start -> 1 <= len ->
    sparse (l ++ [start; len]) (start + len) (s + len).

(** [metric_ok n m]: the indices of [m] are a well-formed sparse stream over
    the first [n] cells whose run lengths sum to the number of values. *)
Definition metric_ok (n : Z) (m : Metric.t) : Prop :=
  exists e, sparse (Metric.Indices m) e (Z.of_nat (length (Metric.Values m))) /\ e <= n.

(** [names_ok names ms]: the metric names of a row and its series go in
    lockstep, no name twice. *)
Definition names_ok (names : list string) (ms : list Metric.t) : Prop :=
  Metric.Name <$> ms = names /\ NoDup names.

(** ** Rows and grids *)

(** [rowInv decoded row]: the results of the row encode [decoded]; the row
    has one cell id per cell, one message and one icon per cell that holds a
    result, and well-formed metrics. *)
Record rowInv (decoded : list Z) (row : Row.t) : Prop := RowInv {
  inv_results : rle (Row.Results row) decoded;
  inv_cellIds : length (Row.CellIds row) = length decoded;
  inv_messages : length (Row.Messages row) = occupied decoded;
  inv_icons : length (Row.Icons row) = occupied decoded;
  inv_names : names_ok (Row.Metric row) (Row.Metrics row);
  inv_metrics : Forall (metric_ok (Z.of_nat (length decoded))) (Row.Metrics row)
}.

(** The cell of the test [name] in a map of cells. *)
Fixpoint lookupCell (name : string) (cells : list (string * cell.t)) : option cell.t :=
  match cells with
  | [] => None
  | nc :: cells' => if String.eqb nc.1 name then Some nc.2 else lookupCell name cells'
  end.

(** [resultAt name col]: the result of the test [name] in the build of
    [col], [NO_RESULT] when the build did not run it. *)
Definition resultAt (name : string) (col : inflatedColumn.t) : Z :=
  match lookupCell name (inflatedColumn.cells col) with
  | Some c => cell.result c
  | None => Row_NO_RESULT
  end.

(** [rowsMap rows Rows]: the index [rows] names exactly the rows of the grid,
    each by its address. *)
Definition rowsMap (rows : gmap string nat) (Rows : list Row.t) : Prop :=
  forall (name : string) (p : nat),
    rows !! name = Some p <-> exists r, Rows !! p = Some r /\ Row.Name r = name.

(** [rowsInv done col U Rows]: the rows named in [U] already hold the cells
    of [col] after those of the columns [done]; the others hold the cells of
    [done] only. *)
Definition rowsInv (done : list inflatedColumn.t) (col : inflatedColumn.t)
    (U : gset string) (Rows : list Row.t) : Prop :=
  forall (p : nat) (r : Row.t),
    Rows !! p = Some r ->
    if decide (Row.Name r ∈ U)
    then rowInv (resultAt (Row.Name r) <$> (done ++ [col])) r
    else rowInv (resultAt (Row.Name r) <$> done) r.

(** [colInv done col rows0 U st]: the state of [appendColumn] while it adds
    [col] after the columns [done], [rows0] being the index at its start and
    [U] the names of the rows it has extended so far. *)
Record colInv (done : list inflatedColumn.t) (col : inflatedColumn.t)
    (rows0 : gmap string nat) (U : gset string) (st : colState) : Prop := ColInv {
  ci_columns : Grid.Columns (cs_grid st) = inflatedColumn.column <$> (done ++ [col]);
  ci_map : rowsMap (cs_rows st) (Grid.Rows (cs_grid st));
  ci_rows : rowsInv done col U (Grid.Rows (cs_grid st));
  ci_missing : forall name,
    cs_missing st !! name = if decide (name ∈ U) then None else rows0 !! name;
  ci_fresh : forall name, cs_rows st !! name = None -> rows0 !! name = None;
  ci_keep : forall name p, rows0 !! name = Some p -> cs_rows st !! name = Some p;
  ci_dom : forall name, name ∈ U -> is_Some (cs_rows st !! name);
  ci_orig : forall name p,
    cs_rows st !! name = Some p -> name ∈ U \/ rows0 !! name = Some p
}.

(** [gridInv done grid rows]: the grid and its index after the columns
    [done]: one header per column; every row holds, cell by cell, the
    results of its test in those columns; every test met so far has a row. *)
Record gridInv (done : list inflatedColumn.t) (grid : Grid.t)
    (rows : gmap string nat) : Prop := GridInv {
  gi_columns : Grid.Columns grid = inflatedColumn.column <$> done;
  gi_map : rowsMap rows (Grid.Rows grid);
  gi_rows : forall p r, Grid.Rows grid !! p = Some r ->
                        rowInv (resultAt (Row.Name r) <$> done) r;
  gi_absent : forall name, rows !! name = None ->
    forall d, d ∈ done -> lookupCell name (inflatedColumn.cells d) = None
}.

(** A grid with the alerts of its rows cleared. *)
Definition clearRow (r : Row.t) : Row.t := Row.set_AlertInfo None r.

Definition clearGrid (g : Grid.t) : Grid.t :=
  Grid.Build (Grid.Columns g) (clearRow <$> Grid.Rows g).

Definition clearState (st : colState) : colState :=
  ColState (clearGrid (cs_grid st)) (cs_rows st) (cs_missing st).

(** ** Sorted lists *)

(** [notAfter less a b]: [a] may stand before [b]. *)
Definition notAfter {A : Type} (less : A -> A -> bool) (a b : A) : Prop :=
  less b a = false.

(** Two elements that [less] does not tell apart. *)
Definition tied {A : Type} (less : A -> A -> bool) (a b : A) : bool :=
  negb (less a b) && negb (less b a).

(** ** The alert walk *)

(** [walkInv N st]: the compressed index counts cells that hold a result,
    of which the row has [N]; the index of a noted failure lies below it. *)
Record walkInv (N : Z) (st : alertState) : Prop := WalkInv {
  wi_failures : 0 <= failures st;
  wi_failIdx : 0 <= failIdx st;
  wi_noted : 0 < failures st -> failIdx st < compressedIdx st;
  wi_slots : 0 <= compressedIdx st /\ compressedIdx st + Z.of_nat (occupied (ch st)) <= N
}.

(** The result that the walk decides on: [Coalesce] with [IgnoreRunning]. *)
Definition coalesce (r : Z) : Z := result.Coalesce r result.IgnoreRunning.

(** Run-length encoded results in which RUNNING has become [NO_RESULT]. *)
Fixpoint ignoreRunningResults (results : list Z) : list Z :=
  match results with
  | code :: count :: rest => coalesce code :: count :: ignoreRunningResults rest
  | _ => results
  end.

(** An array that has one entry per cell holding a result (in the order of
    [decoded]), without the entries of the RUNNING cells. *)
Fixpoint dropRunningSlots {A : Type} (decoded : list Z) (xs : list A) : list A :=
  match decoded with
  | [] => xs
  | r :: decoded' =>
      if r =? Row_NO_RESULT then dropRunningSlots decoded' xs
      else match xs with
           | [] => []
           | x :: xs' =>
               if r =? Row_RUNNING then dropRunningSlots decoded' xs'
               else x :: dropRunningSlots decoded' xs'
           end
  end.

(** [withoutRunning row]: the row with its RUNNING cells turned into
    [NO_RESULT] cells, their slots taken out of the arrays that [alertRow]
    reads by compressed index. *)
Definition withoutRunning (row : Row.t) : Row.t :=
  let decoded := result.Iter (Row.Results row) in
  Row.Build (Row.Name row) (Row.Id row)
            (ignoreRunningResults (Row.Results row))
            (dropRunningSlots decoded (Row.CellIds row))
            (dropRunningSlots decoded (Row.Messages row))
            (dropRunningSlots decoded (Row.Icons row))
            (Row.Metric row) (Row.Metrics row) (Row.AlertInfo row).

(** The walk over a row and the walk over the row without its RUNNING
    cells, side by side, after the cells [pre]. *)
Record sideBySide (pre : list Z) (a b : alertState) : Prop := SideBySide {
  sb_failures : failures b = failures a;
  sb_total : totalFailures b = totalFailures a;
  sb_passes : passes b = passes a;
  sb_lastFail : lastFail b = lastFail a;
  sb_latestPass : latestPass b = latestPass a;
  sb_ch : ch b = coalesce <$> ch a;
  sb_idx : compressedIdx a = Z.of_nat (occupied pre) /\
           compressedIdx b = Z.of_nat (occupied (coalesce <$> pre));
  sb_nonneg : 0 <= failures a;
  sb_noted : 0 < failures a ->
    exists p1 p2, pre = p1 ++ Row_FAIL :: p2 /\
                  failIdx a = Z.of_nat (occupied p1) /\
                  failIdx b = Z.of_nat (occupied (coalesce <$> p1))
}.

(** What is left of that relation when the loops are over. *)
Record sameOutcome (total : list Z) (a b : alertState) : Prop := SameOutcome {
  so_failures : failures b = failures a;
  so_total : totalFailures b = totalFailures a;
  so_lastFail : lastFail b = lastFail a;
  so_latestPass : latestPass b = latestPass a;
  so_noted : 0 < failures a ->
    exists p1 rest, total = p1 ++ Row_FAIL :: rest /\
                    failIdx a = Z.of_nat (occupied p1) /\
                    failIdx b = Z.of_nat (occupied (coalesce <$> p1))
}.

(** ** The content of a row

    What the arrays of a row should hold, said of the cells that the row's
    test has in the columns, one cell per column. *)

(** [hasResult c]: the cell holds a result, so that [appendCell] does not
    skip its message, its icon and its metrics. *)
Definition hasResult (c : cell.t) : bool := negb (cell.result c =? Row_NO_RESULT).

(** The cell of the test [name] in the build of [col], [emptyCell] when the
    build did not run it. *)
Definition cellAt (name : string) (col : inflatedColumn.t) : cell.t :=
  default emptyCell (lookupCell name (inflatedColumn.cells col)).

(** The value of the metric [k] in a map of metrics. *)
Fixpoint lookupMetric (k : string) (ms : list (string * float)) : option float :=
  match ms with
  | [] => None
  | kv :: ms' => if String.eqb kv.1 k then Some kv.2 else lookupMetric k ms'
  end.

(** Run-length encoding with maximal runs: a cell joins the run that
    follows it when both hold the same code. *)
Fixpoint encode (decoded : list Z) : list Z :=
  match decoded with
  | [] => []
  | r :: decoded' =>
      match encode decoded' with
      | code :: n :: rest =>
          if r =? code then code :: n + 1 :: rest else r :: 1 :: code :: n :: rest
      | _ => [r; 1]
      end
  end.

(** [maximalRuns results]: every run has a positive length and no two
    adjacent runs hold the same code. *)
Fixpoint maximalRuns (results : list Z) : Prop :=
  match results with
  | [] => True
  | c1 :: n1 :: rest =>
      1 <= n1 /\
      match rest with
      | c2 :: _ => c1 <> c2
      | [] => True
      end /\ maximalRuns rest
  | _ => False
  end.

(** An encoded stream with [n] more cells of one code at its end. *)
Fixpoint pushRun (results : list Z) (code n : Z) : list Z :=
  match results with
  | c :: m :: rest =>
      match rest with
      | [] => if c =? code then [c; m + n] else [c; m; code; n]
      | _ => c :: m :: pushRun rest code n
      end
  | _ => [code; n]
  end.

(** The sparse encoding of a list of positions: [(start, length)] pairs of
    maximal runs of consecutive positions. *)
Fixpoint encodeIdx (positions : list Z) : list Z :=
  match positions with
  | [] => []
  | p :: positions' =>
      match encodeIdx positions' with
      | start :: n :: rest =>
          if p + 1 =? start then p :: n + 1 :: rest else p :: 1 :: start :: n :: rest
      | _ => [p; 1]
      end
  end.

(** A sparse stream with one more position at its end. *)
Fixpoint pushIdx (indices : list Z) (idx : Z) : list Z :=
  match indices with
  | s :: n :: rest =>
      match rest with
      | [] => if s + n =? idx then [s; n + 1] else [s; n; idx; 1]
      | _ => s :: n :: pushIdx rest idx
      end
  | _ => [idx; 1]
  end.

(** The positions that a sparse stream stands for. *)
Fixpoint expand (indices : list Z) : list Z :=
  match indices with
  | start :: len :: rest => seqZ start len ++ expand rest
  | _ => []
  end.

(** The index that follows the last position, [-1] when there is none. *)
Definition endOf (ps : list Z) : Z :=
  match last ps with
  | Some p => p + 1
  | None => -1
  end.

(** The sample of the metric [k] that the cell [c], at position [i] of its
    row, contributes: none when the cell holds no result or does not carry
    the metric. *)
Definition sampleAt (k : string) (i : Z) (c : cell.t) : list (Z * float) :=
  if hasResult c
  then match lookupMetric k (cell.metrics c) with
       | Some v => [(i, v)]
       | None => []
       end
  else [].

(** The samples of the metric [k] in the cells [cs], the first of which is
    at position [i]: pairs of a position and a value, in the order of the
    cells. *)
Fixpoint samples (k : string) (i : Z) (cs : list cell.t) : list (Z * float) :=
  match cs with
  | [] => []
  | c :: cs' => sampleAt k i c ++ samples k (i + 1) cs'
  end.

(** [metricContent cs m]: the series [m] holds the samples of its metric in
    the cells [cs], the positions sparsely encoded. *)
Definition metricContent (cs : list cell.t) (m : Metric.t) : Prop :=
  Metric.Indices m = encodeIdx (samples (Metric.Name m) 0 cs).*1 /\
  Metric.Values m = (samples (Metric.Name m) 0 cs).*2.

(** [sideContent cs row]: the arrays of the row beside its results hold the
    cells [cs]: every cell id; the message and the icon of every cell that
    holds a result; one series for every metric that has a sample, and no
    other. *)
Record sideContent (cs : list cell.t) (row : Row.t) : Prop := SideContent {
  sc_cellIds : Row.CellIds row = cell.cellID <$> cs;
  sc_messages : Row.Messages row = cell.message <$> List.filter hasResult cs;
  sc_icons : Row.Icons row = cell.icon <$> List.filter hasResult cs;
  sc_names : Metric.Name <$> Row.Metrics row = Row.Metric row;
  sc_nodup : NoDup (Row.Metric row);
  sc_listed : forall k, k ∈ Row.Metric row <-> samples k 0 cs <> [];
  sc_metrics : Forall (metricContent cs) (Row.Metrics row)
}.

(** [rowContent cs row]: the row holds the cells [cs], its results encoded
    with maximal runs. *)
Record rowContent (cs : list cell.t) (row : Row.t) : Prop := RowContent {
  rc_results : Row.Results row = encode (cell.result <$> cs);
  rc_side : sideContent cs row
}.

(** [metricsMid cs c todo names ms]: the metrics of a row that held the
    cells [cs], while the loop over the metrics of the next cell [c] still
    has the names [todo] to go: the series of those names hold [cs], the
    others hold [cs] and [c]. *)
Record metricsMid (cs : list cell.t) (c : cell.t) (todo names : list string)
    (ms : list Metric.t) : Prop := MetricsMid {
  mm_names : Metric.Name <$> ms = names;
  mm_nodup : NoDup names;
  mm_listed : forall k,
    k ∈ names <-> samples k 0 cs <> [] \/ (k ∈ (cell.metrics c).*1 /\ k ∉ todo);
  mm_metrics : Forall (fun m =>
    metricContent (if bool_decide (Metric.Name m ∈ todo) then cs else cs ++ [c]) m) ms
}.

(** [seen name ds]: one of the columns [ds] has a cell for the test. *)
Definition seen (name : string) (ds : list inflatedColumn.t) : Prop :=
  exists d, d ∈ ds /\ name ∈ (inflatedColumn.cells d).*1.

(** [rowOf ds r]: the row [r] is the row of its test after the columns
    [ds]. *)
Record rowOf (ds : list inflatedColumn.t) (r : Row.t) : Prop := RowOf {
  ro_id : Row.Id r = Row.Name r;
  ro_seen : seen (Row.Name r) ds;
  ro_content : rowContent (cellAt (Row.Name r) <$> ds) r
}.

(** [rowsOf done col U Rows]: as [rowsInv], for the content of the rows. *)
Definition rowsOf (done : list inflatedColumn.t) (col : inflatedColumn.t)
    (U : gset string) (Rows : list Row.t) : Prop :=
  forall (p : nat) (r : Row.t),
    Rows !! p = Some r ->
    if decide (Row.Name r ∈ U) then rowOf (done ++ [col]) r else rowOf done r.

(** [gridOf done grid]: every row of the grid is the row of its test after
    the columns [done]. *)
Definition gridOf (done : list inflatedColumn.t) (grid : Grid.t) : Prop :=
  forall (p : nat) (r : Row.t), Grid.Rows grid !! p = Some r -> rowOf done r.

(** ** Columns that are the same maps

    Two listings of one Go map differ by their order only. *)

(** [sameCell c c']: the two cells have the same fields, and their maps of
    metrics give the same value to every name. *)
Definition sameCell (c c' : cell.t) : Prop :=
  cell.result c = cell.result c' /\ cell.cellID c = cell.cellID c' /\
  cell.message c = cell.message c' /\ cell.icon c = cell.icon c' /\
  forall k, lookupMetric k (cell.metrics c) = lookupMetric k (cell.metrics c').

(** [sameColumn col col']: the same header, and the same cell for every
    test that either has. *)
Definition sameColumn (col col' : inflatedColumn.t) : Prop :=
  inflatedColumn.column col = inflatedColumn.column col' /\
  forall name,
    match lookupCell name (inflatedColumn.cells col),
          lookupCell name (inflatedColumn.cells col') with
    | Some c, Some c' => sameCell c c'
    | None, None => True
    | _, _ => False
    end.

(** The series of the metric [k] of a row that holds the cells [cs]. *)
Definition seriesOf (cs : list cell.t) (k : string) : Metric.t :=
  Metric.Build k (encodeIdx (samples k 0 cs).*1) (samples k 0 cs).*2.

(** ** When an alert opens *)

(** The results on which the walk decides: PASS, FAIL and FLAKY.  Every
    other code leaves the counters as they are. *)
Definition decisive (r : Z) : bool :=
  (r =? Row_PASS) || (r =? Row_FAIL) || (r =? Row_FLAKY).

(** [runAt x n l i]: the list holds [n] times [x] from the position [i]
    on. *)
Definition runAt (x : Z) (n : nat) (l : list Z) (i : nat) : Prop :=
  forall j : nat, (j < n)%nat -> l !! (i + j)%nat = Some x.

(** [opens n m l]: the list holds [n] failures in a row, and no [m] passes
    in a row that start before these failures end. *)
Definition opens (n m : nat) (l : list Z) : Prop :=
  exists i : nat,
    runAt Row_FAIL n l i /\ forall k : nat, runAt Row_PASS m l k -> (i + n <= k)%nat.

(** [trailing x c l]: the list ends with exactly [c] times [x]. *)
Definition trailing (x : Z) (c : nat) (l : list Z) : Prop :=
  (c <= length l)%nat /\ runAt x c l (length l - c) /\
  ((c < length l)%nat -> l !! (length l - c - 1)%nat <> Some x).

(** [undecided n m done st]: the walk has met the decisive results [done]
    and neither [n] failures nor [m] passes in a row so far; its counters
    are the lengths of the runs at the end of [done]. *)
Record undecided (n m : nat) (done : list Z) (st : alertState) : Prop := Undecided {
  ud_failures : exists f : nat,
    failures st = Z.of_nat f /\ (f < n)%nat /\ trailing Row_FAIL f done;
  ud_passes : exists p : nat,
    passes st = Z.of_nat p /\ (p < m)%nat /\ trailing Row_PASS p done;
  ud_noFail : forall i, ~ runAt Row_FAIL n done i;
  ud_noPass : forall k, ~ runAt Row_PASS m done k
}.

(** ** The columns that an alert notes *)

(** [quiet walked a b]: no result strictly between the positions [a] and
    [b] is one on which the walk decides. *)
Definition quiet (walked : list Z) (a b : nat) : Prop :=
  forall (k : nat) (r : Z), (a < k < b)%nat -> walked !! k = Some r -> decisive r = false.

(** [outageAt n walked t]: the last [n] results on which the walk decides,
    among those of the positions up to [t], are failures. *)
Definition outageAt (n : nat) (walked : list Z) (t : nat) : Prop :=
  exists l, List.filter decisive (take (S t) walked) = l ++ replicate n Row_FAIL.

(** [failing walked t i]: the results from the position [t] to the position
    [i] are failures or results on which the walk does not decide, the one
    at [i] a failure. *)
Definition failing (walked : list Z) (t i : nat) : Prop :=
  (t <= i)%nat /\ walked !! i = Some Row_FAIL /\
  forall (k : nat) (r : Z), (t < k < i)%nat -> walked !! k = Some r ->
    r = Row_FAIL \/ decisive r = false.

(** [opening n walked pos st]: the walk has passed [pos] columns and no
    [n] failures in a row yet. *)
Record opening (n : nat) (walked : list Z) (pos : nat) (st : alertState) : Prop := Opening {
  op_ch : ch st = drop pos walked;
  op_run : exists (l : list Z) (f : nat),
    List.filter decisive (take pos walked) = l ++ replicate f Row_FAIL /\
    last l <> Some Row_FAIL /\ failures st = Z.of_nat f /\ (f < n)%nat;
  op_none : forall t', (t' < pos)%nat -> ~ outageAt n walked t';
  op_pass : latestPass st = None
}.

(** [outage cols walked t pos st]: the walk has passed [pos] columns, the
    failures in a row were complete at the position [t], and the walk has
    gone on since. *)
Record outage (cols : list (option Column.t)) (walked : list Z) (t pos : nat)
    (st : alertState) : Prop := Outage {
  ou_ch : ch st = drop pos walked;
  ou_last : exists i,
    (i < pos)%nat /\ cols !! i = Some (lastFail st) /\ failing walked t i /\
    quiet walked i pos;
  ou_pass : latestPass st = None
}.

(** [noted cols walked t fail pass]: [fail] is the column of the last
    failure of the outage that opened at [t], and [pass] the column of the
    pass that follows it, nil when the results end or a flaky result comes
    first. *)
Definition noted (cols : list (option Column.t)) (walked : list Z) (t : nat)
    (fail pass : option Column.t) : Prop :=
  exists i,
    cols !! i = Some fail /\ failing walked t i /\
    ((exists j, (i < j)%nat /\ cols !! j = Some pass /\ walked !! j = Some Row_PASS /\
                quiet walked i j) \/
     (pass = None /\
      ((exists j, (i < j < length cols)%nat /\ walked !! j = Some Row_FLAKY /\
                  quiet walked i j) \/
       quiet walked i (length cols)))).

(** ** One call of [appendCell] or several *)

(** The first statement of [appendCell]: the results with [count] more
    cells of the code [latest]. *)
Definition appendRun (results : list Z) (latest count : Z) : go (list Z) :=
  let n := Z.of_nat (length results) in
  if n =? 0 then Ok (results ++ [latest; wrap32 count])
  else
    last <~ index results (n - 2) ;;
    if negb (last =? latest) then Ok (results ++ [latest; wrap32 count])
    else
      len <~ index results (n - 1) ;;
      Ok (<[Z.to_nat (n - 1) := wrap32 (len + wrap32 count)]> results).

(** ** The progress log *)

(** The index that the loop of [logUpdate] holds after the events: the last
    one received. *)
Definition currentAfter (current : Z) (events : list event) : Z :=
  foldl (fun cur ev => match ev with Recv i => i | _ => cur end) current events.

(** The indices that [Update] sends are those of the test groups. *)
Definition indexOf (total : Z) (ev : event) : Prop :=
  match ev with
  | Recv i => 0 <= i < total
  | _ => True
  end.

(** What every logged entry says when the indices are those of the
    groups. *)
Definition entryOf (total : Z) (e : progress.t) : Prop :=
  progress.total e = total /\ 1 <= progress.current e < total /\
  progress.percent e = 100 * progress.current e / total /\
  0 <= progress.percent e < 100.

(** ** Integers held in a float *)

(** [exactly f z]: the float [f] is the positive integer [z], held without
    rounding in a mantissa of 53 bits. *)
Definition exactly (f : spec_float) (z : Z) : Prop :=
  exists (m : positive) (e : Z),
    f = S754_finite false m e /\ Z.pos (digits2_pos m) = 53 /\
    -52 <= e <= 0 /\ Z.pos m = z * 2 ^ (- e).

(** Case analysis on the integer comparisons of a goal. *)
Ltac eqb_cases :=
  repeat (match goal with
          | |- context [Z.eqb ?a ?b] => destruct (Z.eqb_spec a b); simpl
          end);
  try congruence; try lia.

(** ** Sample data *)

(** Four builds, newest first; the third carries an extra. *)
Definition example_cols : list (option Column.t) :=
  [Some (Column.Make "b4" 4000.5%float []); Some (Column.Make "b3" 3000%float []);
   Some (Column.Make "b2" 2000%float ["e2"]); Some (Column.Make "b1" 1000.25%float [])].

(** PASS, FAIL, FAIL, PASS. *)
Definition example_closed : Row.t :=
  Row.Build "t" "t" [1; 1; 12; 2; 1; 1] ["b4"; "b3"; "b2"; "b1"]
            ["ok"; "bad3"; "bad2"; "ok"] [""; "F"; "F"; ""] [] [] None.

(** FAIL, FAIL, PASS, PASS. *)
Definition example_opened : Row.t :=
  Row.Build "t" "t" [12; 2; 1; 2] ["b4"; "b3"; "b2"; "b1"]
            ["bad4"; "bad3"; "ok"; "ok"] ["F"; "F"; ""; ""] [] [] None.

(** FAIL, FLAKY, PASS, PASS. *)
Definition example_one_failure : Row.t :=
  Row.Build "t" "t" [12; 1; 13; 1; 1; 2] ["b4"; "b3"; "b2"; "b1"]
            ["bad"; "flaky"; "ok"; "ok"] ["F"; "~"; ""; ""] [] [] None.

(** RUNNING, FAIL, FAIL, PASS. *)
Definition example_running : Row.t :=
  Row.Build "t" "t" [4; 1; 12; 2; 1; 1] ["b4"; "b3"; "b2"; "b1"]
            ["running"; "bad3"; "bad2"; "ok"] ["R"; "F"; "F"; ""] [] [] None.

(** A metric present in the columns 0, 1 and 5. *)
Definition example_metric : Metric.t :=
  Metric.Build "latency" [0; 2; 5; 1] [1.5%float; 2.5%float; 7%float].

Definition example_group : TestGroup.t := TestGroup.Build "group" 2 0.

Definition plainCell (r : Z) (id msg : string) : cell.t := cell.Build r id msg "" [].

(** Two builds, newest first; the test [t2] appears in the newer one only,
    the test [t1] has a metric in the newer one only. *)
Definition example_columns : list inflatedColumn.t :=
  [inflatedColumn.Build (Some (Column.Make "b2" 2000.5%float []))
     [("t2", plainCell Row_FAIL "b2" "boom");
      ("t1", cell.Build Row_PASS "b2" "" "" [("latency", 12.5%float)])];
   inflatedColumn.Build (Some (Column.Make "b1" 1000%float []))
     [("t1", plainCell Row_PASS "b1" "")]].

Definition example_grid : Grid.t :=
  Grid.Build
    [Some (Column.Make "b2" 2000.5%float []); Some (Column.Make "b1" 1000%float [])]
    [Row.Build "t1" "t1" [1; 2] ["b2"; "b1"] [""; ""] [""; ""] ["latency"]
       [Metric.Build "latency" [0; 1] [12.5%float]] None;
     Row.Build "t2" "t2" [12; 1; 0; 1] ["b2"; ""] ["boom"] [""] [] [] None].

(** A negative threshold, and a test whose newest cell is [NO_RESULT]. *)
Definition negative_group : TestGroup.t := TestGroup.Build "group" (-1) 0.

Definition negative_columns : list inflatedColumn.t :=
  [inflatedColumn.Build (Some (Column.Make "b2" 2000%float []))
     [("t1", plainCell Row_NO_RESULT "b2" "")];
   inflatedColumn.Build (Some (Column.Make "b1" 1000%float []))
     [("t1", plainCell Row_PASS "b1" "ok")]].

(** The newer build lists its tests the other way round. *)
Definition example_columns_reordered : list inflatedColumn.t :=
  [inflatedColumn.Build (Some (Column.Make "b2" 2000.5%float []))
     [("t1", cell.Build Row_PASS "b2" "" "" [("latency", 12.5%float)]);
      ("t2", plainCell Row_FAIL "b2" "boom")];
   inflatedColumn.Build (Some (Column.Make "b1" 1000%float []))
     [("t1", plainCell Row_PASS "b1" "")]].

(** One failure opens an alert. *)
Definition alert_group : TestGroup.t := TestGroup.Build "group" 1 0.

(** Three groups: the indices 0, 1 and 2 are sent, a tick comes after one
    minute and another after two. *)
Definition example_events : list event :=
  [Recv 0; Recv 1; Tick 60000000000; Recv 2; Tick 120000000000; Closed].

(** A row whose results were cut after the first code. *)
Definition example_cut : Row.t := Row.set_Results [12] example_opened.

(** A name template of two parts. *)
Definition example_template : TestNameConfig.t :=
  TestNameConfig.Build "%s [%s]"
    [Some (TestNameConfig_NameElement.Build "Tests name");
     Some (TestNameConfig_NameElement.Build "Context")].

(** * Properties *)

(** ** Machine integers and indexing *)

Lemma wrap32_id (z : Z) : int32_range z -> wrap32 z = z.
Proof.
  unfold int32_range, wrap32. intros H.
  rewrite Z.mod_small; lia.
Qed.

Lemma wrap32_range (z : Z) : int32_range (wrap32 z).
Proof.
  unfold int32_range, wrap32.
  pose proof (Z.mod_pos_bound (z + 2 ^ 31) (2 ^ 32)). lia.
Qed.

Lemma index_Ok {A : Type} (l : list A) (i : nat) (x : A) :
  l !! i = Some x -> index l (Z.of_nat i) = Ok x.
Proof.
  intros H. unfold index.
  destruct (Z.ltb_spec (Z.of_nat i) 0); [lia|].
  by rewrite Nat2Z.id, H.
Qed.

Lemma index_inv {A : Type} (l : list A) (i : Z) (x : A) :
  index l i = Ok x -> 0 <= i /\ l !! Z.to_nat i = Some x.
Proof.
  unfold index. destruct (Z.ltb_spec i 0); [done|].
  destruct (l !! Z.to_nat i) eqn:E; [|done].
  intros [= ->]. split; [lia|done].
Qed.

Lemma index_lt {A : Type} (l : list A) (i : Z) :
  0 <= i < Z.of_nat (length l) -> exists x, index l i = Ok x /\ l !! Z.to_nat i = Some x.
Proof.
  intros H. unfold index.
  destruct (Z.ltb_spec i 0); [lia|].
  destruct (lookup_lt_is_Some_2 l (Z.to_nat i)) as [x Hx]; [lia|].
  exists x. by rewrite Hx.
Qed.

(** ** The alert walk on concrete rows *)

(** C3. With [failuresToOpen = 2] and [passesToClose = 1], a row whose
    decoded results, newest first, are PASS, FAIL, FAIL, PASS gets no alert,
    whatever the columns; a row whose decoded results are FAIL, FAIL, PASS,
    PASS, walked over at least two columns, gets an alert whose [FailCount]
    is 2 (and whose message and test id are the row's first entries). *)
Theorem alertRow_two_failures_one_pass
    (cols : list (option Column.t)) (closed opened : Row.t) :
  result.Iter (Row.Results closed) = [Row_PASS; Row_FAIL; Row_FAIL; Row_PASS] ->
  result.Iter (Row.Results opened) = [Row_FAIL; Row_FAIL; Row_PASS; Row_PASS] ->
  (2 <= length cols)%nat ->
  (0 < length (Row.Messages opened))%nat ->
  (0 < length (Row.CellIds opened))%nat ->
  alertRow cols closed 2 1 = Ok None /\
  exists info,
    alertRow cols opened 2 1 = Ok (Some info) /\
    AlertInfo.FailCount info = 2 /\
    Row.Messages opened !! 0%nat = Some (AlertInfo.FailureMessage info) /\
    Row.CellIds opened !! 0%nat = Some (AlertInfo.FailTestId info).
Proof.
  intros Hc Ho Hcols Hm Hi. split.
  - unfold alertRow, alertInit. rewrite Hc.
    destruct cols as [|c1 cols]; reflexivity.
  - unfold alertRow, alertInit. rewrite Ho.
    destruct (Row.Messages opened) as [|m ms] eqn:Em; [simpl in Hm; lia|].
    destruct (Row.CellIds opened) as [|i0 ids] eqn:Ei; [simpl in Hi; lia|].
    destruct cols as [|c1 [|c2 [|c3 cols]]]; simpl in Hcols; try lia.
    + eexists. split; [reflexivity|]. simpl. auto.
    + eexists. split; [reflexivity|]. simpl. auto.
Qed.

Lemma alertRow_two_failures_one_pass_witness :
  alertRow example_cols example_closed 2 1 = Ok None /\
  exists info,
    alertRow example_cols example_opened 2 1 = Ok (Some info) /\
    AlertInfo.FailCount info = 2 /\
    Row.Messages example_opened !! 0%nat = Some (AlertInfo.FailureMessage info) /\
    Row.CellIds example_opened !! 0%nat = Some (AlertInfo.FailTestId info).
Proof.
  apply (alertRow_two_failures_one_pass example_cols example_closed example_opened);
    [reflexivity | reflexivity | simpl; lia | simpl; lia | simpl; lia].
Defined.

(** ** Rows with few failures *)

Lemma countResult_nonneg (code : Z) (l : list Z) : 0 <= countResult code l.
Proof. induction l as [|r l IH]; simpl; [lia|]. destruct (r =? code); lia. Qed.

Lemma countResult_recv (code : Z) (s : list Z) :
  countResult code s =
  (if negb (length s =? 0)%nat && ((result.recv s).1 =? code) then 1 else 0)
  + countResult code (result.recv s).2.
Proof. destruct s as [|r s]; simpl; [reflexivity|]. destruct (r =? code); lia. Qed.

(** While the failures counted so far and those still to come stay below the
    threshold, the loop never leaves with enough failures. *)
Lemma alertLoop_few_failures (fto ptc : Z) (cols : list (option Column.t)) :
  forall st : alertState,
    0 <= failures st ->
    failures st + countResult Row_FAIL (ch st) < fto ->
    match alertLoop fto ptc cols st with
    | Some st' => failures st' < fto
    | None => True
    end.
Proof.
  induction cols as [|col cols IH]; intros st Hpos Hlt; simpl.
  - pose proof (countResult_nonneg Row_FAIL (ch st)). lia.
  - pose proof (countResult_nonneg Row_FAIL (ch st)) as Hc.
    pose proof (countResult_nonneg Row_FAIL (result.recv (ch st)).2) as Hc'.
    pose proof (countResult_recv Row_FAIL (ch st)) as Hr.
    destruct st as [f tf p ci s lf lp fi]; simpl in *.
    unfold alertStep; simpl.
    set (raw := (result.recv s).1) in *.
    set (s' := (result.recv s).2) in *.
    unfold result.Coalesce, result.IgnoreRunning.
    destruct (Z.eqb_spec raw Row_RUNNING) as [Hrun|Hrun]; simpl.
    { apply IH; simpl; [lia|].
      rewrite Hrun in Hr. simpl in Hr. rewrite andb_false_r in Hr. lia. }
    destruct (Z.eqb_spec raw Row_NO_RESULT) as [Hno|Hno].
    { apply IH; simpl; [lia|].
      rewrite Hno in Hr. simpl in Hr. rewrite andb_false_r in Hr. lia. }
    destruct (Z.eqb_spec raw Row_PASS) as [Hpass|Hpass].
    { destruct (Z.leb_spec fto f); [lia|].
      destruct (Z.leb_spec ptc (p + 1)); [done|].
      apply IH; simpl; [lia|].
      rewrite Hpass in Hr. simpl in Hr. rewrite andb_false_r in Hr. lia. }
    destruct (Z.eqb_spec raw Row_FAIL) as [Hfail|Hfail].
    { apply IH; simpl; [lia|].
      destruct (length s =? 0)%nat eqn:El.
      - destruct s; [|done]. subst raw. simpl in Hfail. done.
      - simpl in Hr. lia. }
    assert (countResult Row_FAIL s' <= countResult Row_FAIL s) as Hle.
    { rewrite andb_false_r in Hr. lia. }
    destruct (Z.eqb_spec raw Row_FLAKY) as [Hflaky|Hflaky].
    { destruct (Z.leb_spec fto f); [lia|]. apply IH; simpl; lia. }
    apply IH; simpl; lia.
Qed.

(** C4. With [failuresToOpen > 0], a row whose decoded results hold fewer
    than [failuresToOpen] FAIL cells gets no alert. *)
Theorem alertRow_few_failures
    (cols : list (option Column.t)) (row : Row.t) (failuresToOpen passesToClose : Z) :
  0 < failuresToOpen ->
  countResult Row_FAIL (result.Iter (Row.Results row)) < failuresToOpen ->
  alertRow cols row failuresToOpen passesToClose = Ok None.
Proof.
  intros Hpos Hfew. unfold alertRow.
  destruct (Z.eqb_spec failuresToOpen 0); [reflexivity|].
  pose proof (alertLoop_few_failures failuresToOpen passesToClose cols (alertInit row)) as H.
  simpl in H. specialize (H ltac:(lia) ltac:(lia)).
  destruct (alertLoop failuresToOpen passesToClose cols (alertInit row)) as [st|];
    [|reflexivity].
  destruct (Z.ltb_spec (failures st) failuresToOpen); [reflexivity|lia].
Qed.

Lemma alertRow_few_failures_witness :
  alertRow example_cols example_one_failure 2 3 = Ok None.
Proof.
  apply (alertRow_few_failures example_cols example_one_failure 2 3);
    [lia | vm_compute; reflexivity].
Defined.

(** ** Sparse metric encoding *)

Lemma lastRun_Some (indices pre : list Z) (start len : Z) :
  lastRun indices = Some (pre, start, len) -> indices = pre ++ [start; len].
Proof.
  unfold lastRun. destruct (reverse indices) as [|b [|a r]] eqn:E; try done.
  intros [= <- <- <-].
  rewrite <- (reverse_involutive indices), E.
  by rewrite !reverse_cons, <- app_assoc.
Qed.

Lemma lastRun_None (indices : list Z) :
  lastRun indices = None -> (length indices < 2)%nat.
Proof.
  unfold lastRun. intros H.
  rewrite <- (length_reverse indices).
  destruct (reverse indices) as [|b [|a r]]; simpl; try done; lia.
Qed.

Lemma lastRun_snoc (pre : list Z) (start len : Z) :
  lastRun (pre ++ [start; len]) = Some (pre, start, len).
Proof.
  unfold lastRun. rewrite reverse_app. simpl.
  by rewrite reverse_involutive.
Qed.

Lemma runSum_snoc (l : list Z) (start len : Z) :
  Nat.Even (length l) -> runSum (l ++ [start; len]) = runSum l + len.
Proof.
  revert l. fix IH 1. intros [|a [|b l]] Hev; simpl.
  - lia.
  - destruct Hev as [k Hk]. simpl in Hk. lia.
  - rewrite IH; [lia|]. destruct Hev as [k Hk]. simpl in Hk.
    exists (k - 1)%nat. lia.
Qed.

Lemma sparse_length (l : list Z) (e s : Z) :
  sparse l e s -> Nat.Even (length l) /\ Z.of_nat (length l) <= e + 1.
Proof.
  induction 1 as [|l e s start len _ [[k Hk] IH] Hlt Hlen].
  - split; [by exists 0%nat | simpl; lia].
  - rewrite length_app. simpl. split; [exists (k + 1)%nat; lia | lia].
Qed.

Lemma sparse_runSum (l : list Z) (e s : Z) : sparse l e s -> runSum l = s.
Proof.
  induction 1 as [|l e s start len Hl IH Hlt Hlen]; [done|].
  rewrite runSum_snoc; [lia|]. by destruct (sparse_length _ _ _ Hl).
Qed.

Lemma sparse_inv_snoc (pre : list Z) (start len e s : Z) :
  sparse (pre ++ [start; len]) e s ->
  exists e0, sparse pre e0 (s - len) /\ e0 < start /\ 1 <= len /\ e = start + len.
Proof.
  inversion 1 as [Hnil | l e' s' start' len' Hl Hlt Hlen Heq].
  - by destruct pre.
  - apply app_inj_2 in Heq as [-> [= -> ->]]; [|done].
    exists e'. replace (s' + len - len) with s' by lia. done.
Qed.

Lemma appendMetric_nil (metric : Metric.t) (idx : Z) (value : float) :
  Metric.Indices metric = [] ->
  appendMetric metric idx value =
  Ok (Metric.Build (Metric.Name metric) [idx; 1] (Metric.Values metric ++ [value])).
Proof. intros H. unfold appendMetric. by rewrite H. Qed.

Lemma appendMetric_snoc (metric : Metric.t) (idx : Z) (value : float)
    (pre : list Z) (start len : Z) :
  Metric.Indices metric = pre ++ [start; len] ->
  Z.of_nat (length (Metric.Indices metric)) < 2 ^ 31 ->
  appendMetric metric idx value =
  Ok (Metric.Build (Metric.Name metric)
        (if wrap32 (start + len) =? idx
         then pre ++ [start; wrap32 (len + 1)]
         else Metric.Indices metric ++ [idx; 1])
        (Metric.Values metric ++ [value])).
Proof.
  intros H Hlen. unfold appendMetric.
  rewrite H in *. rewrite length_app in *. simpl length in *.
  set (n := length pre) in *.
  rewrite (wrap32_id (Z.of_nat (n + 2))) by (unfold int32_range; lia).
  destruct (Z.eqb_spec (Z.of_nat (n + 2)) 0); [lia|].
  rewrite !wrap32_id by (unfold int32_range; lia).
  replace (Z.of_nat (n + 2) - 2) with (Z.of_nat n) by lia.
  replace (Z.of_nat (n + 2) - 1) with (Z.of_nat (n + 1)) by lia.
  rewrite (index_Ok _ n start) by (subst n; by rewrite lookup_app_r, Nat.sub_diag).
  rewrite (index_Ok _ (n + 1) len).
  2:{ subst n. rewrite lookup_app_r by lia.
      by replace (length pre + 1 - length pre)%nat with 1%nat by lia. }
  simpl. destruct (wrap32 (start + len) =? idx); simpl; [|done].
  rewrite Nat2Z.id. do 3 f_equal.
  subst n. rewrite insert_app_r_alt by lia.
  by replace (length pre + 1 - length pre)%nat with 1%nat by lia.
Qed.

(** Appending at a column index not below the end of the last run keeps the
    stream well formed: the result ends after [idx] and its run lengths sum
    to the number of values. *)
Lemma appendMetric_sparse (metric : Metric.t) (idx : Z) (value : float) (e : Z) :
  sparse (Metric.Indices metric) e (Z.of_nat (length (Metric.Values metric))) ->
  e <= idx -> 0 <= idx < 2 ^ 31 - 1 ->
  exists metric',
    appendMetric metric idx value = Ok metric' /\
    Metric.Name metric' = Metric.Name metric /\
    sparse (Metric.Indices metric') (idx + 1) (Z.of_nat (length (Metric.Values metric'))).
Proof.
  intros Hsp Hmono Hidx.
  destruct (sparse_length _ _ _ Hsp) as [_ Hbound].
  inversion Hsp as [Hnil He Hs | pre e0 s start len Hpre Hlt Hpos Hind He Hs].
  - rewrite (appendMetric_nil _ _ _ (eq_sym Hnil)).
    eexists. split; [reflexivity|]. split; [done|]. simpl.
    replace (Z.of_nat (length (Metric.Values metric ++ [value]))) with (0 + 1)
      by (rewrite length_app; simpl; lia).
    apply (sparse_snoc [] (-1) 0 idx 1); [apply sparse_nil|lia|lia].
  - rewrite (appendMetric_snoc _ _ _ _ _ _ (eq_sym Hind)) by lia.
    eexists. split; [reflexivity|]. split; [done|]. simpl.
    rewrite length_app. simpl length.
    destruct (sparse_length _ _ _ Hpre) as [_ Hbound0].
    rewrite (wrap32_id (start + len)) by (unfold int32_range; lia).
    destruct (Z.eqb_spec (start + len) idx) as [Heq|Hne].
    + rewrite wrap32_id by (unfold int32_range; lia).
      replace (idx + 1) with (start + (len + 1)) by lia.
      replace (Z.of_nat (length (Metric.Values metric) + 1)) with (s + (len + 1)) by lia.
      apply (sparse_snoc pre e0); [done|lia|lia].
    + replace (Z.of_nat (length (Metric.Values metric) + 1))
        with (Z.of_nat (length (Metric.Values metric)) + 1) by lia.
      apply (sparse_snoc _ e); [done|lia|lia].
Qed.

(** C6. [appendMetric] on a metric whose indices are pairs (their number
    fitting the [int32] length the code reads): it returns, keeps the name,
    always appends [value] to the values, and appends the pair [(idx, 1)]
    exactly when the indices are empty or [idx] differs from the [int32] sum
    [indices[L-2] + indices[L-1]], incrementing [indices[L-1]] otherwise.
    Hence when [idx] is a column index not below the index that follows the
    last run, the result is again a well-formed sparse stream ending after
    [idx] whose run lengths sum to the number of values. *)
Theorem appendMetric_spec (metric : Metric.t) (idx : Z) (value : float) :
  length (Metric.Indices metric) <> 1%nat ->
  Z.of_nat (length (Metric.Indices metric)) < 2 ^ 31 ->
  exists metric',
    appendMetric metric idx value = Ok metric' /\
    Metric.Name metric' = Metric.Name metric /\
    Metric.Values metric' = Metric.Values metric ++ [value] /\
    match lastRun (Metric.Indices metric) with
    | None => Metric.Indices metric' = Metric.Indices metric ++ [idx; 1]
    | Some (pre, start, len) =>
        if wrap32 (start + len) =? idx
        then Metric.Indices metric' = pre ++ [start; wrap32 (len + 1)]
        else Metric.Indices metric' = Metric.Indices metric ++ [idx; 1]
    end /\
    forall e : Z,
      sparse (Metric.Indices metric) e (Z.of_nat (length (Metric.Values metric))) ->
      e <= idx -> 0 <= idx < 2 ^ 31 - 1 ->
      sparse (Metric.Indices metric') (idx + 1) (Z.of_nat (length (Metric.Values metric'))) /\
      runSum (Metric.Indices metric') = Z.of_nat (length (Metric.Values metric')).
Proof.
  intros Hpairs Hlen.
  assert (exists metric',
    appendMetric metric idx value = Ok metric' /\
    Metric.Name metric' = Metric.Name metric /\
    Metric.Values metric' = Metric.Values metric ++ [value] /\
    match lastRun (Metric.Indices metric) with
    | None => Metric.Indices metric' = Metric.Indices metric ++ [idx; 1]
    | Some (pre, start, len) =>
        if wrap32 (start + len) =? idx
        then Metric.Indices metric' = pre ++ [start; wrap32 (len + 1)]
        else Metric.Indices metric' = Metric.Indices metric ++ [idx; 1]
    end) as (metric' & Hret & Hname & Hvalues & Hindices).
  { destruct (lastRun (Metric.Indices metric)) as [[[pre start] len]|] eqn:Elast.
    - pose proof (lastRun_Some _ _ _ _ Elast) as Hind.
      rewrite (appendMetric_snoc _ _ _ _ _ _ Hind Hlen).
      eexists. split; [reflexivity|]. simpl.
      split; [done|]. split; [done|]. by destruct (wrap32 (start + len) =? idx).
    - pose proof (lastRun_None _ Elast) as Hshort.
      destruct (Metric.Indices metric) as [|a [|b l]] eqn:Hind; simpl in *; try lia.
      rewrite (appendMetric_nil _ _ _ Hind).
      eexists. split; [reflexivity|]. simpl. done. }
  exists metric'. split; [done|]. split; [done|]. split; [done|]. split; [done|].
  intros e Hsp Hmono Hidx.
  destruct (appendMetric_sparse metric idx value e Hsp Hmono Hidx) as (m2 & Hret2 & _ & Hsp2).
  rewrite Hret in Hret2. injection Hret2 as <-.
  split; [done|]. by apply sparse_runSum in Hsp2.
Qed.

Lemma appendMetric_spec_witness :
  exists metric',
    appendMetric example_metric 6 8%float = Ok metric' /\
    Metric.Name metric' = "latency" /\
    Metric.Values metric' = [1.5%float; 2.5%float; 7%float; 8%float] /\
    Metric.Indices metric' = [0; 2; 5; 2] /\
    runSum (Metric.Indices metric') = 4.
Proof.
  destruct (appendMetric_spec example_metric 6 8%float) as (m & Hm & Hn & Hv & Hi & Hs);
    [simpl; lia | simpl; lia |].
  exists m. split; [exact Hm|]. split; [exact Hn|]. split; [exact Hv|].
  split; [exact Hi|].
  assert (sparse (Metric.Indices example_metric) 6
            (Z.of_nat (length (Metric.Values example_metric)))) as Hsp.
  2:{ destruct (Hs 6 Hsp) as [_ Hsum]; [lia|lia|]. rewrite Hsum, Hv. reflexivity. }
  apply (sparse_snoc [0; 2] 2 2 5 1); [|lia|lia].
  apply (sparse_snoc [] (-1) 0 0 2); [apply sparse_nil|lia|lia].
Defined.

(** ** Metrics of a row

    [metric_ok n m]: the indices of [m] are a well-formed sparse stream over
    the first [n] cells whose run lengths sum to the number of values.
    [names_ok]: the metric names of a row and its series go in lockstep, no
    name twice. *)

Lemma metric_ok_mono (n n' : Z) (m : Metric.t) :
  n <= n' -> metric_ok n m -> metric_ok n' m.
Proof. intros Hle (e & Hsp & He). exists e. split; [done|lia]. Qed.

Lemma existsb_eqb_elem_of (k : string) (names : list string) :
  existsb (String.eqb k) names = true <-> k ∈ names.
Proof.
  rewrite existsb_exists, list_elem_of_In. split.
  - intros (x & Hin & Heq). apply String.eqb_eq in Heq. by subst.
  - intros Hin. exists k. split; [done|]. apply String.eqb_refl.
Qed.

Lemma appendMetric_ok (n : Z) (m : Metric.t) (v : float) :
  0 <= n < 2 ^ 31 - 1 ->
  metric_ok n m ->
  exists m', appendMetric m n v = Ok m' /\
             Metric.Name m' = Metric.Name m /\ metric_ok (n + 1) m'.
Proof.
  intros Hn (e & Hsp & He).
  destruct (appendMetric_sparse m n v e Hsp He Hn) as (m' & Hm' & Hname & Hok).
  exists m'. split; [done|]. split; [done|].
  exists (n + 1). split; [done|lia].
Qed.

Lemma appendCellMetric_spec (row : Row.t) (k : string) (v : float) (n : Z) :
  Z.of_nat (length (Row.CellIds row)) = n + 1 ->
  0 <= n < 2 ^ 31 - 1 ->
  names_ok (Row.Metric row) (Row.Metrics row) ->
  Forall (metric_ok (n + 1)) (Row.Metrics row) ->
  (forall m, m ∈ Row.Metrics row -> Metric.Name m = k -> metric_ok n m) ->
  exists names' ms',
    appendCellMetric row (k, v) = Ok (Row.set_Metrics ms' (Row.set_Metric names' row)) /\
    names_ok names' ms' /\
    Forall (metric_ok (n + 1)) ms' /\
    (forall m, m ∈ ms' -> Metric.Name m <> k -> m ∈ Row.Metrics row).
Proof.
  intros Hcells Hn [Hnames Hnodup] Hall Hk.
  unfold appendCellMetric. simpl fst. simpl snd.
  assert (wrap32 (Z.of_nat (length (Row.CellIds row)) - 1) = n) as Hidx
    by (rewrite wrap32_id; unfold int32_range; lia).
  destruct (list_find (fun metric => Metric.Name metric = k) (Row.Metrics row))
    as [[i m]|] eqn:Efind.
  - pose proof Efind as Efind'.
    apply list_find_Some in Efind as (Hi & Hname & _).
    assert (k ∈ Row.Metric row) as Hin.
    { rewrite <- Hnames, <- Hname. apply list_elem_of_fmap_2.
      by eapply list_elem_of_lookup_2. }
    apply existsb_eqb_elem_of in Hin. rewrite Hin. cbv beta iota zeta.
    rewrite Efind', Hidx.
    destruct (appendMetric_ok n m v Hn) as (m' & -> & Hname' & Hok').
    { apply Hk; [by eapply list_elem_of_lookup_2 | done]. }
    simpl. exists (Row.Metric row), (<[i := m']> (Row.Metrics row)).
    split; [destruct row; reflexivity|].
    split; [split; [|done]|split].
    + rewrite list_fmap_insert, list_insert_id; [done|].
      rewrite list_lookup_fmap, Hi. simpl. congruence.
    + by apply Forall_insert.
    + intros m0 Hm0 Hne. apply list_elem_of_lookup in Hm0 as [j Hj].
      apply list_lookup_insert_Some in Hj as [(-> & -> & _)|[_ Hj]].
      * congruence.
      * by eapply list_elem_of_lookup_2.
  - pose proof Efind as Hnone. apply list_find_None in Hnone.
    assert (k ∉ Row.Metric row) as Hnotin.
    { rewrite <- Hnames. intros (m & -> & Hm)%list_elem_of_fmap.
      rewrite Forall_forall in Hnone. by apply (Hnone m). }
    destruct (existsb (String.eqb k) (Row.Metric row)) eqn:Eex.
    { by apply existsb_eqb_elem_of in Eex. }
    simpl Row.Metrics. rewrite Efind. simpl Row.CellIds. rewrite Hidx.
    destruct (appendMetric_ok n (Metric.Build k [] []) v Hn) as (m' & -> & Hname' & Hok').
    { exists (-1). split; [apply sparse_nil|lia]. }
    simpl. exists (Row.Metric row ++ [k]), (Row.Metrics row ++ [m']).
    split; [destruct row; reflexivity|].
    split; [split|split].
    + rewrite fmap_app. simpl. by rewrite Hnames, Hname'.
    + apply NoDup_app. split; [done|]. split; [|apply NoDup_singleton].
      intros x Hx ->%list_elem_of_singleton. done.
    + apply Forall_app. split; [done|]. by apply Forall_singleton.
    + intros m0 [Hm0| ->%list_elem_of_singleton]%elem_of_app Hne; [done|].
      simpl in Hname'. congruence.
Qed.

Lemma appendCellMetrics_spec (n : Z) (ms : list (string * float)) :
  forall row : Row.t,
    NoDup ms.*1 ->
    Z.of_nat (length (Row.CellIds row)) = n + 1 ->
    0 <= n < 2 ^ 31 - 1 ->
    names_ok (Row.Metric row) (Row.Metrics row) ->
    Forall (metric_ok (n + 1)) (Row.Metrics row) ->
    (forall m, m ∈ Row.Metrics row -> Metric.Name m ∈ ms.*1 -> metric_ok n m) ->
    exists names' ms',
      go_fold appendCellMetric row ms = Ok (Row.set_Metrics ms' (Row.set_Metric names' row)) /\
      names_ok names' ms' /\
      Forall (metric_ok (n + 1)) ms'.
Proof.
  induction ms as [|[k v] ms IH]; intros row Hnd Hcells Hn Hnames Hall Hold.
  - exists (Row.Metric row), (Row.Metrics row).
    split; [destruct row; reflexivity|done].
  - apply NoDup_cons in Hnd as [Hk Hnd].
    destruct (appendCellMetric_spec row k v n Hcells Hn Hnames Hall)
      as (names1 & ms1 & Hstep & Hnames1 & Hall1 & Hframe).
    { intros m Hm Hname. apply Hold; [done|]. rewrite <- Hname. simpl. left. }
    simpl go_fold. rewrite Hstep. simpl go_bind.
    destruct (IH (Row.set_Metrics ms1 (Row.set_Metric names1 row)))
      as (names2 & ms2 & Hfold & Hnames2 & Hall2); try done.
    { simpl. intros m Hm Hin. apply Hold.
      - apply Hframe; [done|]. intros Heq. apply Hk. by rewrite <- Heq.
      - simpl. by right. }
    exists names2, ms2. rewrite Hfold. done.
Qed.

(** What one turn of the loop of [appendCell] does to a row with [n] cells. *)
Lemma appendCellOnce_spec (c : cell.t) (row : Row.t) (n : Z) :
  cell.wf c = true ->
  Z.of_nat (length (Row.CellIds row)) = n ->
  n < 2 ^ 31 - 1 ->
  names_ok (Row.Metric row) (Row.Metrics row) ->
  Forall (metric_ok n) (Row.Metrics row) ->
  exists names' ms',
    appendCellOnce c row =
    Ok (Row.Build (Row.Name row) (Row.Id row) (Row.Results row)
          (Row.CellIds row ++ [cell.cellID c])
          (Row.Messages row ++
             (if cell.result c =? Row_NO_RESULT then [] else [cell.message c]))
          (Row.Icons row ++
             (if cell.result c =? Row_NO_RESULT then [] else [cell.icon c]))
          names' ms' (Row.AlertInfo row)) /\
    names_ok names' ms' /\
    Forall (metric_ok (n + 1)) ms'.
Proof.
  intros Hwf Hcells Hn Hnames Hall. unfold appendCellOnce.
  destruct (cell.result c =? Row_NO_RESULT).
  - exists (Row.Metric row), (Row.Metrics row).
    split; [by rewrite !app_nil_r|]. split; [done|].
    eapply Forall_impl; [done|]. intros m. apply metric_ok_mono. lia.
  - apply bool_decide_eq_true in Hwf.
    destruct (appendCellMetrics_spec n (cell.metrics c)
                (Row.set_CellIds (Row.CellIds row ++ [cell.cellID c]) row))
      as (names' & ms' & -> & Hnames' & Hall'); try done.
    + simpl. rewrite length_app. simpl. lia.
    + lia.
    + simpl. eapply Forall_impl; [done|]. intros m. apply metric_ok_mono. lia.
    + simpl. intros m Hm _. rewrite Forall_forall in Hall. by apply Hall.
    + exists names', ms'. done.
Qed.

(** The loop of [appendCell] as a whole. *)
Lemma appendCellLoop_spec (c : cell.t) (count : nat) :
  forall (row : Row.t) (n : Z),
    cell.wf c = true ->
    Z.of_nat (length (Row.CellIds row)) = n ->
    n + Z.of_nat count < 2 ^ 31 ->
    names_ok (Row.Metric row) (Row.Metrics row) ->
    Forall (metric_ok n) (Row.Metrics row) ->
    exists names' ms',
      go_iter count (appendCellOnce c) row =
      Ok (Row.Build (Row.Name row) (Row.Id row) (Row.Results row)
            (Row.CellIds row ++ replicate count (cell.cellID c))
            (Row.Messages row ++
               (if cell.result c =? Row_NO_RESULT then []
                else replicate count (cell.message c)))
            (Row.Icons row ++
               (if cell.result c =? Row_NO_RESULT then []
                else replicate count (cell.icon c)))
            names' ms' (Row.AlertInfo row)) /\
      names_ok names' ms' /\
      Forall (metric_ok (n + Z.of_nat count)) ms'.
Proof.
  induction count as [|count IH]; intros row n Hwf Hcells Hn Hnames Hall.
  - exists (Row.Metric row), (Row.Metrics row). simpl.
    split; [|by rewrite Z.add_0_r].
    destruct (cell.result c =? Row_NO_RESULT); rewrite !app_nil_r; by destruct row.
  - destruct (appendCellOnce_spec c row n) as (names1 & ms1 & Hstep & Hnames1 & Hall1);
      try done; [lia|].
    simpl go_iter. rewrite Hstep. simpl go_bind.
    match goal with |- context [go_iter count _ ?r] => set (row1 := r) end.
    destruct (IH row1 (n + 1)) as (names2 & ms2 & -> & Hnames2 & Hall2); try done.
    + subst row1. simpl. rewrite length_app. simpl. lia.
    + lia.
    + exists names2, ms2. subst row1. simpl.
      split; [|split; [done|]].
      * destruct (cell.result c =? Row_NO_RESULT); simpl;
          by rewrite <- ?app_assoc.
      * by replace (n + Z.of_nat (S count)) with (n + 1 + Z.of_nat count) by lia.
Qed.

(** ** Run-length encoded results

    [rle results decoded]: the stream is a sequence of [(code, length)] pairs
    with positive lengths, and [decoded] is what it stands for. *)

Lemma Iter_snoc (l : list Z) (code n : Z) :
  Nat.Even (length l) ->
  result.Iter (l ++ [code; n]) = result.Iter l ++ replicate (Z.to_nat n) code.
Proof.
  revert l. fix IH 1. intros [|a [|b l]] Hev; simpl.
  - by rewrite app_nil_r.
  - destruct Hev as [k Hk]. simpl in Hk. lia.
  - rewrite IH; [by rewrite app_assoc|].
    destruct Hev as [k Hk]. simpl in Hk. exists (k - 1)%nat. lia.
Qed.

Lemma rle_even (results decoded : list Z) :
  rle results decoded -> Nat.Even (length results).
Proof.
  induction 1 as [|results decoded code n _ [k Hk] Hn].
  - by exists 0%nat.
  - rewrite length_app. simpl. exists (k + 1)%nat. lia.
Qed.

Lemma rle_Iter (results decoded : list Z) :
  rle results decoded -> result.Iter results = decoded.
Proof.
  induction 1 as [|results decoded code n Hr IH Hn]; [done|].
  rewrite Iter_snoc by (by eapply rle_even). by rewrite IH.
Qed.

Lemma rle_inv_snoc (pre decoded : list Z) (code n : Z) :
  rle (pre ++ [code; n]) decoded ->
  exists d0, rle pre d0 /\ 1 <= n /\ decoded = d0 ++ replicate (Z.to_nat n) code.
Proof.
  inversion 1 as [Hnil | results d0 code' n' Hr Hn Heq].
  - by destruct pre.
  - apply app_inj_2 in Heq as [-> [= -> ->]]; [|done]. by exists d0.
Qed.

Lemma occupied_app (d1 d2 : list Z) : occupied (d1 ++ d2) = (occupied d1 + occupied d2)%nat.
Proof. induction d1 as [|r d1 IH]; simpl; [done|]. rewrite IH. lia. Qed.

Lemma occupied_replicate (n : nat) (r : Z) :
  occupied (replicate n r) = if r =? Row_NO_RESULT then 0%nat else n.
Proof.
  induction n as [|n IH]; simpl; [by destruct (r =? Row_NO_RESULT)|].
  rewrite IH. by destruct (r =? Row_NO_RESULT).
Qed.

Lemma occupied_le (d : list Z) : (occupied d <= length d)%nat.
Proof. induction d as [|r d IH]; simpl; [lia|]. destruct (r =? Row_NO_RESULT); lia. Qed.

(** The first part of [appendCell]: the new [row.Results]. *)
Lemma appendCell_results (results decoded : list Z) (latest count : Z) :
  rle results decoded ->
  1 <= count ->
  Z.of_nat (length decoded) + count < 2 ^ 31 ->
  exists results',
    (let n := Z.of_nat (length results) in
     if n =? 0 then Ok (results ++ [latest; wrap32 count])
     else
       last <~ index results (n - 2) ;;
       if negb (last =? latest) then Ok (results ++ [latest; wrap32 count])
       else
         len <~ index results (n - 1) ;;
         Ok (<[Z.to_nat (n - 1) := wrap32 (len + wrap32 count)]> results)) = Ok results' /\
    rle results' (decoded ++ replicate (Z.to_nat count) latest).
Proof.
  intros Hrle Hcount Hbound.
  assert (wrap32 count = count) as Hw by (apply wrap32_id; unfold int32_range; lia).
  rewrite Hw.
  inversion Hrle as [Hnil Hd | pre d0 code n Hpre Hn Heq Hd].
  - simpl. eexists. split; [reflexivity|].
    apply (rle_snoc [] [] latest count); [apply rle_nil|lia].
  - cbv zeta. rewrite length_app. simpl length.
    set (k := length pre).
    destruct (Z.eqb_spec (Z.of_nat (k + 2)) 0); [lia|].
    replace (Z.of_nat (k + 2) - 2) with (Z.of_nat k) by lia.
    replace (Z.of_nat (k + 2) - 1) with (Z.of_nat (k + 1)) by lia.
    rewrite (index_Ok _ k code) by (subst k; by rewrite lookup_app_r, Nat.sub_diag).
    simpl go_bind.
    destruct (Z.eqb_spec code latest) as [->|Hne]; simpl negb; cbv iota.
    + rewrite (index_Ok _ (k + 1) n).
      2:{ subst k. rewrite lookup_app_r by lia.
          by replace (length pre + 1 - length pre)%nat with 1%nat by lia. }
      simpl go_bind. eexists. split; [reflexivity|].
      rewrite Nat2Z.id. subst k. rewrite insert_app_r_alt by lia.
      replace (length pre + 1 - length pre)%nat with 1%nat by lia. simpl.
      assert (Z.of_nat (length decoded) = Z.of_nat (length d0) + n) as Hlen.
      { rewrite <- Hd, length_app, length_replicate. lia. }
      rewrite wrap32_id by (unfold int32_range; lia).
      rewrite <- app_assoc, <- replicate_add, <- Z2Nat.inj_add by lia.
      apply rle_snoc; [done|lia].
    + eexists. split; [reflexivity|].
      rewrite Heq, Hd. apply rle_snoc; [done|lia].
Qed.

(** ** The invariant of a row

    [rowInv decoded row]: the results of the row encode [decoded]; the row
    has one cell id per cell, one message and one icon per cell that holds a
    result, and well-formed metrics. *)
Lemma rowInv_new (name : string) : rowInv [] (Row.new name).
Proof.
  split; simpl; try done.
  - apply rle_nil.
  - split; [done|apply NoDup_nil_2].
Qed.

Lemma appendCell_inv (row : Row.t) (c : cell.t) (count : Z) (decoded : list Z) :
  rowInv decoded row ->
  cell.wf c = true ->
  1 <= count ->
  Z.of_nat (length decoded) + count < 2 ^ 31 ->
  exists row',
    appendCell row c count = Ok row' /\
    rowInv (decoded ++ replicate (Z.to_nat count) (cell.result c)) row' /\
    Row.Name row' = Row.Name row.
Proof.
  intros [Hres Hids Hmsg Hico Hnames Hmet] Hwf Hcount Hbound.
  destruct (appendCell_results _ _ (cell.result c) count Hres Hcount Hbound)
    as (results' & Hstep & Hrle).
  unfold appendCell. cbv zeta in Hstep |- *. rewrite Hstep. simpl go_bind.
  destruct (appendCellLoop_spec c (Z.to_nat count) (Row.set_Results results' row)
              (Z.of_nat (length decoded)))
    as (names' & ms' & -> & Hnames' & Hmet'); try done.
  - simpl. by rewrite Hids.
  - lia.
  - eexists. split; [reflexivity|]. split; [|done].
    split; simpl.
    + done.
    + rewrite !length_app, !length_replicate. lia.
    + rewrite length_app, occupied_app, occupied_replicate, Hmsg.
      destruct (cell.result c =? Row_NO_RESULT); simpl; [done|].
      by rewrite length_replicate.
    + rewrite length_app, occupied_app, occupied_replicate, Hico.
      destruct (cell.result c =? Row_NO_RESULT); simpl; [done|].
      by rewrite length_replicate.
    + done.
    + rewrite length_app, length_replicate.
      by replace (Z.of_nat (length decoded + Z.to_nat count))
        with (Z.of_nat (length decoded) + Z.of_nat (Z.to_nat count)) by lia.
Qed.

(** ** What a grid should hold

    [resultAt name col]: the result of the test [name] in the build of
    [col], [NO_RESULT] when the build did not run it. *)

Lemma lookupCell_None (name : string) (cells : list (string * cell.t)) :
  lookupCell name cells = None <-> name ∉ cells.*1.
Proof.
  induction cells as [|[k c] cells IH]; simpl.
  - split; [intros _; apply not_elem_of_nil|done].
  - rewrite not_elem_of_cons. destruct (String.eqb_spec k name) as [->|Hne].
    + split; [done|]. by intros [? _].
    + rewrite IH. split; [|by intros [_ ?]]. intros ?. split; [|done]. congruence.
Qed.

Lemma lookupCell_NoDup (name : string) (c : cell.t) (cells : list (string * cell.t)) :
  NoDup cells.*1 -> (name, c) ∈ cells -> lookupCell name cells = Some c.
Proof.
  induction cells as [|[k c'] cells IH]; simpl; intros Hnd Hin.
  - by apply elem_of_nil in Hin.
  - apply NoDup_cons in Hnd as [Hk Hnd].
    apply elem_of_cons in Hin as [[= <- <-]|Hin].
    + by rewrite String.eqb_refl.
    + destruct (String.eqb_spec k name) as [->|Hne]; [|by apply IH].
      exfalso. apply Hk. by apply (list_elem_of_fmap_2' fst _ (name, c)).
Qed.

Lemma rowsMap_inj (rows : gmap string nat) (Rows : list Row.t) (p q : nat) (r r' : Row.t) :
  rowsMap rows Rows ->
  Rows !! p = Some r -> Rows !! q = Some r' -> Row.Name r = Row.Name r' -> p = q.
Proof.
  intros Hmap Hp Hq Hname.
  assert (rows !! Row.Name r = Some p) as H1 by (apply Hmap; eauto).
  assert (rows !! Row.Name r = Some q) as H2 by (apply Hmap; eauto).
  congruence.
Qed.

Lemma rowsMap_update (rows : gmap string nat) (Rows : list Row.t) (p : nat) (r r' : Row.t) :
  rowsMap rows Rows ->
  Rows !! p = Some r -> Row.Name r' = Row.Name r ->
  rowsMap rows (<[p := r']> Rows).
Proof.
  intros Hmap Hp Hname name q. rewrite (Hmap name q). split.
  - intros (r0 & Hq & Hn). destruct (decide (p = q)) as [->|Hne].
    + exists r'. rewrite list_lookup_insert_eq by (by eapply lookup_lt_Some).
      split; [done|]. congruence.
    + exists r0. by rewrite list_lookup_insert_ne.
  - intros (r0 & Hq & Hn). destruct (decide (p = q)) as [->|Hne].
    + rewrite list_lookup_insert_eq in Hq by (by eapply lookup_lt_Some).
      exists r. split; [done|]. congruence.
    + rewrite list_lookup_insert_ne in Hq by done. eauto.
Qed.

Lemma rowsInv_update (done : list inflatedColumn.t) (col : inflatedColumn.t)
    (U : gset string) (rows : gmap string nat) (Rows : list Row.t)
    (p : nat) (r r' : Row.t) :
  rowsMap rows Rows ->
  rowsInv done col U Rows ->
  Rows !! p = Some r -> Row.Name r' = Row.Name r ->
  rowInv (resultAt (Row.Name r) <$> (done ++ [col])) r' ->
  rowsInv done col (U ∪ {[Row.Name r]}) (<[p := r']> Rows).
Proof.
  intros Hmap Hinv Hp Hname Hr' q r0 Hq.
  apply list_lookup_insert_Some in Hq as [(-> & -> & _)|[Hne Hq]].
  - rewrite Hname. rewrite decide_True by set_solver. done.
  - specialize (Hinv q r0 Hq).
    assert (Row.Name r0 <> Row.Name r) as Hdiff.
    { intros Heq. apply Hne. symmetry. eapply rowsMap_inj; eauto. }
    destruct (decide (Row.Name r0 ∈ U)).
    + by rewrite decide_True by set_solver.
    + by rewrite decide_False by (rewrite elem_of_union, elem_of_singleton; tauto).
Qed.

Lemma rowsMap_new (rows : gmap string nat) (Rows : list Row.t) (r : Row.t) :
  rowsMap rows Rows ->
  rows !! Row.Name r = None ->
  rowsMap (<[Row.Name r := length Rows]> rows) (Rows ++ [r]).
Proof.
  intros Hmap Hnone name q. split.
  - intros Hq. apply lookup_insert_Some in Hq as [[<- <-]|[Hne Hq]].
    + exists r. split; [|done]. by rewrite lookup_app_r, Nat.sub_diag.
    + apply Hmap in Hq as (r0 & Hq & Hn). exists r0.
      split; [|done]. by apply lookup_app_l_Some.
  - intros (r0 & Hq & Hn). apply lookup_app_Some in Hq as [Hq|[Hge Hq]].
    + assert (rows !! name = Some q) as Hrq by (apply Hmap; eauto).
      rewrite lookup_insert_ne; [done|]. intros Heq. congruence.
    + apply list_lookup_singleton_Some in Hq as [Hq ->].
      rewrite Hn. replace q with (length Rows) by lia. apply lookup_insert_eq.
Qed.

Lemma rowsInv_new (done : list inflatedColumn.t) (col : inflatedColumn.t)
    (U : gset string) (rows : gmap string nat) (Rows : list Row.t) (r : Row.t) :
  rowsMap rows Rows ->
  rowsInv done col U Rows ->
  rows !! Row.Name r = None ->
  rowInv (resultAt (Row.Name r) <$> (done ++ [col])) r ->
  rowsInv done col (U ∪ {[Row.Name r]}) (Rows ++ [r]).
Proof.
  intros Hmap Hinv Hnone Hr q r0 Hq.
  apply lookup_app_Some in Hq as [Hq|[Hge Hq]].
  - specialize (Hinv q r0 Hq).
    assert (Row.Name r0 <> Row.Name r) as Hdiff.
    { intros Heq. assert (rows !! Row.Name r0 = Some q) as Hrq by (apply Hmap; eauto).
      congruence. }
    destruct (decide (Row.Name r0 ∈ U)).
    + by rewrite decide_True by set_solver.
    + by rewrite decide_False by (rewrite elem_of_union, elem_of_singleton; tauto).
  - apply list_lookup_singleton_Some in Hq as [_ ->].
    by rewrite decide_True by set_solver.
Qed.

(** ** One column

    [colInv done col rows0 U st]: the state of [appendColumn] while it adds
    [col] after the columns [done], [rows0] being the index at its start and
    [U] the names of the rows it has extended so far. *)
Lemma resultAt_absent (name : string) (done : list inflatedColumn.t) :
  (forall d, d ∈ done -> lookupCell name (inflatedColumn.cells d) = None) ->
  resultAt name <$> done = replicate (length done) Row_NO_RESULT.
Proof.
  induction done as [|d done IH]; intros Habs; [done|].
  rewrite fmap_cons. simpl length. simpl replicate.
  rewrite IH by (intros d' Hd'; apply Habs; by right).
  unfold resultAt. rewrite (Habs d) by left. done.
Qed.

Lemma appendColumnCell_spec (done : list inflatedColumn.t) (col : inflatedColumn.t)
    (rows0 : gmap string nat) (U : gset string) (st : colState)
    (name : string) (c : cell.t) :
  colInv done col rows0 U st ->
  name ∉ U ->
  lookupCell name (inflatedColumn.cells col) = Some c ->
  cell.wf c = true ->
  Z.of_nat (length done) + 1 < 2 ^ 31 ->
  (forall name, rows0 !! name = None ->
     forall d, d ∈ done -> lookupCell name (inflatedColumn.cells d) = None) ->
  exists st',
    appendColumnCell st (name, c) = Ok st' /\
    colInv done col rows0 (U ∪ {[name]}) st'.
Proof.
  intros [Hcols Hmap Hrows Hmiss Hfresh Hkeep Hdom Horig] HU Hcell Hwf Hbound Habs.
  assert (resultAt name <$> (done ++ [col]) = (resultAt name <$> done) ++ [cell.result c])
    as Hnew by (rewrite fmap_app; simpl; unfold resultAt; by rewrite Hcell).
  assert (forall k, (if decide (k ∈ U ∪ {[name]}) then None
                     else rows0 !! k) = delete name (cs_missing st) !! k) as Hmiss'.
  { intros k. rewrite lookup_delete, Hmiss.
    destruct (decide (name = k)) as [->|Hne].
    - by rewrite decide_True by (rewrite elem_of_union, elem_of_singleton; tauto).
    - destruct (decide (k ∈ U)).
      + by rewrite decide_True by (rewrite elem_of_union, elem_of_singleton; tauto).
      + by rewrite decide_False
          by (rewrite elem_of_union, elem_of_singleton; intros [?|?]; congruence). }
  unfold appendColumnCell. simpl fst. simpl snd. cbv zeta.
  destruct (cs_rows st !! name) as [p|] eqn:Ep.
  - pose proof Ep as Hp. apply Hmap in Hp as (r & Hp & Hname).
    unfold load. rewrite Hp. simpl go_bind.
    pose proof (Hrows p r Hp) as Hr. rewrite Hname, decide_False in Hr by done.
    destruct (appendCell_inv r c 1 _ Hr Hwf) as (r' & -> & Hr' & Hname'); [lia| |].
    { rewrite length_fmap. lia. }
    simpl go_bind. eexists. split; [reflexivity|].
    simpl in Hr'. rewrite <- Hnew in Hr'. rewrite <- Hname in Hr'.
    split; simpl.
    + done.
    + by eapply rowsMap_update.
    + rewrite <- Hname. eapply rowsInv_update; eauto.
    + done.
    + done.
    + done.
    + intros k [Hk| ->%elem_of_singleton]%elem_of_union; [by apply Hdom|]. by rewrite Ep.
    + intros k q Hk. rewrite elem_of_union. destruct (Horig k q Hk); tauto.
  - pose proof (Hfresh name Ep) as Hnone.
    assert (resultAt name <$> done = replicate (length done) Row_NO_RESULT) as Hold
      by (apply resultAt_absent; by apply Habs).
    simpl Grid.Columns. rewrite Hcols, length_fmap, length_app. simpl length.
    assert (exists r1,
      (if 1 <? Z.of_nat (length done + 1)
       then appendCell (Row.new name) emptyCell (Z.of_nat (length done + 1) - 1)
       else Ok (Row.new name)) = Ok r1 /\
      rowInv (resultAt name <$> done) r1 /\ Row.Name r1 = name) as (r1 & -> & Hr1 & Hn1).
    { destruct (Z.ltb_spec 1 (Z.of_nat (length done + 1))) as [Hlt|Hge].
      - destruct (appendCell_inv (Row.new name) emptyCell
                    (Z.of_nat (length done + 1) - 1) [] (rowInv_new name))
          as (r1 & -> & Hr1 & Hn1); [done|lia|simpl; lia|].
        exists r1. split; [done|]. split; [|done].
        rewrite Hold. simpl in Hr1.
        by replace (Z.to_nat (Z.of_nat (length done + 1) - 1)) with (length done) in Hr1 by lia.
      - exists (Row.new name). split; [done|]. split; [|done].
        destruct done; [apply rowInv_new|simpl in Hge; lia]. }
    simpl go_bind.
    destruct (appendCell_inv r1 c 1 _ Hr1 Hwf) as (r' & -> & Hr' & Hname'); [lia| |].
    { rewrite length_fmap. lia. }
    simpl go_bind. eexists. split; [reflexivity|].
    simpl in Hr'. rewrite <- Hnew in Hr'.
    assert (Row.Name r' = name) as Hn' by congruence.
    assert (<[length (Grid.Rows (cs_grid st)) := r']> (Grid.Rows (cs_grid st) ++ [Row.new name])
            = Grid.Rows (cs_grid st) ++ [r']) as Hstore.
    { rewrite insert_app_r_alt by lia. by rewrite Nat.sub_diag. }
    split; simpl; rewrite ?Hstore.
    + done.
    + rewrite <- Hn'. apply rowsMap_new; [done|]. by rewrite Hn'.
    + rewrite <- Hn'. eapply rowsInv_new; eauto; rewrite Hn'; done.
    + done.
    + intros k Hk. apply lookup_insert_None in Hk as [Hk _]. by apply Hfresh.
    + intros k q Hk. rewrite lookup_insert_ne; [by apply Hkeep|].
      intros <-. congruence.
    + intros k [Hk| ->%elem_of_singleton]%elem_of_union.
      * destruct (decide (name = k)) as [->|Hne];
          [by rewrite lookup_insert_eq | rewrite lookup_insert_ne by done; by apply Hdom].
      * by rewrite lookup_insert_eq.
    + intros k q Hk. rewrite elem_of_union, elem_of_singleton.
      apply lookup_insert_Some in Hk as [[<- <-]|[Hne Hk]]; [tauto|].
      destruct (Horig k q Hk); tauto.
Qed.

Lemma appendColumnCells_spec (done : list inflatedColumn.t) (col : inflatedColumn.t)
    (rows0 : gmap string nat) (cells : list (string * cell.t)) :
  forall (U : gset string) (st : colState),
    colInv done col rows0 U st ->
    NoDup cells.*1 ->
    (forall name, name ∈ cells.*1 -> name ∉ U) ->
    (forall nc, nc ∈ cells ->
       lookupCell nc.1 (inflatedColumn.cells col) = Some nc.2 /\ cell.wf nc.2 = true) ->
    Z.of_nat (length done) + 1 < 2 ^ 31 ->
    (forall name, rows0 !! name = None ->
       forall d, d ∈ done -> lookupCell name (inflatedColumn.cells d) = None) ->
    exists st',
      go_fold appendColumnCell st cells = Ok st' /\
      colInv done col rows0 (U ∪ list_to_set cells.*1) st'.
Proof.
  induction cells as [|[name c] cells IH]; intros U st Hinv Hnd HU Hcells Hbound Habs.
  - exists st. split; [done|]. simpl. by rewrite (right_id_L ∅ (∪)).
  - apply NoDup_cons in Hnd as [Hname Hnd].
    destruct (Hcells (name, c)) as [Hcell Hwf]; [left|].
    destruct (appendColumnCell_spec done col rows0 U st name c)
      as (st1 & Hstep & Hinv1); try done.
    { apply HU. left. }
    simpl go_fold. rewrite Hstep. simpl go_bind.
    destruct (IH (U ∪ {[name]}) st1) as (st' & Hfold & Hinv'); try done.
    + intros k Hk. rewrite elem_of_union, elem_of_singleton.
      intros [Hin| ->]; [|done]. apply (HU k); [by right|done].
    + intros nc Hnc. apply Hcells. by right.
    + exists st'. split; [done|].
      simpl. by rewrite (assoc_L (∪)).
Qed.

Lemma appendMissing_spec (done : list inflatedColumn.t) (col : inflatedColumn.t)
    (rows : gmap string nat) (missing : list (string * nat)) :
  forall (U : gset string) (grid : Grid.t),
    rowsMap rows (Grid.Rows grid) ->
    rowsInv done col U (Grid.Rows grid) ->
    NoDup missing.*1 ->
    (forall name p, (name, p) ∈ missing ->
       (name ∉ U) /\ rows !! name = Some p /\
       lookupCell name (inflatedColumn.cells col) = None) ->
    Z.of_nat (length done) + 1 < 2 ^ 31 ->
    exists grid',
      go_fold appendMissing grid missing = Ok grid' /\
      Grid.Columns grid' = Grid.Columns grid /\
      rowsMap rows (Grid.Rows grid') /\
      rowsInv done col (U ∪ list_to_set missing.*1) (Grid.Rows grid').
Proof.
  induction missing as [|[name p] missing IH]; intros U grid Hmap Hrows Hnd Hmiss Hbound.
  - exists grid. split; [done|]. split; [done|]. split; [done|].
    simpl. by rewrite (right_id_L ∅ (∪)).
  - apply NoDup_cons in Hnd as [Hname Hnd].
    destruct (Hmiss name p) as (HU & Hp & Hcell); [left|].
    apply Hmap in Hp as (r & Hp & Hn).
    pose proof (Hrows p r Hp) as Hr. rewrite Hn, decide_False in Hr by done.
    destruct (appendCell_inv r emptyCell 1 _ Hr) as (r' & Hstep & Hr' & Hn'); [done|lia| |].
    { rewrite length_fmap. lia. }
    simpl go_fold. unfold appendMissing at 1. simpl snd.
    unfold load. rewrite Hp. simpl go_bind. rewrite Hstep. simpl go_bind.
    assert (resultAt name <$> (done ++ [col]) =
            (resultAt name <$> done) ++ replicate (Z.to_nat 1) (cell.result emptyCell))
      as Hnew by (rewrite fmap_app; simpl; unfold resultAt; by rewrite Hcell).
    rewrite <- Hnew, <- Hn in Hr'.
    destruct (IH (U ∪ {[name]}) (store grid p r')) as (grid' & Hfold & Hcols & Hmap' & Hrows').
    + simpl. by eapply rowsMap_update.
    + simpl. rewrite <- Hn. eapply rowsInv_update; eauto.
    + done.
    + intros k q Hk. destruct (Hmiss k q) as (HkU & Hkq & Hkc); [by right|].
      split; [|done]. rewrite elem_of_union, elem_of_singleton.
      intros [Hin| ->]; [done|]. apply Hname.
      by apply (list_elem_of_fmap_2' fst _ (name, q)).
    + done.
    + exists grid'. split; [done|]. split; [done|]. split; [done|].
      simpl. by rewrite (assoc_L (∪)).
Qed.

(** ** The fold over the columns

    [gridInv done grid rows]: the grid and its index after the columns
    [done]: one header per column; every row holds, cell by cell, the
    results of its test in those columns; every test met so far has a row. *)
Lemma gridInv_empty : gridInv [] Grid.empty ∅.
Proof.
  split; simpl; try done.
  - intros name p. rewrite lookup_empty. split; [done|]. by intros (r & Hr & _).
  - intros name _ d Hd. by apply elem_of_nil in Hd.
Qed.

Lemma inflatedColumn_wf_inv (col : inflatedColumn.t) :
  inflatedColumn.wf col = true ->
  NoDup (inflatedColumn.cells col).*1 /\
  forall nc, nc ∈ inflatedColumn.cells col -> cell.wf nc.2 = true.
Proof.
  unfold inflatedColumn.wf. intros [Hnd Hall]%andb_true_iff.
  apply bool_decide_eq_true in Hnd. split; [done|].
  intros nc Hnc. rewrite forallb_forall in Hall. apply Hall. by apply list_elem_of_In.
Qed.

Lemma appendColumn_spec (done : list inflatedColumn.t) (grid : Grid.t)
    (rows : gmap string nat) (col : inflatedColumn.t) :
  gridInv done grid rows ->
  inflatedColumn.wf col = true ->
  Z.of_nat (length done) + 1 < 2 ^ 31 ->
  exists grid' rows',
    appendColumn grid rows col = Ok (grid', rows') /\
    gridInv (done ++ [col]) grid' rows'.
Proof.
  intros [Hcols Hmap Hrows Habs] Hwf Hbound.
  apply inflatedColumn_wf_inv in Hwf as [Hnd Hwf].
  unfold appendColumn. cbv zeta.
  match goal with |- context [go_fold appendColumnCell ?s _] => set (st0 := s) end.
  assert (colInv done col rows ∅ st0) as Hinv0.
  { split; subst st0; simpl.
    - by rewrite Hcols, fmap_app.
    - done.
    - intros p r Hp. rewrite decide_False by apply not_elem_of_empty. by apply (Hrows p).
    - intros name. by rewrite decide_False by apply not_elem_of_empty.
    - done.
    - done.
    - intros name Hin. by apply not_elem_of_empty in Hin.
    - intros name p Hp. by right. }
  destruct (appendColumnCells_spec done col rows (inflatedColumn.cells col) ∅ st0)
    as (st1 & -> & Hinv1);
    [exact Hinv0 | exact Hnd | intros name _; apply not_elem_of_empty | | exact Hbound
     | exact Habs |].
  { intros [name c] Hnc. split; [by apply lookupCell_NoDup | by apply (Hwf (name, c))]. }
  simpl go_bind.
  rewrite (left_id_L ∅ (∪)) in Hinv1.
  destruct Hinv1 as [Hcols1 Hmap1 Hrows1 Hmiss1 Hfresh1 Hkeep1 Hdom1 Horig1].
  destruct (appendMissing_spec done col (cs_rows st1) (map_to_list (cs_missing st1))
              (list_to_set (inflatedColumn.cells col).*1) (cs_grid st1))
    as (grid' & -> & Hcols' & Hmap' & Hrows');
    [exact Hmap1 | exact Hrows1 | apply NoDup_fst_map_to_list | | exact Hbound |].
  { intros name p Hin. apply elem_of_map_to_list in Hin.
    rewrite Hmiss1 in Hin.
    destruct (decide (name ∈ (list_to_set (inflatedColumn.cells col).*1 : gset string)))
      as [?|Hnot]; [done|].
    split; [done|]. split; [by apply Hkeep1|].
    apply lookupCell_None. by rewrite elem_of_list_to_set in Hnot. }
  simpl go_bind. exists grid', (cs_rows st1). split; [done|].
  split.
  - by rewrite Hcols'.
  - done.
  - intros p r Hp. specialize (Hrows' p r Hp).
    rewrite decide_True in Hrows'; [done|].
    assert (cs_rows st1 !! Row.Name r = Some p) as Hrp by (apply Hmap'; eauto).
    rewrite elem_of_union.
    destruct (Horig1 _ _ Hrp) as [Hin|Hin]; [by left|].
    destruct (decide (Row.Name r ∈ (list_to_set (inflatedColumn.cells col).*1 : gset string)))
      as [?|Hnot]; [by left|right].
    rewrite elem_of_list_to_set.
    apply (list_elem_of_fmap_2' fst _ (Row.Name r, p)); [|done].
    apply elem_of_map_to_list. rewrite Hmiss1. by rewrite decide_False.
  - intros name Hnone d [Hd| ->%list_elem_of_singleton]%elem_of_app.
    + apply (Habs name); [by apply Hfresh1|done].
    + apply lookupCell_None. intros Hin.
      destruct (Hdom1 name) as [p Hp]; [by rewrite elem_of_list_to_set|]. congruence.
Qed.

(** ** The alert walk does not run past the side arrays *)

Lemma occupied_recv (s : list Z) :
  occupied s =
  ((if Z.eqb (result.recv s).1 Row_NO_RESULT then 0 else 1) + occupied (result.recv s).2)%nat.
Proof. by destruct s as [|r s]. Qed.

Lemma alertStep_walkInv (N fto ptc : Z) (st : alertState) (col : option Column.t) :
  walkInv N st ->
  match alertStep fto ptc st col with
  | Next st' | Break st' => walkInv N st'
  | ReturnNil => True
  end.
Proof.
  intros [Hf Hi Hn Hs].
  pose proof (occupied_recv (ch st)) as Hocc.
  destruct st as [f tf p ci s lf lp fi]; simpl in *.
  unfold alertStep; simpl.
  set (raw := (result.recv s).1) in *.
  set (s' := (result.recv s).2) in *.
  assert (occupied s' <= occupied s)%nat as Hle
    by (destruct (raw =? Row_NO_RESULT); lia).
  assert (raw <> Row_NO_RESULT -> occupied s = (1 + occupied s')%nat) as Hpos
    by (destruct (Z.eqb_spec raw Row_NO_RESULT); [done|lia]).
  clear Hocc.
  unfold result.Coalesce, result.IgnoreRunning.
  destruct (Z.eqb_spec raw Row_RUNNING) as [Hrun|Hrun]; simpl.
  { specialize (Hpos ltac:(by rewrite Hrun)). split; simpl; lia. }
  destruct (Z.eqb_spec raw Row_NO_RESULT) as [Hno|Hno].
  { split; simpl; lia. }
  specialize (Hpos Hno).
  destruct (Z.eqb_spec raw Row_PASS) as [Hpass|Hpass].
  { destruct (Z.leb_spec fto f); [split; simpl; lia|].
    destruct (Z.leb_spec ptc (p + 1)); [done|]. split; simpl; lia. }
  destruct (Z.eqb_spec raw Row_FAIL) as [Hfail|Hfail].
  { split; simpl; try lia; destruct (Z.eqb_spec (f + 1) 1); lia. }
  destruct (Z.eqb_spec raw Row_FLAKY) as [Hflaky|Hflaky].
  { destruct (Z.leb_spec fto f); split; simpl; lia. }
  split; simpl; lia.
Qed.

Lemma alertLoop_walkInv (N fto ptc : Z) (cols : list (option Column.t)) :
  forall st st', walkInv N st -> alertLoop fto ptc cols st = Some st' -> walkInv N st'.
Proof.
  induction cols as [|col cols IH]; intros st st' Hinv; simpl.
  - by intros [= <-].
  - pose proof (alertStep_walkInv N fto ptc st col Hinv) as Hstep.
    destruct (alertStep fto ptc st col) as [st1|st1|]; [by apply IH| |done].
    by intros [= <-].
Qed.

(** With a positive threshold, [alertRow] returns on every row whose side
    arrays are as long as its results say. *)
Lemma alertRow_returns (cols : list (option Column.t)) (row : Row.t) (fto ptc : Z) :
  0 <= fto ->
  length (Row.Messages row) = occupied (result.Iter (Row.Results row)) ->
  (occupied (result.Iter (Row.Results row)) <= length (Row.CellIds row))%nat ->
  exists info, alertRow cols row fto ptc = Ok info.
Proof.
  intros Hfto Hmsg Hids. unfold alertRow.
  destruct (Z.eqb_spec fto 0); [by eexists|].
  destruct (alertLoop fto ptc cols (alertInit row)) as [st|] eqn:Eloop; [|by eexists].
  destruct (Z.ltb_spec (failures st) fto); [by eexists|].
  assert (walkInv (Z.of_nat (occupied (result.Iter (Row.Results row)))) (alertInit row)) as H0
    by (split; simpl; lia).
  destruct (alertLoop_walkInv _ _ _ _ _ _ H0 Eloop) as [Hf Hi Hn Hs].
  destruct (index_lt (Row.Messages row) (failIdx st)) as (msg & -> & _); [lia|].
  destruct (index_lt (Row.CellIds row) (failIdx st)) as (id & -> & _); [lia|].
  by eexists.
Qed.

Lemma rowInv_set_AlertInfo (decoded : list Z) (info : option AlertInfo.t) (row : Row.t) :
  rowInv decoded row -> rowInv decoded (Row.set_AlertInfo info row).
Proof. by intros []. Qed.

Lemma rowInv_alertRow (decoded : list Z) (cols : list (option Column.t))
    (row : Row.t) (fto ptc : Z) :
  0 <= fto -> rowInv decoded row -> exists info, alertRow cols row fto ptc = Ok info.
Proof.
  intros Hfto [Hres Hids Hmsg _ _ _]. apply rle_Iter in Hres.
  apply alertRow_returns; [done|by rewrite Hres|].
  rewrite Hres, Hids. apply occupied_le.
Qed.

(** What [alertRows] returns: the same rows, each with its alert. *)
Lemma alertRows_inv (cols : list (option Column.t)) (fto ptc : Z) (rows rows' : list Row.t) :
  alertRows cols rows fto ptc = Ok rows' ->
  Forall2 (fun r r' => exists info, alertRow cols r fto ptc = Ok info /\
                                    r' = Row.set_AlertInfo info r) rows rows'.
Proof.
  revert rows'. induction rows as [|r rows IH]; intros rows'; simpl.
  - intros [= <-]. constructor.
  - destruct (alertRow cols r fto ptc) as [info|] eqn:Einfo; [|done]. simpl.
    destruct (alertRows cols rows fto ptc) as [rest|]; [|done]. simpl.
    intros [= <-]. constructor; [by exists info|by apply IH].
Qed.

Lemma alertRows_returns (cols : list (option Column.t)) (fto ptc : Z) (rows : list Row.t) :
  Forall (fun r => exists info, alertRow cols r fto ptc = Ok info) rows ->
  exists rows', alertRows cols rows fto ptc = Ok rows'.
Proof.
  induction 1 as [|r rows [info Hinfo] _ [rest Hrest]]; simpl; [by eexists|].
  rewrite Hinfo, Hrest. by eexists.
Qed.

(** ** The grid after every column *)

Lemma gridInv_alertRows (done : list inflatedColumn.t) (grid : Grid.t)
    (rows : gmap string nat) (fto ptc : Z) (rs : list Row.t) :
  gridInv done grid rows ->
  alertRows (Grid.Columns grid) (Grid.Rows grid) fto ptc = Ok rs ->
  gridInv done (Grid.Build (Grid.Columns grid) rs) rows.
Proof.
  intros [Hcols Hmap Hrows Habs] Hrs. apply alertRows_inv in Hrs.
  assert (forall p r', rs !! p = Some r' ->
            exists r info, Grid.Rows grid !! p = Some r /\ r' = Row.set_AlertInfo info r) as Hback.
  { intros p r' Hp. destruct (Forall2_lookup_r _ _ _ _ _ Hrs Hp) as (r & Hr & info & _ & ->).
    by exists r, info. }
  assert (forall p r, Grid.Rows grid !! p = Some r ->
            exists info, rs !! p = Some (Row.set_AlertInfo info r)) as Hforth.
  { intros p r Hp. destruct (Forall2_lookup_l _ _ _ _ _ Hrs Hp) as (r' & Hr' & info & _ & ->).
    by exists info. }
  split; simpl; [done| | |done].
  - intros name p. rewrite (Hmap name p). split.
    + intros (r & Hp & Hn). destruct (Hforth p r Hp) as [info Hinfo].
      by exists (Row.set_AlertInfo info r).
    + intros (r' & Hp & Hn). destruct (Hback p r' Hp) as (r & info & Hr & ->).
      by exists r.
  - intros p r' Hp. destruct (Hback p r' Hp) as (r & info & Hr & ->).
    apply (rowInv_set_AlertInfo (resultAt (Row.Name r) <$> done)). by apply (Hrows p).
Qed.

Lemma constructStep_inv (done : list inflatedColumn.t) (grid : Grid.t)
    (rows : gmap string nat) (col : inflatedColumn.t) (fto ptc : Z) :
  gridInv done grid rows ->
  inflatedColumn.wf col = true ->
  Z.of_nat (length done) + 1 < 2 ^ 31 ->
  (forall st', constructStep fto ptc (grid, rows) col = Ok st' ->
               gridInv (done ++ [col]) st'.1 st'.2) /\
  (0 <= fto -> exists st', constructStep fto ptc (grid, rows) col = Ok st').
Proof.
  intros Hinv Hwf Hbound.
  destruct (appendColumn_spec done grid rows col Hinv Hwf Hbound)
    as (grid1 & rows1 & Happ & Hinv1).
  unfold constructStep. simpl fst. simpl snd. rewrite Happ. simpl go_bind. split.
  - intros st'.
    destruct (alertRows (Grid.Columns grid1) (Grid.Rows grid1) fto ptc) as [rs|] eqn:Ers;
      [|done].
    simpl. intros [= <-]. simpl. by eapply gridInv_alertRows.
  - intros Hfto.
    destruct (alertRows_returns (Grid.Columns grid1) fto ptc (Grid.Rows grid1)) as [rs ->];
      [|by eexists].
    apply Forall_lookup. intros p r Hp.
    eapply rowInv_alertRow; [done|]. by apply (gi_rows _ _ _ Hinv1 p).
Qed.

Lemma constructFold_inv (fto ptc : Z) (cols : list inflatedColumn.t) :
  forall (done : list inflatedColumn.t) (grid : Grid.t) (rows : gmap string nat),
    gridInv done grid rows ->
    forallb inflatedColumn.wf cols = true ->
    Z.of_nat (length done) + Z.of_nat (length cols) < 2 ^ 31 ->
    (forall st', go_fold (constructStep fto ptc) (grid, rows) cols = Ok st' ->
                 gridInv (done ++ cols) st'.1 st'.2) /\
    (0 <= fto -> exists st', go_fold (constructStep fto ptc) (grid, rows) cols = Ok st').
Proof.
  induction cols as [|col cols IH]; intros done grid rows Hinv Hwf Hbound.
  - simpl. split; [|by eexists]. intros st' [= <-]. by rewrite app_nil_r.
  - simpl in Hwf. apply andb_true_iff in Hwf as [Hwf Hwfs].
    simpl length in Hbound.
    destruct (constructStep_inv done grid rows col fto ptc Hinv Hwf) as [Hstep Hret]; [lia|].
    simpl go_fold. split.
    + intros st'. destruct (constructStep fto ptc (grid, rows) col) as [[g1 r1]|]; [|done].
      simpl go_bind. intros Hfold.
      destruct (IH (done ++ [col]) g1 r1) as [Hall _]; [by apply (Hstep (g1, r1))|done| |].
      { rewrite length_app. simpl. lia. }
      rewrite <- app_assoc in Hall. by apply Hall.
    + intros Hfto. destruct (Hret Hfto) as [[g1 r1] Heq]. rewrite Heq. simpl go_bind.
      destruct (IH (done ++ [col]) g1 r1) as [_ Hall]; [|done| |by apply Hall].
      * apply (Hstep (g1, r1)). done.
      * rewrite length_app. simpl. lia.
Qed.

(** Stable insertion permutes. *)
Lemma insertStable_perm {A : Type} (less : A -> A -> bool) (x : A) (l : list A) :
  insertStable less x l ≡ₚ x :: l.
Proof.
  induction l as [|y l IH]; simpl; [done|].
  destruct (less y x); [|done]. rewrite IH. apply Permutation_swap.
Qed.

Lemma SliceStable_perm {A : Type} (less : A -> A -> bool) (l : list A) :
  SliceStable less l ≡ₚ l.
Proof.
  induction l as [|x l IH]; simpl; [done|].
  unfold SliceStable in *. simpl. rewrite insertStable_perm. by constructor.
Qed.

Lemma rle_runSum (results decoded : list Z) :
  rle results decoded -> runSum results = Z.of_nat (length decoded).
Proof.
  induction 1 as [|results decoded code n Hr IH Hn]; [done|].
  rewrite runSum_snoc by (by eapply rle_even).
  rewrite length_app, length_replicate. lia.
Qed.

Section GridProperties.
Variable NaturalLess : string -> string -> bool.

Lemma sortGrid_rows (grid : Grid.t) (row : Row.t) :
  row ∈ Grid.Rows (sortGrid NaturalLess grid) ->
  exists r0, r0 ∈ Grid.Rows grid /\ row = sortRow NaturalLess r0.
Proof.
  simpl. intros (r0 & -> & Hr0)%list_elem_of_fmap.
  exists r0. split; [|done]. by rewrite SliceStable_perm in Hr0.
Qed.

(** What [constructGrid] returns is the sorted form of a grid that holds,
    row by row, the cells of the columns; it returns whenever the alert
    threshold is not negative. *)
Lemma constructGrid_inv (group : TestGroup.t) (cols : list inflatedColumn.t) :
  forallb inflatedColumn.wf cols = true ->
  Z.of_nat (length cols) < 2 ^ 31 ->
  (forall g, constructGrid NaturalLess group cols = Ok g ->
     exists grid0 rows0, gridInv cols grid0 rows0 /\ g = sortGrid NaturalLess grid0) /\
  (0 <= TestGroup.NumFailuresToAlert group ->
   exists g, constructGrid NaturalLess group cols = Ok g).
Proof.
  intros Hwf Hbound.
  destruct (constructFold_inv (failsOpenOf group) (passesCloseOf group) cols
              [] Grid.empty ∅ gridInv_empty Hwf) as [Hinv Hret]; [simpl; lia|].
  unfold constructGrid. split.
  - intros g.
    destruct (go_fold _ _ cols) as [[grid0 rows0]|]; [|done].
    simpl. intros [= <-]. exists grid0, rows0. split; [|done].
    by apply (Hinv (grid0, rows0)).
  - intros Hfto. destruct (Hret Hfto) as [st ->]. by eexists.
Qed.

(** C2. On columns with distinct keys, fewer than [2^31] of them,
    [constructGrid] returns whenever the alert threshold is not negative,
    and in every grid it returns there is one header per column and every
    row's results decode, column by column, to the result of the row's
    test in that column, [NO_RESULT] where the column does not have it (so
    a row created late is filled back, and a row missing from a column
    gets one empty cell); hence the decoded stream and the sum of the run
    lengths both equal the number of columns. *)
Theorem constructGrid_results (group : TestGroup.t) (cols : list inflatedColumn.t) :
  forallb inflatedColumn.wf cols = true ->
  Z.of_nat (length cols) < 2 ^ 31 ->
  (0 <= TestGroup.NumFailuresToAlert group ->
   exists g, constructGrid NaturalLess group cols = Ok g) /\
  forall g, constructGrid NaturalLess group cols = Ok g ->
    Grid.Columns g = inflatedColumn.column <$> cols /\
    forall row, row ∈ Grid.Rows g ->
      result.Iter (Row.Results row) = resultAt (Row.Name row) <$> cols /\
      length (result.Iter (Row.Results row)) = length (Grid.Columns g) /\
      runSum (Row.Results row) = Z.of_nat (length (Grid.Columns g)).
Proof.
  intros Hwf Hbound.
  destruct (constructGrid_inv group cols Hwf Hbound) as [Hinv Hret].
  split; [done|]. intros g Hg.
  destruct (Hinv g Hg) as (grid0 & rows0 & [Hcols Hmap Hrows Habs] & ->).
  split; [done|]. intros row Hrow.
  apply sortGrid_rows in Hrow as (r0 & Hr0 & ->).
  apply list_elem_of_lookup in Hr0 as [p Hp].
  destruct (Hrows p r0 Hp) as [Hres _ _ _ _ _]. simpl.
  rewrite Hcols, (rle_Iter _ _ Hres), (rle_runSum _ _ Hres), !length_fmap. done.
Qed.

(** C1, as amended.  Under the same conditions, every row of a returned
    grid has one cell id per column, and as many messages as icons: one
    for each cell of the row that holds a result, the [NO_RESULT] cells
    being skipped; so at most one per column. *)
Theorem constructGrid_side_arrays (group : TestGroup.t) (cols : list inflatedColumn.t) :
  forallb inflatedColumn.wf cols = true ->
  Z.of_nat (length cols) < 2 ^ 31 ->
  (0 <= TestGroup.NumFailuresToAlert group ->
   exists g, constructGrid NaturalLess group cols = Ok g) /\
  forall g, constructGrid NaturalLess group cols = Ok g ->
    forall row, row ∈ Grid.Rows g ->
      length (Row.CellIds row) = length (Grid.Columns g) /\
      length (Row.Messages row) = occupied (resultAt (Row.Name row) <$> cols) /\
      length (Row.Icons row) = occupied (resultAt (Row.Name row) <$> cols) /\
      (length (Row.Messages row) <= length (Grid.Columns g))%nat.
Proof.
  intros Hwf Hbound.
  destruct (constructGrid_inv group cols Hwf Hbound) as [Hinv Hret].
  split; [done|]. intros g Hg.
  destruct (Hinv g Hg) as (grid0 & rows0 & [Hcols Hmap Hrows Habs] & ->).
  intros row Hrow.
  apply sortGrid_rows in Hrow as (r0 & Hr0 & ->).
  apply list_elem_of_lookup in Hr0 as [p Hp].
  destruct (Hrows p r0 Hp) as [_ Hids Hmsg Hico _ _]. simpl.
  rewrite Hcols, Hids, Hmsg, Hico, !length_fmap.
  split; [done|]. split; [done|]. split; [done|].
  etrans; [apply occupied_le|]. by rewrite length_fmap.
Qed.
End GridProperties.

(** ** Two builds, a test that appears only in the newer one *)

Example constructGrid_example :
  constructGrid sortorder.NaturalLess example_group example_columns = Ok example_grid.
Proof. vm_compute. reflexivity. Qed.

Lemma constructGrid_results_witness :
  (0 <= TestGroup.NumFailuresToAlert example_group ->
   exists g, constructGrid sortorder.NaturalLess example_group example_columns = Ok g) /\
  forall g, constructGrid sortorder.NaturalLess example_group example_columns = Ok g ->
    Grid.Columns g = inflatedColumn.column <$> example_columns /\
    forall row, row ∈ Grid.Rows g ->
      result.Iter (Row.Results row) = resultAt (Row.Name row) <$> example_columns /\
      length (result.Iter (Row.Results row)) = length (Grid.Columns g) /\
      runSum (Row.Results row) = Z.of_nat (length (Grid.Columns g)).
Proof.
  apply (constructGrid_results sortorder.NaturalLess example_group example_columns);
    [vm_compute; reflexivity | simpl; lia].
Defined.

Lemma constructGrid_side_arrays_witness :
  (0 <= TestGroup.NumFailuresToAlert example_group ->
   exists g, constructGrid sortorder.NaturalLess example_group example_columns = Ok g) /\
  forall g, constructGrid sortorder.NaturalLess example_group example_columns = Ok g ->
    forall row, row ∈ Grid.Rows g ->
      length (Row.CellIds row) = length (Grid.Columns g) /\
      length (Row.Messages row) = occupied (resultAt (Row.Name row) <$> example_columns) /\
      length (Row.Icons row) = occupied (resultAt (Row.Name row) <$> example_columns) /\
      (length (Row.Messages row) <= length (Grid.Columns g))%nat.
Proof.
  apply (constructGrid_side_arrays sortorder.NaturalLess example_group example_columns);
    [vm_compute; reflexivity | simpl; lia].
Defined.

(** The claim C1 as the specification states it fails on this grid: the
    row of the test that the older build did not run has two cell ids, for
    two columns, but one message and one icon. *)
Lemma constructGrid_side_arrays_counterexample :
  exists g row,
    constructGrid sortorder.NaturalLess example_group example_columns = Ok g /\
    row ∈ Grid.Rows g /\
    ~ (length (Row.CellIds row) = length (Row.Messages row) /\
       length (Row.Messages row) = length (Row.Icons row) /\
       length (Row.Icons row) = length (Grid.Columns g)).
Proof.
  exists example_grid,
    (Row.Build "t2" "t2" [12; 1; 0; 1] ["b2"; ""] ["boom"] [""] [] [] None).
  split; [vm_compute; reflexivity|].
  split; [right; left|].
  simpl. intros (H & _). discriminate H.
Qed.

(** ** Alerts are overwritten, never read

    Nothing but [alertRows] touches [AlertInfo], and [alertRow] does not
    read it: clearing the alerts of a grid commutes with appending a
    column. *)

Lemma go_fold_map {S B : Type} (phi : S -> S) (f : S -> B -> go S) (l : list B) :
  (forall s b, f (phi s) b = go_map phi (f s b)) ->
  forall s, go_fold f (phi s) l = go_map phi (go_fold f s l).
Proof.
  intros Hf. induction l as [|b l IH]; intros s; simpl; [done|].
  rewrite Hf. unfold go_map. destruct (f s b) as [s'|]; simpl; [|done].
  by rewrite IH.
Qed.

Lemma go_iter_map {S : Type} (phi : S -> S) (f : S -> go S) (n : nat) :
  (forall s, f (phi s) = go_map phi (f s)) ->
  forall s, go_iter n f (phi s) = go_map phi (go_iter n f s).
Proof.
  intros Hf. induction n as [|n IH]; intros s; simpl; [done|].
  rewrite Hf. unfold go_map. destruct (f s) as [s'|]; simpl; [|done].
  by rewrite IH.
Qed.

Arguments appendMetric : simpl never.
Arguments appendCell : simpl never.

Lemma appendCellMetric_clear (r : Row.t) (m : string * float) :
  appendCellMetric (clearRow r) m = go_map clearRow (appendCellMetric r m).
Proof.
  unfold appendCellMetric, go_map. destruct r as [n i rs cs ms ic mn mt a]. simpl.
  destruct (existsb (String.eqb m.1) mn); simpl;
    destruct (list_find _ mt) as [[j metric]|]; simpl;
    try match goal with
        | |- context [appendMetric ?x ?i ?v] => destruct (appendMetric x i v)
        end; done.
Qed.

Lemma appendCellOnce_clear (c : cell.t) (r : Row.t) :
  appendCellOnce c (clearRow r) = go_map clearRow (appendCellOnce c r).
Proof.
  unfold appendCellOnce.
  change (Row.set_CellIds (Row.CellIds (clearRow r) ++ [cell.cellID c]) (clearRow r))
    with (clearRow (Row.set_CellIds (Row.CellIds r ++ [cell.cellID c]) r)).
  destruct (cell.result c =? Row_NO_RESULT); [done|].
  rewrite (go_fold_map clearRow appendCellMetric _ appendCellMetric_clear).
  unfold go_map. by destruct (go_fold appendCellMetric _ _).
Qed.

Lemma appendCell_clear (r : Row.t) (c : cell.t) (count : Z) :
  appendCell (clearRow r) c count = go_map clearRow (appendCell r c count).
Proof.
  unfold appendCell. cbv zeta. simpl Row.Results.
  match goal with |- context [go_bind ?m _] => destruct m as [results|] end; [|done].
  simpl go_bind.
  change (Row.set_Results results (clearRow r)) with (clearRow (Row.set_Results results r)).
  apply (go_iter_map clearRow (appendCellOnce c)). apply appendCellOnce_clear.
Qed.

Lemma load_clear (g : Grid.t) (p : nat) :
  load (clearGrid g) p = go_map clearRow (load g p).
Proof.
  unfold load, go_map. simpl. rewrite list_lookup_fmap.
  by destruct (Grid.Rows g !! p).
Qed.

Lemma store_clear (g : Grid.t) (p : nat) (r : Row.t) :
  store (clearGrid g) p (clearRow r) = clearGrid (store g p r).
Proof. unfold store, clearGrid. simpl. by rewrite list_fmap_insert. Qed.

Lemma appendColumnCell_clear (st : colState) (nc : string * cell.t) :
  appendColumnCell (clearState st) nc = go_map clearState (appendColumnCell st nc).
Proof.
  unfold appendColumnCell. cbv zeta. simpl cs_rows. simpl cs_missing. simpl cs_grid.
  destruct (cs_rows st !! nc.1) as [p|].
  - rewrite load_clear. unfold go_map. destruct (load (cs_grid st) p) as [r|]; [|done].
    simpl go_bind. rewrite appendCell_clear. unfold go_map.
    destruct (appendCell r nc.2 1) as [r'|]; [|done]. simpl.
    by rewrite store_clear.
  - simpl Grid.Columns. simpl Grid.Rows. rewrite length_fmap.
    assert (forall m : go Row.t,
              (row <~ go_map clearRow m ;; row0 <~ appendCell row nc.2 1 ;;
               Ok (ColState
                     (store (Grid.Build (Grid.Columns (cs_grid st))
                               ((clearRow <$> Grid.Rows (cs_grid st)) ++ [Row.new nc.1]))
                            (length (Grid.Rows (cs_grid st))) row0)
                     (<[nc.1 := length (Grid.Rows (cs_grid st))]> (cs_rows st))
                     (delete nc.1 (cs_missing st)))) =
              go_map clearState
                (row <~ m ;; row0 <~ appendCell row nc.2 1 ;;
                 Ok (ColState
                       (store (Grid.Build (Grid.Columns (cs_grid st))
                                 (Grid.Rows (cs_grid st) ++ [Row.new nc.1]))
                              (length (Grid.Rows (cs_grid st))) row0)
                       (<[nc.1 := length (Grid.Rows (cs_grid st))]> (cs_rows st))
                       (delete nc.1 (cs_missing st))))) as Hbind.
    { intros [r|]; [|done]. unfold go_map. simpl go_bind.
      rewrite appendCell_clear. unfold go_map.
      destruct (appendCell r nc.2 1) as [r'|]; [|done]. simpl.
      unfold clearState, store, clearGrid. simpl.
      by rewrite list_fmap_insert, fmap_app. }
    destruct (1 <? Z.of_nat (length (Grid.Columns (cs_grid st)))).
    + change (Row.new nc.1) with (clearRow (Row.new nc.1)) at 1.
      rewrite appendCell_clear. apply Hbind.
    + apply (Hbind (Ok (Row.new nc.1))).
Qed.

Lemma appendMissing_clear (g : Grid.t) (np : string * nat) :
  appendMissing (clearGrid g) np = go_map clearGrid (appendMissing g np).
Proof.
  unfold appendMissing. rewrite load_clear. unfold go_map.
  destruct (load g np.2) as [r|]; [|done]. simpl go_bind.
  rewrite appendCell_clear. unfold go_map.
  destruct (appendCell r emptyCell 1) as [r'|]; [|done]. simpl.
  by rewrite store_clear.
Qed.

Lemma appendColumn_clear (g : Grid.t) (rows : gmap string nat) (col : inflatedColumn.t) :
  appendColumn (clearGrid g) rows col =
  go_map (fun st => (clearGrid st.1, st.2)) (appendColumn g rows col).
Proof.
  unfold appendColumn. cbv zeta.
  match goal with
  | |- context [go_fold appendColumnCell ?s (inflatedColumn.cells col)] =>
      change s with
        (clearState (ColState (Grid.Build (Grid.Columns g ++ [inflatedColumn.column col])
                                 (Grid.Rows g)) rows rows))
  end.
  rewrite (go_fold_map clearState appendColumnCell _ appendColumnCell_clear).
  unfold go_map at 1. destruct (go_fold appendColumnCell _ _) as [st|]; [|done].
  simpl go_bind. simpl cs_grid. simpl cs_missing. simpl cs_rows.
  rewrite (go_fold_map clearGrid appendMissing _ appendMissing_clear).
  unfold go_map. by destruct (go_fold appendMissing _ _).
Qed.

Lemma alertRow_clear (cols : list (option Column.t)) (r : Row.t)
    (info : option AlertInfo.t) (fto ptc : Z) :
  alertRow cols (Row.set_AlertInfo info r) fto ptc = alertRow cols r fto ptc.
Proof. by destruct r. Qed.

Lemma alertRows_clear (cols : list (option Column.t)) (rows : list Row.t) (fto ptc : Z) :
  alertRows cols (clearRow <$> rows) fto ptc = alertRows cols rows fto ptc.
Proof.
  induction rows as [|r rows IH]; [done|].
  rewrite fmap_cons. simpl. unfold clearRow at 1. rewrite alertRow_clear, IH.
  destruct (alertRow cols r fto ptc) as [info|]; [|done]. simpl.
  destruct (alertRows cols rows fto ptc) as [rest|]; [|done]. simpl.
  by destruct r.
Qed.

Lemma alertRows_erase (cols : list (option Column.t)) (rows rs : list Row.t) (fto ptc : Z) :
  alertRows cols rows fto ptc = Ok rs -> clearRow <$> rs = clearRow <$> rows.
Proof.
  intros H. apply alertRows_inv in H.
  induction H as [|r r' rows rs (info & _ & ->) _ IH]; [done|].
  rewrite !fmap_cons, IH. by f_equal.
Qed.

(** Evaluating the alerts again changes nothing. *)
Lemma alertRows_idem (cols : list (option Column.t)) (rows rs : list Row.t) (fto ptc : Z) :
  alertRows cols rows fto ptc = Ok rs -> alertRows cols rs fto ptc = Ok rs.
Proof.
  intros H. apply alertRows_inv in H.
  induction H as [|r r' rows rs (info & Hinfo & ->) _ IH]; [done|].
  simpl. rewrite alertRow_clear, Hinfo, IH. simpl. by destruct r.
Qed.

(** The alert of each row is the one [alertRow] computes for it. *)
Lemma alertRows_fixed (cols : list (option Column.t)) (rows : list Row.t) (fto ptc : Z) :
  alertRows cols rows fto ptc = Ok rows ->
  forall r, r ∈ rows -> alertRow cols r fto ptc = Ok (Row.AlertInfo r).
Proof.
  intros H r Hr. apply alertRows_inv in H.
  apply list_elem_of_lookup in Hr as [p Hp].
  destruct (Forall2_lookup_l _ _ _ _ _ H Hp) as (r' & Hp' & info & Hinfo & Heq).
  rewrite Hp in Hp'. injection Hp' as <-.
  rewrite Hinfo. f_equal. by rewrite Heq.
Qed.

(** The fold of [constructGrid], column by column, against the fold that
    only appends: the grids agree up to the alerts, and the alerts of the
    former are those of one evaluation on its last state. *)
Lemma constructFold_once (fto ptc : Z) (cols : list inflatedColumn.t) :
  forall (g : Grid.t) (rows : gmap string nat) (st' : Grid.t * gmap string nat),
    alertRows (Grid.Columns g) (Grid.Rows g) fto ptc = Ok (Grid.Rows g) ->
    go_fold (constructStep fto ptc) (g, rows) cols = Ok st' ->
    go_fold appendStep (clearGrid g, rows) cols = Ok (clearGrid st'.1, st'.2) /\
    alertRows (Grid.Columns st'.1) (Grid.Rows st'.1) fto ptc = Ok (Grid.Rows st'.1).
Proof.
  induction cols as [|col cols IH]; intros g rows st' Heval; simpl.
  - by intros [= <-].
  - unfold constructStep at 1, appendStep at 1. simpl fst. simpl snd.
    rewrite appendColumn_clear. unfold go_map.
    destruct (appendColumn g rows col) as [[ga rows1]|]; [|done]. simpl go_bind.
    destruct (alertRows (Grid.Columns ga) (Grid.Rows ga) fto ptc) as [rs|] eqn:Ers; [|done].
    simpl go_bind. intros Hfold.
    destruct (IH (Grid.Build (Grid.Columns ga) rs) rows1 st') as [Happ Heval']; [|done|].
    { simpl. by eapply alertRows_idem. }
    split; [|done]. rewrite <- Happ. f_equal. f_equal.
    unfold clearGrid. simpl. f_equal. symmetry. by eapply alertRows_erase.
Qed.

Section AlertPolicy.
Variable NaturalLess : string -> string -> bool.

Lemma alertRow_sortRow (cols : list (option Column.t)) (r : Row.t) (fto ptc : Z) :
  alertRow cols (sortRow NaturalLess r) fto ptc = alertRow cols r fto ptc.
Proof. by destruct r. Qed.

(** In a returned grid, the alert of each row is what [alertRow] computes
    from the final columns and the row, under the thresholds of the group. *)
Lemma constructGrid_alerts (group : TestGroup.t) (cols : list inflatedColumn.t) (g : Grid.t) :
  constructGrid NaturalLess group cols = Ok g ->
  forall row, row ∈ Grid.Rows g ->
    alertRow (Grid.Columns g) row (failsOpenOf group) (passesCloseOf group)
    = Ok (Row.AlertInfo row).
Proof.
  unfold constructGrid. cbv zeta.
  destruct (go_fold _ _ cols) as [st|] eqn:Efold; [|done].
  simpl. intros [= <-] row Hrow.
  destruct (constructFold_once _ _ cols Grid.empty ∅ st eq_refl Efold) as [_ Heval].
  apply sortGrid_rows in Hrow as (r0 & Hr0 & ->).
  rewrite alertRow_sortRow. simpl.
  by apply (alertRows_fixed _ _ _ _ Heval).
Qed.

(** C9. Whenever [constructGrid], which evaluates the alerts after every
    column, returns a grid, the variant that appends every column and
    evaluates the alerts once returns the same grid.  On columns with
    distinct keys, fewer than [2^31] of them, and a threshold that is not
    negative, [constructGrid] does return, so the two agree. *)
Theorem constructGrid_once (group : TestGroup.t) (cols : list inflatedColumn.t) :
  (forall g, constructGrid NaturalLess group cols = Ok g ->
             constructGridOnce NaturalLess group cols = Ok g) /\
  (forallb inflatedColumn.wf cols = true ->
   Z.of_nat (length cols) < 2 ^ 31 ->
   0 <= TestGroup.NumFailuresToAlert group ->
   exists g, constructGrid NaturalLess group cols = Ok g /\
             constructGridOnce NaturalLess group cols = Ok g).
Proof.
  assert (forall g, constructGrid NaturalLess group cols = Ok g ->
                    constructGridOnce NaturalLess group cols = Ok g) as Honce.
  { intros g. unfold constructGrid, constructGridOnce. cbv zeta.
    destruct (go_fold (constructStep _ _) _ cols) as [st|] eqn:Efold; [|done].
    simpl go_bind. intros [= <-].
    destruct (constructFold_once _ _ cols Grid.empty ∅ st eq_refl Efold) as [Happ Heval].
    change (clearGrid Grid.empty) with Grid.empty in Happ.
    rewrite Happ. simpl go_bind. simpl fst.
    simpl Grid.Columns. simpl Grid.Rows.
    rewrite alertRows_clear, Heval. simpl. by destruct st as [[c r] m]. }
  split; [done|]. intros Hwf Hbound Hfto.
  destruct (constructGrid_inv NaturalLess group cols Hwf Hbound) as [_ Hret].
  destruct (Hret Hfto) as [g Hg]. exists g. split; [done|]. by apply Honce.
Qed.

(** C8. [alertRow] with [failuresToOpen = 0] returns no alert, whatever the
    row and the columns.  When the group's [NumFailuresToAlert] is positive
    and its [NumPassesToDisableAlert] is 0, the threshold that
    [constructGrid] passes on is 1: the alert of every row of the grid that
    it returns is the one [alertRow] computes with [passesToClose = 1]; and
    it does return a grid on columns with distinct keys, fewer than [2^31]
    of them. *)
Theorem alert_policy (group : TestGroup.t) (cols : list inflatedColumn.t)
    (columns : list (option Column.t)) (row0 : Row.t) (passesToClose : Z) :
  0 < TestGroup.NumFailuresToAlert group ->
  TestGroup.NumPassesToDisableAlert group = 0 ->
  alertRow columns row0 0 passesToClose = Ok None /\
  passesCloseOf group = 1 /\
  (forall g, constructGrid NaturalLess group cols = Ok g ->
     forall row, row ∈ Grid.Rows g ->
       alertRow (Grid.Columns g) row (TestGroup.NumFailuresToAlert group) 1
       = Ok (Row.AlertInfo row)) /\
  (forallb inflatedColumn.wf cols = true ->
   Z.of_nat (length cols) < 2 ^ 31 ->
   exists g, constructGrid NaturalLess group cols = Ok g).
Proof.
  intros Hopen Hclose.
  assert (passesCloseOf group = 1) as Hone.
  { unfold passesCloseOf. rewrite Hclose.
    by destruct (Z.ltb_spec 0 (TestGroup.NumFailuresToAlert group)); [|lia]. }
  split; [done|]. split; [done|]. split.
  - intros g Hg row Hrow. rewrite <- Hone. by apply (constructGrid_alerts group cols).
  - intros Hwf Hbound.
    destruct (constructGrid_inv NaturalLess group cols Hwf Hbound) as [_ Hret].
    apply Hret. lia.
Qed.
End AlertPolicy.

Lemma alert_policy_witness :
  alertRow example_cols example_closed 0 5 = Ok None /\
  passesCloseOf example_group = 1 /\
  (forall g, constructGrid sortorder.NaturalLess example_group example_columns = Ok g ->
     forall row, row ∈ Grid.Rows g ->
       alertRow (Grid.Columns g) row (TestGroup.NumFailuresToAlert example_group) 1
       = Ok (Row.AlertInfo row)) /\
  (forallb inflatedColumn.wf example_columns = true ->
   Z.of_nat (length example_columns) < 2 ^ 31 ->
   exists g, constructGrid sortorder.NaturalLess example_group example_columns = Ok g).
Proof.
  apply (alert_policy sortorder.NaturalLess example_group example_columns example_cols example_closed 5);
    [simpl; lia | reflexivity].
Defined.

Lemma constructGrid_once_witness :
  exists g, constructGrid sortorder.NaturalLess example_group example_columns = Ok g /\
            constructGridOnce sortorder.NaturalLess example_group example_columns = Ok g.
Proof.
  apply (proj2 (constructGrid_once sortorder.NaturalLess example_group example_columns));
    [vm_compute; reflexivity | simpl; lia | simpl; lia].
Defined.

Example constructGrid_negative_threshold :
  constructGrid sortorder.NaturalLess negative_group negative_columns = Panic /\
  exists g, constructGridOnce sortorder.NaturalLess negative_group negative_columns = Ok g.
Proof. split; [vm_compute; reflexivity | eexists; vm_compute; reflexivity]. Qed.

(** ** Sorted output *)

Lemma insertStable_fmap {A B : Type} (f : A -> B) (less : B -> B -> bool) (x : A) (l : list A) :
  f <$> insertStable (fun a b => less (f a) (f b)) x l = insertStable less (f x) (f <$> l).
Proof.
  induction l as [|y l IH]; [done|].
  rewrite fmap_cons. simpl. destruct (less (f y) (f x)); [|done].
  by rewrite fmap_cons, IH.
Qed.

Lemma SliceStable_fmap {A B : Type} (f : A -> B) (less : B -> B -> bool) (l : list A) :
  f <$> SliceStable (fun a b => less (f a) (f b)) l = SliceStable less (f <$> l).
Proof.
  induction l as [|x l IH]; [done|].
  rewrite fmap_cons. unfold SliceStable in *. simpl.
  by rewrite insertStable_fmap, IH.
Qed.

Section StrictWeakOrder.
Context {A : Type} (less : A -> A -> bool).
Hypothesis less_asym : forall a b, less a b = true -> less b a = false.
Hypothesis less_negtrans :
  forall a b c, less a b = false -> less b c = false -> less a c = false.

Lemma insertStable_sorted (x : A) (l : list A) :
  StronglySorted (notAfter less) l ->
  StronglySorted (notAfter less) (insertStable less x l).
Proof.
  induction 1 as [|y l Hsorted IH Hy]; simpl.
  - repeat constructor.
  - destruct (less y x) eqn:Eyx.
    + constructor; [done|].
      rewrite (insertStable_perm less x l). constructor; [|done].
      unfold notAfter. by apply less_asym.
    + constructor; [by constructor|].
      constructor; [done|].
      eapply Forall_impl; [exact Hy|]. unfold notAfter. intros z Hz.
      by apply (less_negtrans z y x).
Qed.

Lemma SliceStable_sorted (l : list A) : StronglySorted (notAfter less) (SliceStable less l).
Proof.
  induction l as [|x l IH]; [constructor|].
  unfold SliceStable in *. simpl. by apply insertStable_sorted.
Qed.

(** Stability: elements that [less] does not tell apart keep their order. *)
Lemma insertStable_stable (z x : A) (l : list A) :
  List.filter (tied less z) (insertStable less x l) = List.filter (tied less z) (x :: l).
Proof.
  induction l as [|y l IH]; [done|].
  simpl insertStable. destruct (less y x) eqn:Eyx; [|done].
  simpl List.filter in *. rewrite IH.
  destruct (tied less z y) eqn:Ezy, (tied less z x) eqn:Ezx; try done.
  unfold tied in *.
  apply andb_true_iff in Ezy as [_ Hyz%negb_true_iff].
  apply andb_true_iff in Ezx as [Hzx%negb_true_iff _].
  rewrite (less_negtrans y z x) in Eyx; done.
Qed.

Lemma SliceStable_stable (z : A) (l : list A) :
  List.filter (tied less z) (SliceStable less l) = List.filter (tied less z) l.
Proof.
  induction l as [|x l IH]; [done|].
  unfold SliceStable in *. simpl foldr. rewrite insertStable_stable.
  simpl. by rewrite IH.
Qed.
End StrictWeakOrder.

Lemma rowsMap_NoDup (rows : gmap string nat) (Rows : list Row.t) :
  rowsMap rows Rows -> NoDup (Row.Name <$> Rows).
Proof.
  intros Hmap. apply NoDup_alt. intros p q name Hp Hq.
  rewrite list_lookup_fmap in Hp, Hq.
  destruct (Rows !! p) as [r|] eqn:Ep; [|done].
  destruct (Rows !! q) as [r'|] eqn:Eq; [|done].
  simpl in Hp, Hq. eapply rowsMap_inj; eauto. congruence.
Qed.

Section SortedGrid.
Variable NaturalLess : string -> string -> bool.
Hypothesis Hasym :
  forall a b, NaturalLess a b = true -> NaturalLess b a = false.
Hypothesis Hnegtrans :
  forall a b c, NaturalLess a b = false -> NaturalLess b c = false -> NaturalLess a c = false.

(** C7. For a comparison of names that is a strict weak order, on columns
    with distinct keys (fewer than [2^31] of them): in every grid that
    [constructGrid] returns, the rows are sorted by name, no name twice;
    in every row the metric names are sorted, the series are sorted by
    name, and the [i]-th series bears the [i]-th name.  ([SliceStable] keeps
    the order of what the comparison does not tell apart:
    [SliceStable_stable].) *)
Theorem constructGrid_sorted (group : TestGroup.t) (cols : list inflatedColumn.t) :
  forallb inflatedColumn.wf cols = true ->
  Z.of_nat (length cols) < 2 ^ 31 ->
  (0 <= TestGroup.NumFailuresToAlert group ->
   exists g, constructGrid NaturalLess group cols = Ok g) /\
  forall g, constructGrid NaturalLess group cols = Ok g ->
    StronglySorted (notAfter NaturalLess) (Row.Name <$> Grid.Rows g) /\
    NoDup (Row.Name <$> Grid.Rows g) /\
    forall row, row ∈ Grid.Rows g ->
      StronglySorted (notAfter NaturalLess) (Row.Metric row) /\
      StronglySorted (notAfter NaturalLess) (Metric.Name <$> Row.Metrics row) /\
      Metric.Name <$> Row.Metrics row = Row.Metric row.
Proof.
  intros Hwf Hbound.
  destruct (constructGrid_inv NaturalLess group cols Hwf Hbound) as [Hinv Hret].
  split; [done|]. intros g Hg.
  destruct (Hinv g Hg) as (grid0 & rows0 & [Hcols Hmap Hrows Habs] & ->).
  assert (Row.Name <$> Grid.Rows (sortGrid NaturalLess grid0) =
          SliceStable NaturalLess (Row.Name <$> Grid.Rows grid0)) as Hnames.
  { simpl. rewrite <- list_fmap_compose.
    rewrite <- (SliceStable_fmap Row.Name NaturalLess).
    apply list_fmap_ext. by intros i [] _. }
  split; [|split].
  - rewrite Hnames. by apply SliceStable_sorted.
  - rewrite Hnames, SliceStable_perm. by eapply rowsMap_NoDup.
  - intros row Hrow.
    apply sortGrid_rows in Hrow as (r0 & Hr0 & ->).
    apply list_elem_of_lookup in Hr0 as [p Hp].
    destruct (Hrows p r0 Hp) as [_ _ _ _ [Hlock _] _]. simpl.
    split; [by apply SliceStable_sorted|].
    rewrite (SliceStable_fmap Metric.Name NaturalLess), Hlock.
    split; [by apply SliceStable_sorted|done].
Qed.
End SortedGrid.

(** ** The natural order is a strict weak order *)

Lemma eatZeros_length (s : list ascii) : (length (sortorder.eatZeros s).2 <= length s)%nat.
Proof.
  induction s as [|c r IH]; simpl; [done|].
  destruct (nat_of_ascii c =? 48)%nat; simpl; lia.
Qed.

Lemma eatDigits_length (s : list ascii) : (length (sortorder.eatDigits s).2 <= length s)%nat.
Proof.
  induction s as [|c r IH]; simpl; [done|].
  destruct (sortorder.isdigit c); simpl; lia.
Qed.

Lemma digits_consumed (c : ascii) (r : list ascii) :
  sortorder.isdigit c = true ->
  (length (sortorder.eatDigits (sortorder.eatZeros (c :: r)).2).2 <= length r)%nat.
Proof.
  intros Hdig. simpl. destruct (nat_of_ascii c =? 48)%nat; simpl.
  - etrans; [apply eatDigits_length|apply eatZeros_length].
  - rewrite Hdig. simpl. apply eatDigits_length.
Qed.

Lemma keys_fuel (fuel : nat) :
  forall (fuel' : nat) (s : list ascii),
    (length s <= fuel)%nat -> (length s <= fuel')%nat ->
    sortorder.keys fuel s = sortorder.keys fuel' s.
Proof.
  induction fuel as [|fuel IH]; intros fuel' s Hs Hs'.
  - destruct s; [by destruct fuel'|simpl in Hs; lia].
  - destruct s as [|c r]; [by destruct fuel'|].
    destruct fuel' as [|fuel']; [simpl in Hs'; lia|].
    simpl in Hs, Hs'. cbn [sortorder.keys].
    destruct (sortorder.isdigit c) eqn:Hdig.
    + f_equal. pose proof (digits_consumed c r Hdig). apply IH; lia.
    + f_equal. apply IH; lia.
Qed.

Lemma lexico_cons {A : Type} `{Lexico A} (x1 x2 : A) (l1 l2 : list A) :
  lexico (x1 :: l1) (x2 :: l2) <-> lexico x1 x2 \/ x1 = x2 /\ lexico l1 l2.
Proof. done. Qed.

Lemma lexico_pair {A B : Type} `{Lexico A, Lexico B} (a1 a2 : A) (b1 b2 : B) :
  lexico (a1, b1) (a2, b2) <-> lexico a1 a2 \/ a1 = a2 /\ lexico b1 b2.
Proof. done. Qed.

Lemma lexico_nat (n m : nat) : lexico n m <-> (n < m)%nat.
Proof. done. Qed.

Lemma nat_of_ascii_inj (c1 c2 : ascii) : nat_of_ascii c1 = nat_of_ascii c2 -> c1 = c2.
Proof.
  intros H. rewrite <- (ascii_nat_embedding c1), <- (ascii_nat_embedding c2). by rewrite H.
Qed.

Lemma codes_inj (s1 s2 : list ascii) :
  nat_of_ascii <$> s1 = nat_of_ascii <$> s2 -> s1 = s2.
Proof.
  revert s2. induction s1 as [|c1 r1 IH]; intros [|c2 r2]; try done.
  rewrite !fmap_cons. intros [= Hc Hr]. f_equal; [by apply nat_of_ascii_inj|by apply IH].
Qed.

Lemma stringLess_lexico (s1 s2 : list ascii) :
  sortorder.stringLess s1 s2 = true <->
  lexico (nat_of_ascii <$> s1) (nat_of_ascii <$> s2).
Proof.
  revert s2. induction s1 as [|c1 r1 IH]; intros [|c2 r2]; try done.
  rewrite !fmap_cons, lexico_cons, lexico_nat. cbn [sortorder.stringLess].
  destruct (Nat.ltb_spec (nat_of_ascii c1) (nat_of_ascii c2)); [tauto|].
  destruct (Nat.ltb_spec (nat_of_ascii c2) (nat_of_ascii c1)).
  - split; [done|]. intros [?|[? _]]; lia.
  - rewrite IH. split; [intros ?; right; split; [lia|done]|].
    intros [?|[_ ?]]; [lia|done].
Qed.

Lemma lexico_cons_eq (x : (nat * (nat * (list nat * nat)))) (l1 l2 : list (nat * (nat * (list nat * nat)))) :
  lexico (x :: l1) (x :: l2) <-> lexico l1 l2.
Proof.
  rewrite lexico_cons. split; [|by right].
  intros [Hlt|[_ ?]]; [|done]. by apply (irreflexivity lexico x) in Hlt.
Qed.

Lemma lexico_cons_ne (x1 x2 : (nat * (nat * (list nat * nat)))) (l1 l2 : list (nat * (nat * (list nat * nat)))) :
  x1 <> x2 -> lexico (x1 :: l1) (x2 :: l2) <-> lexico x1 x2.
Proof. intros Hne. rewrite lexico_cons. split; [by intros [?|[? _]]|by left]. Qed.

(** Keys of two runs of digits, as the source compares them. *)
Lemma lexico_number (n1 n2 : nat) (d1 d2 : list nat) (z1 z2 : nat) :
  lexico ((O, (n1, (d1, z1))) : (nat * (nat * (list nat * nat)))) (O, (n2, (d2, z2))) <->
  (n1 < n2)%nat \/ n1 = n2 /\ (lexico d1 d2 \/ d1 = d2 /\ (z1 < z2)%nat).
Proof.
  rewrite !lexico_pair, !lexico_nat. split.
  - intros [?|[_ ?]]; [lia|done].
  - intros ?. by right.
Qed.

Lemma lexico_byte (n1 n2 : nat) :
  lexico ((1%nat, (n1, ([], O))) : (nat * (nat * (list nat * nat)))) (1%nat, (n2, ([], O))) <-> (n1 < n2)%nat.
Proof.
  rewrite !lexico_pair, !lexico_nat. split.
  - intros [?|[_ [?|[_ [H|[_ ?]]]]]]; [lia|done|by destruct H|lia].
  - intros ?. right. split; [done|]. by left.
Qed.

Lemma walk_keys (fuel : nat) :
  forall s1 s2 : list ascii,
    (length s1 <= fuel)%nat -> (length s2 <= fuel)%nat ->
    sortorder.walk fuel s1 s2 = true <->
    lexico (sortorder.keys fuel s1) (sortorder.keys fuel s2).
Proof.
  induction fuel as [|fuel IH]; intros s1 s2 H1 H2.
  - destruct s1, s2; simpl in *; try lia. done.
  - destruct s1 as [|c1 r1], s2 as [|c2 r2]; simpl in H1, H2.
    + done.
    + cbn [sortorder.keys]. by destruct (sortorder.isdigit c2).
    + cbn [sortorder.keys]. by destruct (sortorder.isdigit c1).
    + cbn [sortorder.walk sortorder.keys].
      destruct (sortorder.isdigit c1) eqn:Hd1, (sortorder.isdigit c2) eqn:Hd2;
        cbn [Bool.eqb negb].
      * set (z1 := sortorder.eatZeros (c1 :: r1)).
        set (z2 := sortorder.eatZeros (c2 :: r2)).
        set (d1 := sortorder.eatDigits z1.2).
        set (d2 := sortorder.eatDigits z2.2).
        pose proof (digits_consumed c1 r1 Hd1) as Hu1.
        pose proof (digits_consumed c2 r2 Hd2) as Hu2.
        fold z1 in Hu1. fold d1 in Hu1. fold z2 in Hu2. fold d2 in Hu2.
        destruct (Nat.eqb_spec (length d1.1) (length d2.1)) as [Hlen|Hlen]; cbn [negb].
        2:{ rewrite lexico_cons_ne by (intros [= ? _ _]; done).
            rewrite lexico_number, Nat.ltb_lt. split; [by left|]. intros [?|[? _]]; done. }
        destruct (decide (d1.1 = d2.1)) as [Hdig|Hdig].
        2:{ rewrite bool_decide_eq_false_2 by done. cbn [negb].
            rewrite lexico_cons_ne.
            2:{ intros [= _ Heq _]. apply Hdig. by apply codes_inj. }
            rewrite lexico_number, stringLess_lexico. split.
            - intros ?. right. split; [done|]. by left.
            - intros [?|[_ [?|[Heq _]]]]; [lia|done|].
              exfalso. apply Hdig. by apply codes_inj. }
        rewrite bool_decide_eq_true_2 by done. cbn [negb].
        destruct (Nat.eqb_spec z1.1 z2.1) as [Hz|Hz]; cbn [negb].
        2:{ rewrite lexico_cons_ne by (intros [= _ _ ?]; done).
            rewrite lexico_number, Nat.ltb_lt, Hdig. split.
            - intros ?. right. split; [done|]. by right.
            - intros [?|[_ [Hirr|[_ ?]]]]; [lia| |done].
              by apply (irreflexivity lexico) in Hirr. }
        rewrite Hlen, Hdig, Hz, lexico_cons_eq. apply IH; lia.
      * split; [intros _|done].
        apply lexico_cons. left. apply lexico_pair. left. apply lexico_nat. lia.
      * split; [done|]. rewrite lexico_cons, lexico_pair, lexico_nat.
        intros [[?|[? _]]|[? _]]; [lia|done|done].
      * destruct (Ascii.eqb_spec c1 c2) as [->|Hne]; cbn [negb].
        -- rewrite lexico_cons_eq. apply IH; lia.
        -- rewrite lexico_cons_ne.
           ++ by rewrite lexico_byte, Nat.ltb_lt.
           ++ intros [= Heq]. by apply nat_of_ascii_inj in Heq.
Qed.

Lemma length_list_ascii_of_string (s : string) :
  length (list_ascii_of_string s) = String.length s.
Proof. induction s as [|c s IH]; simpl; [done|]. by rewrite IH. Qed.

(** [NaturalLess] compares the ranks of the two names. *)
Lemma NaturalLess_rank (a b : string) :
  sortorder.NaturalLess a b = true <-> lexico (sortorder.rank a) (sortorder.rank b).
Proof.
  unfold sortorder.NaturalLess, sortorder.rank. cbv zeta.
  rewrite walk_keys by lia.
  rewrite <- !length_list_ascii_of_string.
  rewrite (keys_fuel _ (length (list_ascii_of_string a)) (list_ascii_of_string a)) by lia.
  by rewrite (keys_fuel _ (length (list_ascii_of_string b)) (list_ascii_of_string b)) by lia.
Qed.

Lemma NaturalLess_asym (a b : string) :
  sortorder.NaturalLess a b = true -> sortorder.NaturalLess b a = false.
Proof.
  intros Hab%NaturalLess_rank. apply not_true_is_false. intros Hba%NaturalLess_rank.
  apply (irreflexivity lexico (sortorder.rank a)). by trans (sortorder.rank b).
Qed.

Lemma NaturalLess_negtrans (a b c : string) :
  sortorder.NaturalLess a b = false -> sortorder.NaturalLess b c = false ->
  sortorder.NaturalLess a c = false.
Proof.
  intros Hab Hbc. apply not_true_is_false. intros Hac%NaturalLess_rank.
  apply not_true_iff_false in Hab, Hbc. rewrite NaturalLess_rank in Hab, Hbc.
  destruct (trichotomyT lexico (sortorder.rank a) (sortorder.rank b)) as [[Hlt|Heq]|Hgt].
  - done.
  - apply Hbc. by rewrite <- Heq.
  - apply Hbc. by trans (sortorder.rank a).
Qed.

Example NaturalLess_numbers :
  sortorder.NaturalLess "test-2" "test-10" = true /\
  sortorder.NaturalLess "test-10" "test-2" = false /\
  sortorder.NaturalLess "a1" "a01" = true.
Proof. vm_compute. done. Qed.

Lemma constructGrid_sorted_witness :
  (0 <= TestGroup.NumFailuresToAlert example_group ->
   exists g, constructGrid sortorder.NaturalLess example_group example_columns = Ok g) /\
  forall g, constructGrid sortorder.NaturalLess example_group example_columns = Ok g ->
    StronglySorted (notAfter sortorder.NaturalLess) (Row.Name <$> Grid.Rows g) /\
    NoDup (Row.Name <$> Grid.Rows g) /\
    forall row, row ∈ Grid.Rows g ->
      StronglySorted (notAfter sortorder.NaturalLess) (Row.Metric row) /\
      StronglySorted (notAfter sortorder.NaturalLess) (Metric.Name <$> Row.Metrics row) /\
      Metric.Name <$> Row.Metrics row = Row.Metric row.
Proof.
  apply (constructGrid_sorted sortorder.NaturalLess NaturalLess_asym NaturalLess_negtrans
           example_group example_columns);
    [vm_compute; reflexivity | simpl; lia].
Defined.

(** ** Where the build ids of an alert come from *)

Lemma recv_drop (walked : list Z) (pos : nat) :
  (result.recv (drop pos walked)).1 = default 0 (walked !! pos) /\
  (result.recv (drop pos walked)).2 = drop (S pos) walked.
Proof.
  destruct (walked !! pos) as [r|] eqn:E.
  - by rewrite (drop_S _ _ _ E).
  - apply lookup_ge_None in E. rewrite !drop_ge by lia. done.
Qed.

Lemma filter_take_S (walked : list Z) (pos : nat) :
  List.filter decisive (take (S pos) walked) =
  List.filter decisive (take pos walked) ++
  (if decisive (default 0 (walked !! pos)) then [default 0 (walked !! pos)] else []).
Proof.
  destruct (walked !! pos) as [r|] eqn:E.
  - rewrite (take_S_r _ _ _ E), List.filter_app. simpl. by destruct (decisive r).
  - apply lookup_ge_None in E. rewrite !take_ge by lia. simpl. by rewrite app_nil_r.
Qed.

Lemma lookup_default (walked : list Z) (pos : nat) (r : Z) :
  default 0 (walked !! pos) = r -> r <> 0 -> walked !! pos = Some r.
Proof. destruct (walked !! pos); simpl; congruence. Qed.

(** Fewer than [n] failures at the end of the results are no outage. *)
Lemma no_outage (n : nat) (walked l : list Z) (f t : nat) :
  List.filter decisive (take (S t) walked) = l ++ replicate f Row_FAIL ->
  last l <> Some Row_FAIL -> (f < n)%nat -> ~ outageAt n walked t.
Proof.
  intros Hrun Hlast Hf [l2 Hl2]. rewrite Hrun in Hl2.
  assert (Hlen : (length l + f = length l2 + n)%nat).
  { apply (f_equal length) in Hl2. by rewrite !length_app, !length_replicate in Hl2. }
  destruct l as [|x l _] using rev_ind; [simpl in Hlen; lia|].
  rewrite last_snoc in Hlast. rewrite length_app in Hlen. simpl in Hlen.
  apply (f_equal (fun s => s !! length l)) in Hl2.
  rewrite <- app_assoc, lookup_app_r, Nat.sub_diag in Hl2 by lia. simpl in Hl2.
  rewrite lookup_app_r in Hl2 by lia.
  symmetry in Hl2. apply lookup_replicate in Hl2 as [-> _]. done.
Qed.

(** What one turn of the loop does to the counter of failures and to the
    columns noted. *)
Lemma alertStep_effect (fto ptc : Z) (st : alertState) (col : option Column.t) :
  let raw := (result.recv (ch st)).1 in
  match alertStep fto ptc st col with
  | Next st1 =>
      ch st1 = (result.recv (ch st)).2 /\ latestPass st1 = latestPass st /\
      ((decisive raw = false /\ failures st1 = failures st /\ lastFail st1 = lastFail st) \/
       (raw = Row_FAIL /\ failures st1 = failures st + 1 /\ lastFail st1 = col) \/
       ((raw = Row_PASS \/ raw = Row_FLAKY) /\ failures st < fto /\
        failures st1 = 0 /\ lastFail st1 = lastFail st))
  | Break st1 =>
      fto <= failures st /\ failures st1 = failures st /\ lastFail st1 = lastFail st /\
      ((raw = Row_PASS /\ latestPass st1 = col) \/
       (raw = Row_FLAKY /\ latestPass st1 = latestPass st))
  | ReturnNil => failures st < fto
  end.
Proof.
  destruct st as [f tf p ci s lf lp fi]. unfold alertStep. simpl.
  set (raw := (result.recv s).1).
  unfold result.Coalesce, result.IgnoreRunning, decisive.
  destruct (Z.eqb_spec raw Row_RUNNING) as [Hrun|Hrun]; simpl.
  { rewrite Hrun. simpl. split; [done|]. split; [done|]. by left. }
  destruct (Z.eqb_spec raw Row_NO_RESULT) as [Hno|Hno].
  { rewrite Hno. simpl. split; [done|]. split; [done|]. by left. }
  destruct (Z.eqb_spec raw Row_PASS) as [Hpass|Hpass].
  { destruct (Z.leb_spec fto f).
    - simpl. split; [done|]. split; [done|]. split; [done|]. by left.
    - destruct (Z.leb_spec ptc (p + 1)); [done|].
      simpl. split; [done|]. split; [done|]. right. right. auto. }
  destruct (Z.eqb_spec raw Row_FAIL) as [Hfail|Hfail].
  { simpl. split; [done|]. split; [done|]. right. left. auto. }
  destruct (Z.eqb_spec raw Row_FLAKY) as [Hflaky|Hflaky].
  { destruct (Z.leb_spec fto f).
    - simpl. split; [done|]. split; [done|]. split; [done|]. by right.
    - simpl. split; [done|]. split; [done|]. right. right. auto. }
  simpl. split; [done|]. split; [done|]. by left.
Qed.

Section Provenance.
Variables (fto ptc : Z) (cols : list (option Column.t)) (walked : list Z).

(** Once the failures are complete, the walk goes on over failures, noting
    each, until a pass or a flaky result stops it. *)
Lemma alertLoop_outage (t : nat) (rest : list (option Column.t)) :
  forall (pre : list (option Column.t)) (st st' : alertState),
    cols = pre ++ rest ->
    outage cols walked t (length pre) st ->
    fto <= failures st ->
    alertLoop fto ptc rest st = Some st' ->
    fto <= failures st' /\ noted cols walked t (lastFail st') (latestPass st').
Proof.
  induction rest as [|col rest IH]; intros pre st st' Hcols [Hch (i & Hi & Hcol & Hfail & Hq) Hpass] Hf.
  - simpl. intros [= <-]. split; [done|].
    exists i. split; [done|]. split; [done|]. right. split; [done|]. right.
    by rewrite Hcols, app_nil_r.
  - simpl.
    pose proof (alertStep_effect fto ptc st col) as Hstep. cbv zeta in Hstep.
    destruct (recv_drop walked (length pre)) as [Hraw Hrest].
    rewrite Hch, Hraw, ?Hrest in Hstep.
    assert (Hat : cols !! length pre = Some col).
    { rewrite Hcols, lookup_app_r, Nat.sub_diag by lia. done. }
    assert (Hlen : length (pre ++ [col]) = S (length pre)).
    { rewrite length_app. simpl. lia. }
    destruct (alertStep fto ptc st col) as [st1|st1|]; [| |done].
    + destruct Hstep as (Hch1 & Hp1 & Hcase). intros Hloop.
      apply (IH (pre ++ [col]) st1 st'); [by rewrite <- app_assoc| |  |done].
      * rewrite Hlen. split; [done| |congruence].
        destruct Hcase as [(Hdec & _ & Hl)|[(Hr & _ & Hl)|(_ & Hlt & _)]]; [| |lia].
        -- exists i. rewrite Hl. split; [lia|]. split; [done|]. split; [done|].
           intros k r Hk Hkr. destruct (decide (k = length pre)) as [->|Hne].
           ++ by rewrite Hkr in Hdec.
           ++ apply (Hq k r); [lia|done].
        -- apply lookup_default in Hr; [|done].
           exists (length pre). rewrite Hl. split; [lia|]. split; [done|]. split.
           ++ destruct Hfail as (Hti & Hwi & Hbetween).
              split; [lia|]. split; [done|].
              intros k r Hk Hkr.
              destruct (decide (k < i)%nat); [apply (Hbetween k r); [lia|done]|].
              destruct (decide (k = i)) as [->|Hne]; [left; congruence|].
              right. apply (Hq k r); [lia|done].
           ++ intros k r Hk. lia.
      * destruct Hcase as [(_ & -> & _)|[(_ & -> & _)|(_ & Hlt & _)]]; lia.
    + destruct Hstep as (_ & Hf1 & Hl1 & Hcase). intros [= <-].
      split; [lia|]. exists i. rewrite Hl1. split; [done|]. split; [done|].
      assert (Hlt : (length pre < length cols)%nat).
      { rewrite Hcols, length_app. simpl. lia. }
      destruct Hcase as [[Hr ->]|[Hr ->]].
      * apply lookup_default in Hr; [|done].
        left. exists (length pre). done.
      * apply lookup_default in Hr; [|done].
        right. split; [done|]. left. exists (length pre). done.
Qed.

(** Until the failures are complete, the walk counts those at the end of
    the results on which it decides. *)
Lemma alertLoop_opening (n : nat) (rest : list (option Column.t)) :
  fto = Z.of_nat n ->
  forall (pre : list (option Column.t)) (st st' : alertState),
    cols = pre ++ rest ->
    opening n walked (length pre) st ->
    alertLoop fto ptc rest st = Some st' ->
    fto <= failures st' ->
    exists t,
      outageAt n walked t /\ (forall t', (t' < t)%nat -> ~ outageAt n walked t') /\
      noted cols walked t (lastFail st') (latestPass st').
Proof.
  intros Hn.
  induction rest as [|col rest IH];
    intros pre st st' Hcols [Hch (l & f & Hrun & Hlast & Hf & Hlt) Hnone Hpass].
  - simpl. intros [= <-]. lia.
  - simpl.
    pose proof (alertStep_effect fto ptc st col) as Hstep. cbv zeta in Hstep.
    destruct (recv_drop walked (length pre)) as [Hraw Hrest].
    rewrite Hch, Hraw, ?Hrest in Hstep.
    pose proof (filter_take_S walked (length pre)) as Htake. rewrite Hrun in Htake.
    assert (Hat : cols !! length pre = Some col).
    { rewrite Hcols, lookup_app_r, Nat.sub_diag by lia. done. }
    assert (Hlen : length (pre ++ [col]) = S (length pre)).
    { rewrite length_app. simpl. lia. }
    assert (Hstill : forall l' f',
      List.filter decisive (take (S (length pre)) walked) = l' ++ replicate f' Row_FAIL ->
      last l' <> Some Row_FAIL -> (f' < n)%nat ->
      forall t', (t' < S (length pre))%nat -> ~ outageAt n walked t').
    { intros l' f' Hrun' Hlast' Hf' t' Ht'.
      destruct (decide (t' = length pre)) as [->|Hne]; [|apply Hnone; lia].
      by apply (no_outage n walked l' f'). }
    destruct (alertStep fto ptc st col) as [st1|st1|]; [| |done].
    + destruct Hstep as (Hch1 & Hp1 & Hcase). intros Hloop Hopen.
      destruct Hcase as [(Hdec & Hf1 & Hl)|[(Hr & Hf1 & Hl)|(Hr & _ & Hf1 & Hl)]].
      * (* a result on which the walk does not decide *)
        rewrite Hdec, app_nil_r in Htake.
        apply (IH (pre ++ [col]) st1 st'); [by rewrite <- app_assoc| |done|done].
        rewrite Hlen. split; [done| |by apply (Hstill l f)|congruence].
        exists l, f. split; [done|]. split; [done|]. split; [congruence|done].
      * (* a failure *)
        rewrite Hr in Htake. change (decisive Row_FAIL) with true in Htake.
        cbv iota in Htake.
        assert (Hrun' : List.filter decisive (take (S (length pre)) walked) =
                        l ++ replicate (S f) Row_FAIL).
        { rewrite Htake, <- app_assoc. f_equal.
          change [Row_FAIL] with (replicate 1 Row_FAIL).
          rewrite <- replicate_add. f_equal. lia. }
        destruct (decide (S f < n)%nat) as [Hless|Hfull].
        -- apply (IH (pre ++ [col]) st1 st'); [by rewrite <- app_assoc| |done|done].
           rewrite Hlen. split; [done| |by apply (Hstill l (S f))|congruence].
           exists l, (S f). split; [done|]. split; [done|]. split; [lia|done].
        -- assert (S f = n) as Hfn by lia.
           exists (length pre). split; [exists l; by rewrite <- Hfn|].
           split; [done|].
           apply lookup_default in Hr; [|done].
           apply (alertLoop_outage (length pre) rest (pre ++ [col]) st1 st');
             [by rewrite <- app_assoc| |lia|done].
           rewrite Hlen. split; [done| |congruence].
           exists (length pre). rewrite Hl. split; [lia|]. split; [done|]. split.
           ++ split; [lia|]. split; [done|]. intros k r Hk. lia.
           ++ intros k r Hk. lia.
      * (* a pass or a flaky result *)
        assert (Hdec : decisive (default 0 (walked !! length pre)) = true)
          by (destruct Hr as [->| ->]; done).
        rewrite Hdec in Htake.
        assert (Hlast' : last ((l ++ replicate f Row_FAIL) ++ [default 0 (walked !! length pre)])
                         <> Some Row_FAIL).
        { rewrite last_snoc. destruct Hr as [->| ->]; done. }
        apply (IH (pre ++ [col]) st1 st'); [by rewrite <- app_assoc| |done|done].
        rewrite Hlen. split; [done| | |congruence].
        -- exists ((l ++ replicate f Row_FAIL) ++ [default 0 (walked !! length pre)]), 0%nat.
           split; [by rewrite Htake, app_nil_r|]. split; [done|]. split; [lia|lia].
        -- apply (Hstill ((l ++ replicate f Row_FAIL) ++ [default 0 (walked !! length pre)])
                    0%nat); [by rewrite Htake, app_nil_r|done|lia].
    + destruct Hstep as (Hge & _). lia.
Qed.
End Provenance.

(** The position of the last failure of an outage is determined. *)
Lemma failing_unique (cols : list (option Column.t)) (walked : list Z) (t i i' : nat) :
  failing walked t i -> failing walked t i' -> (i < i')%nat ->
  (i' < length cols)%nat ->
  ~ ((exists j, (i < j)%nat /\
                (walked !! j = Some Row_PASS \/ walked !! j = Some Row_FLAKY) /\
                quiet walked i j) \/
     quiet walked i (length cols)).
Proof.
  intros (Hti & Hi & _) (_ & Hi' & Hbetween) Hlt Hlen [(j & Hij & Hj & Hq)|Hq].
  - destruct (decide (i' < j)%nat) as [Hlt'|Hge].
    + by pose proof (Hq i' Row_FAIL ltac:(lia) Hi').
    + destruct (decide (i' = j)) as [->|Hne].
      { rewrite Hi' in Hj. by destruct Hj as [[=]|[=]]. }
      destruct Hj as [Hj|Hj];
        destruct (Hbetween j _ ltac:(lia) Hj) as [?|?]; done.
  - by pose proof (Hq i' Row_FAIL ltac:(lia) Hi').
Qed.

(** [noted] tells the two columns: no other pair of columns fits. *)
Lemma noted_unique (cols : list (option Column.t)) (walked : list Z) (t : nat)
    (fail pass fail' pass' : option Column.t) :
  noted cols walked t fail pass -> noted cols walked t fail' pass' ->
  fail = fail' /\ pass = pass'.
Proof.
  intros (i & Hcol & Hfail & Hnext) (i' & Hcol' & Hfail' & Hnext').
  assert (Hafter : forall a (c : option Column.t) p,
    cols !! a = Some c ->
    ((exists j, (a < j)%nat /\ cols !! j = Some p /\ walked !! j = Some Row_PASS /\
                quiet walked a j) \/
     (p = None /\
      ((exists j, (a < j < length cols)%nat /\ walked !! j = Some Row_FLAKY /\
                  quiet walked a j) \/
       quiet walked a (length cols)))) ->
    (exists j, (a < j)%nat /\
               (walked !! j = Some Row_PASS \/ walked !! j = Some Row_FLAKY) /\
               quiet walked a j) \/
    quiet walked a (length cols)).
  { intros a c p _ [(j & Hj & _ & Hp & Hq)|[_ [(j & Hj & Hf & Hq)|Hq]]].
    - left. exists j. auto.
    - left. exists j. split; [lia|]. auto.
    - by right. }
  assert (i = i') as <-.
  { destruct (lt_eq_lt_dec i i') as [[Hlt|Heq]|Hgt]; [|done|].
    - exfalso. apply (failing_unique cols walked t i i' Hfail Hfail' Hlt).
      + by eapply lookup_lt_Some.
      + by eapply Hafter.
    - exfalso. apply (failing_unique cols walked t i' i Hfail' Hfail Hgt).
      + by eapply lookup_lt_Some.
      + by eapply Hafter. }
  split; [congruence|].
  destruct Hnext as [(j & Hj & Hcj & Hp & Hq)|[-> Hend]],
           Hnext' as [(j' & Hj' & Hcj' & Hp' & Hq')|[-> Hend']]; [| | |done].
  - destruct (lt_eq_lt_dec j j') as [[Hlt|Heq]|Hgt].
    + by pose proof (Hq' j Row_PASS ltac:(lia) Hp).
    + congruence.
    + by pose proof (Hq j' Row_PASS ltac:(lia) Hp').
  - exfalso. destruct Hend' as [(j' & Hj' & Hf' & Hq')|Hq'].
    + destruct (lt_eq_lt_dec j j') as [[Hlt|Heq]|Hgt].
      * by pose proof (Hq' j Row_PASS ltac:(lia) Hp).
      * subst j'. rewrite Hp in Hf'. by injection Hf'.
      * by pose proof (Hq j' Row_FLAKY ltac:(lia) Hf').
    + apply lookup_lt_Some in Hcj. by pose proof (Hq' j Row_PASS ltac:(lia) Hp).
  - exfalso. destruct Hend as [(j & Hj & Hf & Hq)|Hq].
    + destruct (lt_eq_lt_dec j j') as [[Hlt|Heq]|Hgt].
      * by pose proof (Hq' j Row_FLAKY ltac:(lia) Hf).
      * subst j'. rewrite Hp' in Hf. by injection Hf.
      * by pose proof (Hq j' Row_PASS ltac:(lia) Hp').
    + apply lookup_lt_Some in Hcj'. by pose proof (Hq j' Row_PASS ltac:(lia) Hp').
Qed.

(** C10. The build ids and the times of an alert.  Whenever [alertRow],
    under a positive threshold, returns an alert, the outage opened at the
    first position [t] at which the last [failuresToOpen] results on which
    the walk decides are failures.  [FailBuildId] and [FailTime] are taken
    from the last failing column: the column of the last failure that the
    walk meets from [t] on, before a pass or a flaky result ends it or the
    columns end.  [PassBuildId] and [PassTime] are taken from the latest
    passing column: the column of the pass that follows that failure,
    when a pass is the first result to follow on which the walk decides,
    and no column otherwise.  The build id taken from a column is its
    first extra when it has any and its [Build] field only otherwise; no
    column, or a nil one, gives the empty string and no time.  No other
    pair of columns fits the description ([noted_unique]). *)
Theorem alert_build_ids (cols : list (option Column.t)) (row : Row.t)
    (failuresToOpen passesToClose : Z) (info : AlertInfo.t) :
  0 < failuresToOpen ->
  alertRow cols row failuresToOpen passesToClose = Ok (Some info) ->
  let walked := result.Iter (Row.Results row) in
  let id := fun col : option Column.t =>
    match col with
    | None => ""
    | Some col =>
        match Column.Extra col with
        | extra :: _ => extra
        | [] => Column.Build col
        end
    end in
  let time := fun col : option Column.t =>
    match col with
    | None => None
    | Some col => stamp (Some col)
    end in
  exists (t : nat) (fail pass : option Column.t),
    outageAt (Z.to_nat failuresToOpen) walked t /\
    (forall t', (t' < t)%nat -> ~ outageAt (Z.to_nat failuresToOpen) walked t') /\
    noted cols walked t fail pass /\
    AlertInfo.FailBuildId info = id fail /\ AlertInfo.FailTime info = time fail /\
    AlertInfo.PassBuildId info = id pass /\ AlertInfo.PassTime info = time pass.
Proof.
  intros Hpos Halert walked id time.
  unfold alertRow in Halert.
  destruct (Z.eqb_spec failuresToOpen 0); [lia|].
  destruct (alertLoop failuresToOpen passesToClose cols (alertInit row)) as [st|] eqn:Eloop;
    [|done].
  destruct (Z.ltb_spec (failures st) failuresToOpen); [done|].
  destruct (index (Row.Messages row) (failIdx st)) as [msg|]; [|done].
  destruct (index (Row.CellIds row) (failIdx st)) as [cid|]; [|done].
  simpl in Halert. injection Halert as <-.
  destruct (alertLoop_opening failuresToOpen passesToClose cols walked
              (Z.to_nat failuresToOpen) cols ltac:(lia) [] (alertInit row) st eq_refl)
    as (t & Hout & Hleast & Hnoted); [|done|done|].
  { split; [done| |intros t' Ht'; simpl in Ht'; lia|done].
    exists [], 0%nat. simpl. split; [done|]. split; [done|]. split; [done|lia]. }
  exists t, (lastFail st), (latestPass st).
  split; [done|]. split; [done|]. split; [done|]. simpl.
  assert (Hid : forall col, buildID col = id col).
  { intros [col|]; [|done]. unfold buildID, id.
    destruct (Column.Extra col); done. }
  assert (Htime : forall col, stamp col = time col) by (by intros [col|]).
  by rewrite !Hid, !Htime.
Qed.

Lemma alert_build_ids_witness :
  exists info,
    alertRow example_cols example_opened 2 1 = Ok (Some info) /\
    exists (t : nat) (fail pass : option Column.t),
      outageAt 2 (result.Iter (Row.Results example_opened)) t /\
      (forall t', (t' < t)%nat ->
         ~ outageAt 2 (result.Iter (Row.Results example_opened)) t') /\
      noted example_cols (result.Iter (Row.Results example_opened)) t fail pass /\
      AlertInfo.FailBuildId info =
        match fail with
        | None => ""
        | Some col =>
            match Column.Extra col with
            | extra :: _ => extra
            | [] => Column.Build col
            end
        end /\
      AlertInfo.FailTime info =
        match fail with None => None | Some col => stamp (Some col) end /\
      AlertInfo.PassBuildId info =
        match pass with
        | None => ""
        | Some col =>
            match Column.Extra col with
            | extra :: _ => extra
            | [] => Column.Build col
            end
        end /\
      AlertInfo.PassTime info =
        match pass with None => None | Some col => stamp (Some col) end.
Proof.
  eexists. split; [reflexivity|].
  apply (alert_build_ids example_cols example_opened 2 1); [lia|reflexivity].
Defined.

(** The failing build is [b3]; the passing build [b2] is named by its
    extra. *)
Example alert_ids_example :
  exists info,
    alertRow example_cols example_opened 2 1 = Ok (Some info) /\
    AlertInfo.FailBuildId info = "b3" /\ AlertInfo.PassBuildId info = "e2".
Proof. eexists. split; [reflexivity|]. split; reflexivity. Qed.

(** ** RUNNING cells

    [withoutRunning row]: the row with its RUNNING cells turned into
    [NO_RESULT] cells, their slots taken out of the arrays that [alertRow]
    reads by compressed index. *)

Lemma Iter_ignoreRunning (results : list Z) :
  result.Iter (ignoreRunningResults results) = coalesce <$> result.Iter results.
Proof.
  revert results. fix IH 1. intros [|code [|count rest]]; simpl; try done.
  by rewrite IH, fmap_app, fmap_replicate.
Qed.

Lemma coalesce_cases (r : Z) :
  (r = Row_RUNNING /\ coalesce r = Row_NO_RESULT) \/ (r <> Row_RUNNING /\ coalesce r = r).
Proof.
  unfold coalesce, result.Coalesce, result.IgnoreRunning.
  destruct (Z.eqb_spec r Row_RUNNING); simpl; auto.
Qed.

Lemma recv_coalesce (s : list Z) :
  result.recv (coalesce <$> s) = (coalesce (result.recv s).1, coalesce <$> (result.recv s).2).
Proof. by destruct s. Qed.

(** A cell with a verdict sits at the same place in the compacted array as
    in the original one. *)
Lemma dropRunningSlots_lookup {A : Type} (p1 rest : list Z) (r : Z) (xs : list A) :
  r <> Row_NO_RESULT -> r <> Row_RUNNING ->
  dropRunningSlots (p1 ++ r :: rest) xs !! occupied (coalesce <$> p1) = xs !! occupied p1.
Proof.
  intros Hno Hrun. revert xs. induction p1 as [|q p1 IH]; intros xs.
  - simpl. destruct (Z.eqb_spec r Row_NO_RESULT); [done|].
    destruct xs as [|x xs]; [done|]. by destruct (Z.eqb_spec r Row_RUNNING).
  - rewrite fmap_cons. simpl.
    destruct (coalesce_cases q) as [[-> ->]|[Hq ->]]; simpl.
    + destruct xs as [|x xs]; [by rewrite !lookup_nil|]. simpl. apply IH.
    + destruct (Z.eqb_spec q Row_NO_RESULT); [apply IH|].
      destruct xs as [|x xs]; [by rewrite !lookup_nil|].
      destruct (Z.eqb_spec q Row_RUNNING); [done|]. simpl. apply IH.
Qed.

Lemma occupied_snoc (p : list Z) (r : Z) :
  Z.of_nat (occupied (p ++ [r])) =
  Z.of_nat (occupied p) + (if r =? Row_NO_RESULT then 0 else 1).
Proof.
  rewrite occupied_app. simpl. destruct (r =? Row_NO_RESULT); lia.
Qed.

Lemma sideBySide_outcome (pre : list Z) (a b : alertState) (rest : list Z) :
  sideBySide pre a b -> sameOutcome (pre ++ rest) a b.
Proof.
  intros [Hf Ht Hp Hl Hq Hc Hi Hn Hnoted]. split; try done.
  intros Hpos. destruct (Hnoted Hpos) as (p1 & p2 & -> & Ha & Hb).
  exists p1, (p2 ++ rest). by rewrite <- app_assoc.
Qed.

Lemma recv_consumed (pre s : list Z) :
  exists pre',
    pre' ++ (result.recv s).2 = pre ++ s /\
    Z.of_nat (occupied pre') =
      Z.of_nat (occupied pre) + (if (result.recv s).1 =? Row_NO_RESULT then 0 else 1) /\
    Z.of_nat (occupied (coalesce <$> pre')) =
      Z.of_nat (occupied (coalesce <$> pre))
      + (if coalesce (result.recv s).1 =? Row_NO_RESULT then 0 else 1) /\
    (forall p1 p2, pre = p1 ++ Row_FAIL :: p2 -> exists p2', pre' = p1 ++ Row_FAIL :: p2') /\
    ((result.recv s).1 = Row_FAIL -> pre' = pre ++ [Row_FAIL]).
Proof.
  destruct s as [|r s]; simpl.
  - exists pre. split; [done|]. split; [lia|]. split; [simpl; lia|].
    split; [by eauto|]. done.
  - exists (pre ++ [r]). split; [by rewrite <- app_assoc|].
    split; [apply occupied_snoc|]. split; [rewrite fmap_app; apply occupied_snoc|].
    split; [|by intros ->].
    intros p1 p2 ->. exists (p2 ++ [r]). by rewrite <- app_assoc.
Qed.

Lemma alertLoop_sideBySide (fto ptc : Z) (cols : list (option Column.t)) :
  forall (pre : list Z) (a b : alertState),
    sideBySide pre a b ->
    match alertLoop fto ptc cols a, alertLoop fto ptc cols b with
    | Some a', Some b' => sameOutcome (pre ++ ch a) a' b'
    | None, None => True
    | _, _ => False
    end.
Proof.
  induction cols as [|col cols IH]; intros pre a b Hab; simpl.
  - by apply sideBySide_outcome.
  - pose proof (sideBySide_outcome pre a b (ch a) Hab) as Hout.
    destruct Hab as [Hf Ht Hp Hl Hq Hc [Hia Hib] Hn Hnoted].
    destruct a as [f tf p ci s lf lp fi], b as [f' tf' p' ci' s' lf' lp' fi'].
    simpl in *. subst f' tf' p' lf' lp' s'.
    destruct (recv_consumed pre s) as (pre' & Hpre' & Hocc & Hocc' & Hkeep & Hfail).
    unfold alertStep. simpl. rewrite recv_coalesce. simpl fst. simpl snd.
    set (raw := (result.recv s).1) in *.
    set (t := (result.recv s).2) in *.
    fold (coalesce raw). fold (coalesce (coalesce raw)).
    assert (forall a1 b1, sideBySide pre' a1 b1 -> ch a1 = t ->
              match alertLoop fto ptc cols a1, alertLoop fto ptc cols b1 with
              | Some a', Some b' => sameOutcome (pre ++ s) a' b'
              | None, None => True
              | _, _ => False
              end) as Hnext.
    { intros a1 b1 H1 Hch. specialize (IH pre' a1 b1 H1). by rewrite Hch, Hpre' in IH. }
    assert (forall fa fb : Z, 0 < f ->
              fa = fi -> fb = fi' ->
              exists p1 p2, pre' = p1 ++ Row_FAIL :: p2 /\
                            fa = Z.of_nat (occupied p1) /\
                            fb = Z.of_nat (occupied (coalesce <$> p1))) as Hold.
    { intros fa fb Hpos -> ->. destruct (Hnoted Hpos) as (p1 & p2 & Heq & Ha & Hb).
      destruct (Hkeep p1 p2 Heq) as [p2' ->]. by exists p1, p2'. }
    destruct (coalesce_cases raw) as [[Hrun Hco]|[Hrun Hco]]; rewrite Hco in *.
    + rewrite Hrun in Hocc |- *. simpl in Hocc, Hocc'. simpl.
      apply Hnext; [|done].
      split; simpl; try done; try lia. intros Hpos. by apply Hold.
    + destruct (coalesce_cases raw) as [[? _]|[_ ->]]; [done|].
      revert Hocc Hocc'.
      destruct (Z.eqb_spec raw Row_NO_RESULT) as [Hno|Hno]; intros Hocc Hocc'.
      { destruct (Z.eqb_spec raw Row_RUNNING); [done|].
        apply Hnext; [|done].
        split; simpl; try done; try lia. intros Hpos. by apply Hold. }
      destruct (Z.eqb_spec raw Row_PASS) as [Hpass|Hpass].
      { destruct (Z.leb_spec fto f); [by destruct Hout|].
        destruct (Z.leb_spec ptc (p + 1)); [done|].
        apply Hnext; [|done].
        split; simpl; try done; try lia. }
      destruct (Z.eqb_spec raw Row_FAIL) as [Hfl|Hfl].
      { apply Hnext; [|done].
        split; simpl; try done; try lia. intros _.
        destruct (Z.eqb_spec (f + 1) 1) as [Hone|Hone].
        - exists pre, []. split; [by apply Hfail|]. done.
        - apply Hold; [lia|done|done]. }
      destruct (Z.eqb_spec raw Row_FLAKY) as [Hfk|Hfk].
      { destruct (Z.leb_spec fto f); [by destruct Hout|].
        apply Hnext; [|done].
        split; simpl; try done; try lia. }
      apply Hnext; [|done].
      split; simpl; try done; try lia. intros Hpos. by apply Hold.
Qed.

Lemma index_of_nat {A : Type} (l : list A) (n : nat) :
  index l (Z.of_nat n) = match l !! n with Some x => Ok x | None => Panic end.
Proof.
  unfold index. destruct (Z.ltb_spec (Z.of_nat n) 0); [lia|]. by rewrite Nat2Z.id.
Qed.

(** C5. In the loop of [alertRow], a RUNNING result leaves [failures],
    [passes], [totalFailures], the noted columns and the noted index as they
    are, neither breaks nor returns, and advances [compressedIdx] by exactly
    1; a raw [NO_RESULT] advances nothing.  Consequently, under a threshold
    that is not negative, the alert of a row is the alert of the row without
    its RUNNING cells. *)
Theorem running_ignored (cols : list (option Column.t)) (row : Row.t)
    (failuresToOpen passesToClose : Z) (st : alertState) (col : option Column.t) :
  0 <= failuresToOpen ->
  ((result.recv (ch st)).1 = Row_RUNNING ->
   alertStep failuresToOpen passesToClose st col =
   Next (AlertState (failures st) (totalFailures st) (passes st) (compressedIdx st + 1)
                    (result.recv (ch st)).2 (lastFail st) (latestPass st) (failIdx st))) /\
  ((result.recv (ch st)).1 = Row_NO_RESULT ->
   alertStep failuresToOpen passesToClose st col =
   Next (AlertState (failures st) (totalFailures st) (passes st) (compressedIdx st)
                    (result.recv (ch st)).2 (lastFail st) (latestPass st) (failIdx st))) /\
  alertRow cols (withoutRunning row) failuresToOpen passesToClose
  = alertRow cols row failuresToOpen passesToClose.
Proof.
  intros Hfto. split; [|split].
  - intros Hraw. destruct st. unfold alertStep. simpl in *. by rewrite Hraw.
  - intros Hraw. destruct st. unfold alertStep. simpl in *. by rewrite Hraw.
  - unfold alertRow.
    destruct (Z.eqb_spec failuresToOpen 0); [done|].
    assert (sideBySide [] (alertInit row) (alertInit (withoutRunning row))) as H0.
    { split; simpl; try done. apply Iter_ignoreRunning. }
    pose proof (alertLoop_sideBySide failuresToOpen passesToClose cols _ _ _ H0) as Hloop.
    destruct (alertLoop _ _ cols (alertInit row)) as [a|],
             (alertLoop _ _ cols (alertInit (withoutRunning row))) as [b|]; try done.
    destruct Hloop as [Hf Ht Hl Hp Hnoted]. simpl in Hnoted.
    rewrite Hf, Ht, Hl, Hp.
    destruct (Z.ltb_spec (failures a) failuresToOpen); [done|].
    destruct Hnoted as (p1 & rest & Htotal & -> & ->); [lia|].
    rewrite !index_of_nat. simpl Row.Messages. simpl Row.CellIds.
    rewrite Htotal, !dropRunningSlots_lookup by done.
    done.
Qed.

Lemma running_ignored_witness :
  alertRow example_cols (withoutRunning example_running) 2 1
  = alertRow example_cols example_running 2 1 /\
  exists info, alertRow example_cols example_running 2 1 = Ok (Some info) /\
               AlertInfo.FailureMessage info = "bad3".
Proof.
  split.
  - apply (running_ignored example_cols example_running 2 1 (alertInit example_running) None).
    lia.
  - eexists. split; reflexivity.
Defined.

(** * The content of the rows

    What [constructGrid] puts in the arrays of a row, and not only how long
    they are. *)

(** ** Encodings with maximal runs *)

Lemma Even_SS (n : nat) : Nat.Even (S (S n)) <-> Nat.Even n.
Proof.
  split; intros [k Hk].
  - exists (k - 1)%nat. lia.
  - exists (k + 1)%nat. lia.
Qed.

Lemma pushRun_snoc (pre : list Z) (c m code n : Z) :
  Nat.Even (length pre) ->
  pushRun (pre ++ [c; m]) code n =
  if c =? code then pre ++ [c; m + n] else pre ++ [c; m; code; n].
Proof.
  revert pre. fix IH 1. intros [|a [|b pre]] Hev.
  - reflexivity.
  - destruct Hev as [k Hk]. simpl in Hk. lia.
  - simpl in Hev. apply (proj1 (Even_SS _)) in Hev. specialize (IH pre Hev).
    change (pushRun ((a :: b :: pre) ++ [c; m]) code n)
      with (match pre ++ [c; m] with
            | [] => if a =? code then [a; b + n] else [a; b; code; n]
            | _ => a :: b :: pushRun (pre ++ [c; m]) code n
            end).
    destruct (pre ++ [c; m]) eqn:E; [by destruct pre|].
    rewrite IH. by destruct (c =? code).
Qed.

Lemma encode_length (d : list Z) : length (encode d) <> 1%nat.
Proof.
  destruct d as [|r d]; simpl; [done|].
  destruct (encode d) as [|c [|m rest]]; simpl; try done.
  by destruct (r =? c).
Qed.

Lemma encode_replicate (k : nat) (r : Z) :
  encode (replicate (S k) r) = [r; Z.of_nat (S k)].
Proof.
  induction k as [|k IH]; [done|].
  change (encode (replicate (S (S k)) r))
    with (match encode (replicate (S k) r) with
          | code :: n :: rest =>
              if r =? code then code :: n + 1 :: rest else r :: 1 :: code :: n :: rest
          | _ => [r; 1]
          end).
  rewrite IH, Z.eqb_refl. f_equal. f_equal. lia.
Qed.

Lemma encode_app_replicate (d : list Z) (r k : Z) :
  1 <= k ->
  encode (d ++ replicate (Z.to_nat k) r) = pushRun (encode d) r k.
Proof.
  intros Hk. induction d as [|a d IH].
  - simpl. replace (Z.to_nat k) with (S (Z.to_nat k - 1)) by lia.
    rewrite encode_replicate. f_equal. f_equal. lia.
  - pose proof (encode_length d) as Hlen.
    simpl. rewrite IH.
    destruct (encode d) as [|c [|m [|c2 rest]]]; simpl in *; try done;
      eqb_cases; subst; try done; f_equal; f_equal; lia.
Qed.

Lemma rle_encode (d : list Z) : rle (encode d) d.
Proof.
  induction d as [|r d IH] using rev_ind; [apply rle_nil|].
  change [r] with (replicate (Z.to_nat 1) r).
  rewrite encode_app_replicate by lia.
  inversion IH as [Hnil Hd | pre d0 code n Hpre Hn Heq Hd].
  - simpl. apply (rle_snoc [] [] r 1); [apply rle_nil|lia].
  - rewrite pushRun_snoc by (by eapply rle_even).
    destruct (Z.eqb_spec code r) as [->|Hne].
    + rewrite <- app_assoc, <- replicate_add, <- Z2Nat.inj_add by lia.
      apply rle_snoc; [done|lia].
    + replace (pre ++ [code; n; r; 1]) with ((pre ++ [code; n]) ++ [r; 1])
        by (by rewrite <- app_assoc).
      apply rle_snoc; [|lia]. rewrite <- ?Hd. by apply rle_snoc.
Qed.

Lemma Iter_encode (d : list Z) : result.Iter (encode d) = d.
Proof. apply rle_Iter, rle_encode. Qed.

Lemma pushIdx_snoc (pre : list Z) (s n idx : Z) :
  Nat.Even (length pre) ->
  pushIdx (pre ++ [s; n]) idx =
  if s + n =? idx then pre ++ [s; n + 1] else pre ++ [s; n; idx; 1].
Proof.
  revert pre. fix IH 1. intros [|a [|b pre]] Hev.
  - reflexivity.
  - destruct Hev as [k Hk]. simpl in Hk. lia.
  - simpl in Hev. apply (proj1 (Even_SS _)) in Hev. specialize (IH pre Hev).
    change (pushIdx ((a :: b :: pre) ++ [s; n]) idx)
      with (match pre ++ [s; n] with
            | [] => if a + b =? idx then [a; b + 1] else [a; b; idx; 1]
            | _ => a :: b :: pushIdx (pre ++ [s; n]) idx
            end).
    destruct (pre ++ [s; n]) eqn:E; [by destruct pre|].
    rewrite IH. by destruct (s + n =? idx).
Qed.

Lemma encodeIdx_length (ps : list Z) : length (encodeIdx ps) <> 1%nat.
Proof.
  destruct ps as [|p ps]; simpl; [done|].
  destruct (encodeIdx ps) as [|c [|m rest]]; simpl; try done.
  by destruct (p + 1 =? c).
Qed.

Lemma encodeIdx_snoc (ps : list Z) (q : Z) :
  encodeIdx (ps ++ [q]) = pushIdx (encodeIdx ps) q.
Proof.
  induction ps as [|a ps IH]; [done|].
  pose proof (encodeIdx_length ps) as Hlen.
  simpl. rewrite IH.
  destruct (encodeIdx ps) as [|c [|m [|c2 rest]]]; simpl in *; try done;
    eqb_cases; subst; try done; f_equal; f_equal; lia.
Qed.

Lemma expand_encodeIdx (ps : list Z) : expand (encodeIdx ps) = ps.
Proof.
  assert (forall ps, match encodeIdx ps with
                     | _ :: n :: _ => 1 <= n
                     | _ => True
                     end) as Hpos.
  { intros l. induction l as [|p l IH]; simpl; [done|].
    destruct (encodeIdx l) as [|c [|m rest]]; try lia.
    destruct (p + 1 =? c); lia. }
  induction ps as [|p ps IH]; [done|].
  specialize (Hpos ps). simpl.
  destruct (encodeIdx ps) as [|c [|m rest]]; simpl in *.
  - by rewrite <- IH.
  - by rewrite <- IH.
  - destruct (Z.eqb_spec (p + 1) c) as [<-|Hne]; simpl.
    + rewrite seqZ_cons by lia. simpl.
      replace (Z.succ p) with (p + 1) by lia.
      replace (Z.pred (m + 1)) with m by lia. by rewrite IH.
    + by rewrite IH.
Qed.


Lemma sparse_encodeIdx (ps : list Z) :
  StronglySorted Z.lt ps -> Forall (fun p => 0 <= p) ps ->
  sparse (encodeIdx ps) (endOf ps) (Z.of_nat (length ps)).
Proof.
  induction ps as [|q ps IH] using rev_ind; intros Hs Hnn.
  - apply sparse_nil.
  - apply StronglySorted_app in Hs as (Hlt & Hs & _).
    apply Forall_app in Hnn as [Hnn Hq]. rewrite Forall_singleton in Hq.
    specialize (IH Hs Hnn).
    assert (endOf ps <= q) as Hend.
    { unfold endOf. destruct (last ps) as [p|] eqn:El; [|lia].
      apply last_Some in El as [l' ->].
      assert (p < q); [|lia]. apply Hlt; [|left].
      apply elem_of_app. right. left. }
    rewrite encodeIdx_snoc, length_app. simpl length.
    unfold endOf at 1. rewrite last_snoc.
    replace (Z.of_nat (length ps + 1)) with (Z.of_nat (length ps) + 1) by lia.
    inversion IH as [Hnil He Hz | pre e0 s0 s n Hpre Hes Hn Heq He Hz].
    + simpl. apply (sparse_snoc [] (-1) 0 q 1); [apply sparse_nil|lia|lia].
    + rewrite pushIdx_snoc by (by eapply sparse_length).
      rewrite <- ?Hz.
      destruct (Z.eqb_spec (s + n) q) as [<-|Hne].
      * replace (s + n + 1) with (s + (n + 1)) by lia.
        replace (s0 + n + 1) with (s0 + (n + 1)) by lia.
        apply (sparse_snoc pre e0 s0 s (n + 1)); [done|lia|lia].
      * replace (pre ++ [s; n; q; 1]) with ((pre ++ [s; n]) ++ [q; 1])
          by (by rewrite <- app_assoc).
        apply (sparse_snoc (pre ++ [s; n]) (s + n) (s0 + n) q 1); [|lia|lia].
        by apply (sparse_snoc pre e0 s0 s n).
Qed.

(** ** The samples of a metric *)

Lemma lookupMetric_None (k : string) (ms : list (string * float)) :
  lookupMetric k ms = None <-> k ∉ ms.*1.
Proof.
  induction ms as [|[k' v] ms IH]; simpl.
  - split; [intros _; apply not_elem_of_nil|done].
  - rewrite not_elem_of_cons. destruct (String.eqb_spec k' k) as [->|Hne].
    + split; [done|]. by intros [? _].
    + rewrite IH. split; [|by intros [_ ?]]. intros ?. split; [|done]. congruence.
Qed.

Lemma lookupMetric_NoDup (k : string) (v : float) (ms : list (string * float)) :
  NoDup ms.*1 -> (k, v) ∈ ms -> lookupMetric k ms = Some v.
Proof.
  induction ms as [|[k' v'] ms IH]; simpl; intros Hnd Hin.
  - by apply elem_of_nil in Hin.
  - apply NoDup_cons in Hnd as [Hk Hnd].
    apply elem_of_cons in Hin as [[= <- <-]|Hin].
    + by rewrite String.eqb_refl.
    + destruct (String.eqb_spec k' k) as [->|Hne]; [|by apply IH].
      exfalso. apply Hk. by apply (list_elem_of_fmap_2' fst _ (k, v)).
Qed.

Lemma samples_app (k : string) (cs cs' : list cell.t) :
  forall i, samples k i (cs ++ cs') =
            samples k i cs ++ samples k (i + Z.of_nat (length cs)) cs'.
Proof.
  induction cs as [|c cs IH]; intros i; simpl.
  - by rewrite Z.add_0_r.
  - rewrite IH, <- app_assoc. do 3 f_equal. lia.
Qed.

Lemma samples_snoc (k : string) (cs : list cell.t) (c : cell.t) :
  samples k 0 (cs ++ [c]) = samples k 0 cs ++ sampleAt k (Z.of_nat (length cs)) c.
Proof. rewrite samples_app. simpl. by rewrite app_nil_r. Qed.

Lemma samples_bound (k : string) (cs : list cell.t) :
  forall i, Forall (fun p => i <= p < i + Z.of_nat (length cs)) (samples k i cs).*1.
Proof.
  induction cs as [|c cs IH]; intros i; simpl; [done|].
  rewrite fmap_app. apply Forall_app. split.
  - unfold sampleAt. destruct (hasResult c); [|done].
    destruct (lookupMetric k (cell.metrics c)); [|done].
    apply Forall_singleton. simpl. lia.
  - eapply Forall_impl; [apply (IH (i + 1))|]. simpl. intros p. lia.
Qed.

Lemma samples_sorted (k : string) (cs : list cell.t) :
  forall i, StronglySorted Z.lt (samples k i cs).*1.
Proof.
  induction cs as [|c cs IH]; intros i; simpl; [constructor|].
  rewrite fmap_app. apply StronglySorted_app. split; [|split; [|done]].
  - intros x1 x2 H1 H2.
    pose proof (samples_bound k cs (i + 1)) as Hb. rewrite Forall_forall in Hb.
    apply Hb in H2. unfold sampleAt in H1. destruct (hasResult c); [|by apply elem_of_nil in H1].
    destruct (lookupMetric k (cell.metrics c)); [|by apply elem_of_nil in H1].
    apply list_elem_of_singleton in H1. simpl in H1. lia.
  - unfold sampleAt. destruct (hasResult c); [|constructor].
    destruct (lookupMetric k (cell.metrics c)); repeat constructor.
Qed.

Lemma endOf_bound (ps : list Z) (n : Z) :
  0 <= n -> Forall (fun p => 0 <= p < n) ps -> endOf ps <= n.
Proof.
  intros Hn Hall. unfold endOf. destruct (last ps) as [p|] eqn:El; [|lia].
  apply last_Some in El as [l' ->]. apply Forall_app in Hall as [_ Hp].
  rewrite Forall_singleton in Hp. lia.
Qed.

Lemma sparse_end (l : list Z) (e s : Z) : sparse l e s -> -1 <= e /\ 0 <= s.
Proof. induction 1; lia. Qed.

Lemma appendMetric_push (m : Metric.t) (idx : Z) (v : float) (ps : list Z) :
  Metric.Indices m = encodeIdx ps ->
  StronglySorted Z.lt ps -> Forall (fun p => 0 <= p < idx) ps ->
  0 <= idx < 2 ^ 31 - 1 ->
  appendMetric m idx v =
  Ok (Metric.Build (Metric.Name m) (encodeIdx (ps ++ [idx])) (Metric.Values m ++ [v])).
Proof.
  intros Hind Hs Hall Hidx.
  assert (endOf ps <= idx) as Hend by (apply endOf_bound; [lia|done]).
  assert (Forall (fun p => 0 <= p) ps) as Hnn
    by (eapply Forall_impl; [exact Hall|]; simpl; intros; lia).
  pose proof (sparse_encodeIdx ps Hs Hnn) as Hsp.
  rewrite encodeIdx_snoc, <- Hind. rewrite <- Hind in Hsp.
  inversion Hsp as [Hnil He Hz | pre e0 s0 s n Hpre Hes Hn Heq He Hz].
  - rewrite appendMetric_nil by done. done.
  - pose proof (sparse_length _ _ _ Hsp) as [_ Hlen].
    pose proof (sparse_end _ _ _ Hpre) as [He0 _].
    rewrite (appendMetric_snoc m idx v pre s n); [|by rewrite Heq|lia].
    rewrite pushIdx_snoc by (by eapply sparse_length).
    rewrite (wrap32_id (s + n)) by (unfold int32_range; lia).
    rewrite (wrap32_id (n + 1)) by (unfold int32_range; lia).
    rewrite <- Heq. destruct (s + n =? idx); [done|by rewrite <- app_assoc].
Qed.

(** ** One cell more in a row *)

Lemma sampleAt_Some (k : string) (i : Z) (c : cell.t) (v : float) :
  hasResult c = true -> lookupMetric k (cell.metrics c) = Some v ->
  sampleAt k i c = [(i, v)].
Proof. intros Hr Hl. unfold sampleAt. by rewrite Hr, Hl. Qed.

Lemma sampleAt_None (k : string) (i : Z) (c : cell.t) :
  k ∉ (cell.metrics c).*1 -> sampleAt k i c = [].
Proof.
  intros Hk. apply lookupMetric_None in Hk. unfold sampleAt. rewrite Hk.
  by destruct (hasResult c).
Qed.

Lemma metricContent_snoc_absent (cs : list cell.t) (c : cell.t) (m : Metric.t) :
  sampleAt (Metric.Name m) (Z.of_nat (length cs)) c = [] ->
  metricContent cs m <-> metricContent (cs ++ [c]) m.
Proof. intros Hk. unfold metricContent. by rewrite samples_snoc, Hk, app_nil_r. Qed.

Lemma appendCellMetric_content (row : Row.t) (k : string) (v : float)
    (cs : list cell.t) (c : cell.t) (todo : list string) :
  hasResult c = true ->
  lookupMetric k (cell.metrics c) = Some v ->
  k ∉ todo ->
  Z.of_nat (length (Row.CellIds row)) = Z.of_nat (length cs) + 1 ->
  Z.of_nat (length cs) < 2 ^ 31 - 1 ->
  metricsMid cs c (k :: todo) (Row.Metric row) (Row.Metrics row) ->
  exists names' ms',
    appendCellMetric row (k, v) = Ok (Row.set_Metrics ms' (Row.set_Metric names' row)) /\
    metricsMid cs c todo names' ms'.
Proof.
  intros Hres Hlook Htodo Hcells Hn [Hnames Hnodup Hlisted Hall].
  assert (k ∈ (cell.metrics c).*1) as Hkey.
  { destruct (decide (k ∈ (cell.metrics c).*1)) as [|Hnot]; [done|].
    apply lookupMetric_None in Hnot. congruence. }
  set (n := Z.of_nat (length cs)) in *.
  unfold appendCellMetric. simpl fst. simpl snd.
  assert (wrap32 (Z.of_nat (length (Row.CellIds row)) - 1) = n) as Hidx
    by (rewrite wrap32_id; unfold int32_range; lia).
  assert (forall m' : Metric.t, Metric.Name m' = k ->
            Metric.Indices m' = encodeIdx ((samples k 0 cs).*1 ++ [n]) ->
            Metric.Values m' = (samples k 0 cs).*2 ++ [v] ->
            metricContent (cs ++ [c]) m') as Hnew.
  { intros m' Hname Hi Hv. unfold metricContent.
    rewrite Hname, samples_snoc, (sampleAt_Some k _ c v) by done.
    by rewrite !fmap_app. }
  assert (forall ps : list Z, ps = (samples k 0 cs).*1 ->
            StronglySorted Z.lt ps /\ Forall (fun p => 0 <= p < n) ps) as Hps.
  { intros ps ->. split; [apply samples_sorted|].
    eapply Forall_impl; [apply (samples_bound k cs 0)|]. simpl. intros p. lia. }
  destruct (list_find (fun metric => Metric.Name metric = k) (Row.Metrics row))
    as [[i m]|] eqn:Efind.
  - pose proof Efind as Efind'.
    apply list_find_Some in Efind as (Hi & Hname & _).
    assert (k ∈ Row.Metric row) as Hin.
    { rewrite <- Hnames, <- Hname. apply list_elem_of_fmap_2.
      by eapply list_elem_of_lookup_2. }
    apply existsb_eqb_elem_of in Hin. rewrite Hin. cbv beta iota zeta.
    rewrite Efind', Hidx.
    pose proof (proj1 (Forall_lookup _ _) Hall i m Hi) as Hm. simpl in Hm.
    rewrite Hname, bool_decide_eq_true_2 in Hm by left.
    destruct Hm as [Hmi Hmv]. rewrite Hname in Hmi, Hmv.
    destruct (Hps _ eq_refl) as [Hsorted Hbound].
    rewrite (appendMetric_push m n v _ Hmi Hsorted Hbound) by lia.
    simpl go_bind. eexists (Row.Metric row), _.
    split; [destruct row; reflexivity|].
    split.
    + rewrite list_fmap_insert, list_insert_id; [done|].
      rewrite list_lookup_fmap, Hi. simpl. congruence.
    + done.
    + intros k'. destruct (decide (k' = k)) as [->|Hne].
      * split; [intros _; by right|intros _; by apply existsb_eqb_elem_of].
      * rewrite Hlisted, not_elem_of_cons. intuition congruence.
    + apply Forall_lookup. intros j m0 Hj.
      apply list_lookup_insert_Some in Hj as [(-> & <- & _)|[Hne Hj]].
      * simpl. rewrite Hname, bool_decide_eq_false_2 by done.
        apply Hnew; simpl; [done|done|by rewrite Hmv].
      * pose proof (proj1 (Forall_lookup _ _) Hall j m0 Hj) as Hm0. simpl in Hm0.
        assert (Metric.Name m0 <> k) as Hdiff.
        { intros Heq. apply Hne.
          apply (NoDup_lookup (Metric.Name <$> Row.Metrics row) i j k).
          - by rewrite Hnames.
          - rewrite list_lookup_fmap, Hi. simpl. congruence.
          - rewrite list_lookup_fmap, Hj. simpl. congruence. }
        destruct (decide (Metric.Name m0 ∈ todo)) as [Hin0|Hin0].
        -- rewrite bool_decide_eq_true_2 by done.
           by rewrite bool_decide_eq_true_2 in Hm0 by (by right).
        -- rewrite bool_decide_eq_false_2 by done.
           rewrite bool_decide_eq_false_2 in Hm0; [done|].
           rewrite not_elem_of_cons. done.
  - pose proof Efind as Hnone. apply list_find_None in Hnone.
    assert (k ∉ Row.Metric row) as Hnotin.
    { rewrite <- Hnames. intros (m & -> & Hm)%list_elem_of_fmap.
      rewrite Forall_forall in Hnone. by apply (Hnone m). }
    destruct (existsb (String.eqb k) (Row.Metric row)) eqn:Eex.
    { by apply existsb_eqb_elem_of in Eex. }
    simpl Row.Metrics. rewrite Efind. simpl Row.CellIds. rewrite Hidx.
    assert (samples k 0 cs = []) as Hempty.
    { destruct (samples k 0 cs) eqn:E; [done|]. exfalso. apply Hnotin, Hlisted. left.
      by rewrite E. }
    rewrite appendMetric_nil by done. simpl go_bind.
    exists (Row.Metric row ++ [k]), (Row.Metrics row ++ [Metric.Build k [n; 1] [v]]).
    split; [destruct row; reflexivity|].
    split.
    + rewrite fmap_app. simpl. by rewrite Hnames.
    + apply NoDup_app. split; [done|]. split; [|apply NoDup_singleton].
      intros x Hx ->%list_elem_of_singleton. done.
    + intros k'. rewrite elem_of_app, list_elem_of_singleton, Hlisted, not_elem_of_cons.
      destruct (decide (k' = k)) as [->|Hne]; [|tauto].
      split; [intros _|tauto]. right. done.
    + apply Forall_app. split.
      * apply Forall_lookup. intros j m0 Hj.
        pose proof (proj1 (Forall_lookup _ _) Hall j m0 Hj) as Hm0. simpl in Hm0.
        assert (Metric.Name m0 <> k) as Hdiff.
        { intros Heq. apply Hnotin. rewrite <- Hnames, <- Heq.
          apply list_elem_of_fmap_2. by eapply list_elem_of_lookup_2. }
        destruct (decide (Metric.Name m0 ∈ todo)) as [Hin0|Hin0].
        -- rewrite bool_decide_eq_true_2 by done.
           by rewrite bool_decide_eq_true_2 in Hm0 by (by right).
        -- rewrite bool_decide_eq_false_2 by done.
           rewrite bool_decide_eq_false_2 in Hm0; [done|].
           rewrite not_elem_of_cons. done.
      * apply Forall_singleton. simpl. rewrite bool_decide_eq_false_2 by done.
        apply Hnew; simpl; [done| |]; by rewrite Hempty.
Qed.

Lemma appendCellMetrics_content (cs : list cell.t) (c : cell.t)
    (ms : list (string * float)) :
  forall row : Row.t,
    hasResult c = true ->
    NoDup ms.*1 ->
    (forall kv, kv ∈ ms -> lookupMetric kv.1 (cell.metrics c) = Some kv.2) ->
    Z.of_nat (length (Row.CellIds row)) = Z.of_nat (length cs) + 1 ->
    Z.of_nat (length cs) < 2 ^ 31 - 1 ->
    metricsMid cs c ms.*1 (Row.Metric row) (Row.Metrics row) ->
    exists names' ms',
      go_fold appendCellMetric row ms = Ok (Row.set_Metrics ms' (Row.set_Metric names' row)) /\
      metricsMid cs c [] names' ms'.
Proof.
  induction ms as [|[k v] ms IH]; intros row Hres Hnd Hlook Hcells Hn Hmid.
  - exists (Row.Metric row), (Row.Metrics row).
    split; [destruct row; reflexivity|done].
  - rewrite fmap_cons in Hnd, Hmid. simpl in Hnd, Hmid.
    apply NoDup_cons in Hnd as [Hk Hnd].
    destruct (appendCellMetric_content row k v cs c ms.*1 Hres)
      as (names1 & ms1 & Hstep & Hmid1); try done.
    { apply (Hlook (k, v)). left. }
    simpl go_fold. rewrite Hstep. simpl go_bind.
    destruct (IH (Row.set_Metrics ms1 (Row.set_Metric names1 row)))
      as (names2 & ms2 & Hfold & Hmid2); try done.
    { intros kv Hkv. apply Hlook. by right. }
    exists names2, ms2. rewrite Hfold. done.
Qed.

Lemma filter_snoc {A : Type} (f : A -> bool) (l : list A) (x : A) :
  List.filter f (l ++ [x]) = List.filter f l ++ (if f x then [x] else []).
Proof. by rewrite List.filter_app. Qed.

(** What one turn of the loop of [appendCell] appends. *)
Lemma appendCellOnce_content (c : cell.t) (row : Row.t) (cs : list cell.t) :
  cell.wf c = true ->
  Z.of_nat (length cs) < 2 ^ 31 - 1 ->
  sideContent cs row ->
  exists row',
    appendCellOnce c row = Ok row' /\
    sideContent (cs ++ [c]) row' /\
    Row.Name row' = Row.Name row /\ Row.Id row' = Row.Id row /\
    Row.Results row' = Row.Results row.
Proof.
  intros Hwf Hn [Hids Hmsg Hico Hnames Hnodup Hlisted Hall].
  unfold appendCellOnce. unfold hasResult in *.
  destruct (cell.result c =? Row_NO_RESULT) eqn:Eres.
  - eexists. split; [reflexivity|]. split; [|done].
    assert (forall k, sampleAt k (Z.of_nat (length cs)) c = []) as Hno.
    { intros k. unfold sampleAt, hasResult. by rewrite Eres. }
    split; simpl.
    + by rewrite Hids, fmap_app.
    + rewrite filter_snoc. unfold hasResult. by rewrite Eres, app_nil_r.
    + rewrite filter_snoc. unfold hasResult. by rewrite Eres, app_nil_r.
    + done.
    + done.
    + intros k. by rewrite samples_snoc, Hno, app_nil_r.
    + eapply Forall_impl; [exact Hall|]. intros m Hm.
      by apply metricContent_snoc_absent.
  - apply bool_decide_eq_true in Hwf.
    assert (hasResult c = true) as Hres by (unfold hasResult; by rewrite Eres).
    destruct (appendCellMetrics_content cs c (cell.metrics c)
                (Row.set_CellIds (Row.CellIds row ++ [cell.cellID c]) row))
      as (names' & ms' & -> & [Hnames' Hnodup' Hlisted' Hall']); try done.
    + intros [k v] Hkv. by apply lookupMetric_NoDup.
    + simpl. rewrite length_app, Hids, length_fmap. simpl. lia.
    + split; simpl; try done.
      * intros k. rewrite Hlisted. intuition.
      * eapply Forall_impl; [exact Hall|]. intros m Hm. simpl.
        destruct (decide (Metric.Name m ∈ (cell.metrics c).*1)) as [Hin|Hin].
        -- by rewrite bool_decide_eq_true_2.
        -- rewrite bool_decide_eq_false_2 by done.
           apply metricContent_snoc_absent; [|done]. by apply sampleAt_None.
    + simpl go_bind. eexists. split; [reflexivity|]. split; [|done].
      split; simpl.
      * by rewrite Hids, fmap_app.
      * rewrite filter_snoc, Hres, fmap_app. by rewrite Hmsg.
      * rewrite filter_snoc, Hres, fmap_app. by rewrite Hico.
      * done.
      * done.
      * intros k. rewrite Hlisted', samples_snoc.
        destruct (decide (k ∈ (cell.metrics c).*1)) as [Hin|Hin].
        -- destruct (lookupMetric k (cell.metrics c)) as [v|] eqn:El;
             [|by apply lookupMetric_None in El].
           rewrite (sampleAt_Some k _ c v) by done.
           split; [intros _|intros _; right; split; [done|apply not_elem_of_nil]].
           by destruct (samples k 0 cs).
        -- rewrite sampleAt_None, app_nil_r by done. intuition.
      * eapply Forall_impl; [exact Hall'|]. intros m Hm. cbv beta in Hm.
        destruct (bool_decide (Metric.Name m ∈ [])) eqn:E; [|done].
        apply bool_decide_eq_true in E. by apply elem_of_nil in E.
Qed.

(** The loop of [appendCell] as a whole. *)
Lemma appendCellLoop_content (c : cell.t) (count : nat) :
  forall (row : Row.t) (cs : list cell.t),
    cell.wf c = true ->
    Z.of_nat (length cs) + Z.of_nat count < 2 ^ 31 ->
    sideContent cs row ->
    exists row',
      go_iter count (appendCellOnce c) row = Ok row' /\
      sideContent (cs ++ replicate count c) row' /\
      Row.Name row' = Row.Name row /\ Row.Id row' = Row.Id row /\
      Row.Results row' = Row.Results row.
Proof.
  induction count as [|count IH]; intros row cs Hwf Hn Hside.
  - exists row. simpl. by rewrite app_nil_r.
  - destruct (appendCellOnce_content c row cs Hwf) as (row1 & Hstep & Hside1 & Hn1 & Hi1 & Hr1);
      [lia|done|].
    simpl go_iter. rewrite Hstep. simpl go_bind.
    destruct (IH row1 (cs ++ [c]) Hwf) as (row2 & -> & Hside2 & Hn2 & Hi2 & Hr2); [|done|].
    { rewrite length_app. simpl. lia. }
    exists row2. split; [done|]. rewrite <- app_assoc in Hside2.
    split; [done|]. split; [congruence|]. split; congruence.
Qed.

Lemma appendCell_pushRun (results decoded : list Z) (latest count : Z) :
  rle results decoded ->
  1 <= count ->
  Z.of_nat (length decoded) + count < 2 ^ 31 ->
  (let n := Z.of_nat (length results) in
   if n =? 0 then Ok (results ++ [latest; wrap32 count])
   else
     last <~ index results (n - 2) ;;
     if negb (last =? latest) then Ok (results ++ [latest; wrap32 count])
     else
       len <~ index results (n - 1) ;;
       Ok (<[Z.to_nat (n - 1) := wrap32 (len + wrap32 count)]> results))
  = Ok (pushRun results latest count).
Proof.
  intros Hrle Hcount Hbound.
  assert (wrap32 count = count) as Hw by (apply wrap32_id; unfold int32_range; lia).
  rewrite Hw.
  inversion Hrle as [Hnil Hd | pre d0 code n Hpre Hn Heq Hd].
  - reflexivity.
  - rewrite pushRun_snoc by (by eapply rle_even).
    cbv zeta. rewrite length_app. simpl length.
    set (k := length pre).
    destruct (Z.eqb_spec (Z.of_nat (k + 2)) 0); [lia|].
    replace (Z.of_nat (k + 2) - 2) with (Z.of_nat k) by lia.
    replace (Z.of_nat (k + 2) - 1) with (Z.of_nat (k + 1)) by lia.
    rewrite (index_Ok _ k code) by (subst k; by rewrite lookup_app_r, Nat.sub_diag).
    simpl go_bind.
    destruct (Z.eqb_spec code latest) as [->|Hne]; simpl negb; cbv iota.
    + rewrite (index_Ok _ (k + 1) n).
      2:{ subst k. rewrite lookup_app_r by lia.
          by replace (length pre + 1 - length pre)%nat with 1%nat by lia. }
      simpl go_bind. rewrite Nat2Z.id. subst k. rewrite insert_app_r_alt by lia.
      replace (length pre + 1 - length pre)%nat with 1%nat by lia. simpl.
      assert (Z.of_nat (length decoded) = Z.of_nat (length d0) + n) as Hlen.
      { rewrite <- Hd, length_app, length_replicate. lia. }
      by rewrite wrap32_id by (unfold int32_range; lia).
    + by rewrite <- app_assoc.
Qed.

Lemma appendCell_content (row : Row.t) (c : cell.t) (count : Z) (cs : list cell.t) :
  rowContent cs row ->
  cell.wf c = true ->
  1 <= count ->
  Z.of_nat (length cs) + count < 2 ^ 31 ->
  exists row',
    appendCell row c count = Ok row' /\
    rowContent (cs ++ replicate (Z.to_nat count) c) row' /\
    Row.Name row' = Row.Name row /\ Row.Id row' = Row.Id row.
Proof.
  intros [Hres Hside] Hwf Hcount Hbound.
  unfold appendCell. cbv zeta.
  rewrite (appendCell_pushRun _ (cell.result <$> cs)); [|rewrite Hres; apply rle_encode|done|].
  2:{ by rewrite length_fmap. }
  simpl go_bind.
  destruct (appendCellLoop_content c (Z.to_nat count)
              (Row.set_Results (pushRun (Row.Results row) (cell.result c) count) row) cs)
    as (row' & -> & Hside' & Hn' & Hi' & Hr'); [done|lia| |].
  { by destruct Hside. }
  exists row'. split; [done|]. split; [|done].
  split; [|done]. rewrite Hr'. simpl.
  rewrite fmap_app, fmap_replicate, encode_app_replicate by done. by rewrite Hres.
Qed.

(** ** One column more in a grid *)

Lemma rowsOf_update (done : list inflatedColumn.t) (col : inflatedColumn.t)
    (U : gset string) (rows : gmap string nat) (Rows : list Row.t)
    (p : nat) (r r' : Row.t) :
  rowsMap rows Rows ->
  rowsOf done col U Rows ->
  Rows !! p = Some r -> Row.Name r' = Row.Name r ->
  rowOf (done ++ [col]) r' ->
  rowsOf done col (U ∪ {[Row.Name r]}) (<[p := r']> Rows).
Proof.
  intros Hmap Hinv Hp Hname Hr' q r0 Hq.
  apply list_lookup_insert_Some in Hq as [(-> & -> & _)|[Hne Hq]].
  - rewrite Hname. rewrite decide_True; [done|].
    rewrite elem_of_union, elem_of_singleton. by right.
  - specialize (Hinv q r0 Hq).
    assert (Row.Name r0 <> Row.Name r) as Hdiff.
    { intros Heq. apply Hne. symmetry. eapply rowsMap_inj; eauto. }
    destruct (decide (Row.Name r0 ∈ U)).
    + rewrite decide_True; [done|]. rewrite elem_of_union. by left.
    + by rewrite decide_False by (rewrite elem_of_union, elem_of_singleton; tauto).
Qed.

Lemma rowsOf_new (done : list inflatedColumn.t) (col : inflatedColumn.t)
    (U : gset string) (rows : gmap string nat) (Rows : list Row.t) (r : Row.t) :
  rowsMap rows Rows ->
  rowsOf done col U Rows ->
  rows !! Row.Name r = None ->
  rowOf (done ++ [col]) r ->
  rowsOf done col (U ∪ {[Row.Name r]}) (Rows ++ [r]).
Proof.
  intros Hmap Hinv Hnone Hr q r0 Hq.
  apply lookup_app_Some in Hq as [Hq|[Hge Hq]].
  - specialize (Hinv q r0 Hq).
    assert (Row.Name r0 <> Row.Name r) as Hdiff.
    { intros Heq. assert (rows !! Row.Name r0 = Some q) as Hrq by (apply Hmap; eauto).
      congruence. }
    destruct (decide (Row.Name r0 ∈ U)).
    + rewrite decide_True; [done|]. rewrite elem_of_union. by left.
    + by rewrite decide_False by (rewrite elem_of_union, elem_of_singleton; tauto).
  - apply list_lookup_singleton_Some in Hq as [_ ->].
    rewrite decide_True; [done|]. rewrite elem_of_union, elem_of_singleton. by right.
Qed.

Lemma seen_snoc (name : string) (done : list inflatedColumn.t) (col : inflatedColumn.t) :
  seen name done \/ name ∈ (inflatedColumn.cells col).*1 -> seen name (done ++ [col]).
Proof.
  intros [(d & Hd & Hin)|Hin].
  - exists d. split; [|done]. apply elem_of_app. by left.
  - exists col. split; [|done]. apply elem_of_app. right. left.
Qed.

Lemma cellAt_absent (name : string) (done : list inflatedColumn.t) :
  (forall d, d ∈ done -> lookupCell name (inflatedColumn.cells d) = None) ->
  cellAt name <$> done = replicate (length done) emptyCell.
Proof.
  induction done as [|d done IH]; intros Habs; [done|].
  rewrite fmap_cons. simpl length. simpl replicate.
  rewrite IH by (intros d' Hd'; apply Habs; by right).
  unfold cellAt. rewrite (Habs d) by left. done.
Qed.

Lemma rowContent_new (name : string) : rowContent [] (Row.new name).
Proof.
  split; [done|]. split; simpl; try done.
  - apply NoDup_nil_2.
  - intros k. split; [by intros ?%elem_of_nil|done].
Qed.

Lemma appendColumnCell_content (done : list inflatedColumn.t) (col : inflatedColumn.t)
    (rows0 : gmap string nat) (U : gset string) (st : colState)
    (name : string) (c : cell.t) :
  colInv done col rows0 U st ->
  rowsOf done col U (Grid.Rows (cs_grid st)) ->
  name ∉ U ->
  lookupCell name (inflatedColumn.cells col) = Some c ->
  cell.wf c = true ->
  Z.of_nat (length done) + 1 < 2 ^ 31 ->
  (forall name, rows0 !! name = None ->
     forall d, d ∈ done -> lookupCell name (inflatedColumn.cells d) = None) ->
  forall st',
    appendColumnCell st (name, c) = Ok st' ->
    rowsOf done col (U ∪ {[name]}) (Grid.Rows (cs_grid st')).
Proof.
  intros [Hcols Hmap Hrows Hmiss Hfresh Hkeep Hdom Horig] Hof HU Hcell Hwf Hbound Habs st'.
  assert (cellAt name <$> (done ++ [col]) = (cellAt name <$> done) ++ [c])
    as Hnew by (rewrite fmap_app; simpl; unfold cellAt; by rewrite Hcell).
  assert (name ∈ (inflatedColumn.cells col).*1) as Hkey.
  { destruct (decide (name ∈ (inflatedColumn.cells col).*1)) as [|Hnot]; [done|].
    apply lookupCell_None in Hnot. congruence. }
  unfold appendColumnCell. simpl fst. simpl snd. cbv zeta.
  destruct (cs_rows st !! name) as [p|] eqn:Ep.
  - pose proof Ep as Hp. apply Hmap in Hp as (r & Hp & Hname).
    unfold load. rewrite Hp. simpl go_bind.
    pose proof (Hof p r Hp) as Hr. rewrite Hname, decide_False in Hr by done.
    destruct Hr as [Hid Hseen Hcont]. rewrite Hname in Hcont.
    destruct (appendCell_content r c 1 _ Hcont Hwf) as (r' & -> & Hr' & Hname' & Hid'); [lia| |].
    { rewrite length_fmap. lia. }
    simpl go_bind. intros [= <-]. simpl.
    rewrite <- Hname. eapply rowsOf_update; eauto.
    split.
    + congruence.
    + rewrite Hname', Hname. apply seen_snoc. left. by rewrite <- Hname.
    + rewrite Hname', Hname, Hnew. exact Hr'.
  - pose proof (Hfresh name Ep) as Hnone.
    assert (cellAt name <$> done = replicate (length done) emptyCell) as Hold
      by (apply cellAt_absent; by apply Habs).
    simpl Grid.Columns. rewrite Hcols, length_fmap, length_app. simpl length.
    assert (exists r1,
      (if 1 <? Z.of_nat (length done + 1)
       then appendCell (Row.new name) emptyCell (Z.of_nat (length done + 1) - 1)
       else Ok (Row.new name)) = Ok r1 /\
      rowContent (cellAt name <$> done) r1 /\ Row.Name r1 = name /\ Row.Id r1 = name)
      as (r1 & -> & Hr1 & Hn1 & Hi1).
    { destruct (Z.ltb_spec 1 (Z.of_nat (length done + 1))) as [Hlt|Hge].
      - destruct (appendCell_content (Row.new name) emptyCell
                    (Z.of_nat (length done + 1) - 1) [] (rowContent_new name))
          as (r1 & -> & Hr1 & Hn1 & Hi1); [done|lia|simpl; lia|].
        exists r1. split; [done|]. split; [|done].
        rewrite Hold. simpl in Hr1.
        by replace (Z.to_nat (Z.of_nat (length done + 1) - 1)) with (length done) in Hr1 by lia.
      - exists (Row.new name). split; [done|]. split; [|done].
        destruct done; [apply rowContent_new|simpl in Hge; lia]. }
    simpl go_bind.
    destruct (appendCell_content r1 c 1 _ Hr1 Hwf) as (r' & -> & Hr' & Hname' & Hid'); [lia| |].
    { rewrite length_fmap. lia. }
    simpl go_bind. intros [= <-]. simpl.
    assert (Row.Name r' = name) as Hn' by congruence.
    assert (<[length (Grid.Rows (cs_grid st)) := r']> (Grid.Rows (cs_grid st) ++ [Row.new name])
            = Grid.Rows (cs_grid st) ++ [r']) as Hstore.
    { rewrite insert_app_r_alt by lia. by rewrite Nat.sub_diag. }
    rewrite Hstore, <- Hn'. eapply rowsOf_new; eauto; rewrite ?Hn'; try done.
    split.
    + congruence.
    + rewrite Hn'. apply seen_snoc. by right.
    + rewrite Hn', Hnew. exact Hr'.
Qed.

Lemma appendColumnCells_content (done : list inflatedColumn.t) (col : inflatedColumn.t)
    (rows0 : gmap string nat) (cells : list (string * cell.t)) :
  forall (U : gset string) (st : colState),
    colInv done col rows0 U st ->
    rowsOf done col U (Grid.Rows (cs_grid st)) ->
    NoDup cells.*1 ->
    (forall name, name ∈ cells.*1 -> name ∉ U) ->
    (forall nc, nc ∈ cells ->
       lookupCell nc.1 (inflatedColumn.cells col) = Some nc.2 /\ cell.wf nc.2 = true) ->
    Z.of_nat (length done) + 1 < 2 ^ 31 ->
    (forall name, rows0 !! name = None ->
       forall d, d ∈ done -> lookupCell name (inflatedColumn.cells d) = None) ->
    exists st',
      go_fold appendColumnCell st cells = Ok st' /\
      colInv done col rows0 (U ∪ list_to_set cells.*1) st' /\
      rowsOf done col (U ∪ list_to_set cells.*1) (Grid.Rows (cs_grid st')).
Proof.
  induction cells as [|[name c] cells IH]; intros U st Hinv Hof Hnd HU Hcells Hbound Habs.
  - exists st. split; [done|]. simpl. by rewrite (right_id_L ∅ (∪)).
  - apply NoDup_cons in Hnd as [Hname Hnd].
    destruct (Hcells (name, c)) as [Hcell Hwf]; [left|].
    assert (name ∉ U) as HnU by (apply HU; left).
    destruct (appendColumnCell_spec done col rows0 U st name c)
      as (st1 & Hstep & Hinv1); try done.
    pose proof (appendColumnCell_content done col rows0 U st name c
                  Hinv Hof HnU Hcell Hwf Hbound Habs st1 Hstep) as Hof1.
    simpl go_fold. rewrite Hstep. simpl go_bind.
    destruct (IH (U ∪ {[name]}) st1) as (st' & Hfold & Hinv' & Hof'); try done.
    + intros k Hk. rewrite elem_of_union, elem_of_singleton.
      intros [Hin| ->]; [|done]. apply (HU k); [by right|done].
    + intros nc Hnc. apply Hcells. by right.
    + exists st'. split; [done|].
      simpl. by rewrite (assoc_L (∪)).
Qed.

Lemma appendMissing_content (done : list inflatedColumn.t) (col : inflatedColumn.t)
    (rows : gmap string nat) (missing : list (string * nat)) :
  forall (U : gset string) (grid : Grid.t),
    rowsMap rows (Grid.Rows grid) ->
    rowsOf done col U (Grid.Rows grid) ->
    NoDup missing.*1 ->
    (forall name p, (name, p) ∈ missing ->
       (name ∉ U) /\ rows !! name = Some p /\
       lookupCell name (inflatedColumn.cells col) = None) ->
    Z.of_nat (length done) + 1 < 2 ^ 31 ->
    exists grid',
      go_fold appendMissing grid missing = Ok grid' /\
      rowsOf done col (U ∪ list_to_set missing.*1) (Grid.Rows grid').
Proof.
  induction missing as [|[name p] missing IH]; intros U grid Hmap Hrows Hnd Hmiss Hbound.
  - exists grid. split; [done|]. simpl. by rewrite (right_id_L ∅ (∪)).
  - apply NoDup_cons in Hnd as [Hname Hnd].
    destruct (Hmiss name p) as (HU & Hp & Hcell); [left|].
    apply Hmap in Hp as (r & Hp & Hn).
    pose proof (Hrows p r Hp) as Hr. rewrite Hn, decide_False in Hr by done.
    destruct Hr as [Hid Hseen Hcont]. rewrite Hn in Hcont.
    destruct (appendCell_content r emptyCell 1 _ Hcont) as (r' & Hstep & Hr' & Hn' & Hi');
      [done|lia| |].
    { rewrite length_fmap. lia. }
    simpl go_fold. unfold appendMissing at 1. simpl snd.
    unfold load. rewrite Hp. simpl go_bind. rewrite Hstep. simpl go_bind.
    assert (cellAt name <$> (done ++ [col]) =
            (cellAt name <$> done) ++ replicate (Z.to_nat 1) emptyCell)
      as Hnew by (rewrite fmap_app; simpl; unfold cellAt; by rewrite Hcell).
    rewrite <- Hnew in Hr'.
    destruct (IH (U ∪ {[name]}) (store grid p r')) as (grid' & Hfold & Hrows').
    + simpl. by eapply rowsMap_update.
    + simpl. rewrite <- Hn. eapply rowsOf_update; eauto.
      split.
      * congruence.
      * rewrite Hn'. apply seen_snoc. by left.
      * rewrite Hn', Hn. exact Hr'.
    + done.
    + intros k q Hk. destruct (Hmiss k q) as (HkU & Hkq & Hkc); [by right|].
      split; [|done]. rewrite elem_of_union, elem_of_singleton.
      intros [Hin| ->]; [done|]. apply Hname.
      by apply (list_elem_of_fmap_2' fst _ (name, q)).
    + done.
    + exists grid'. split; [done|].
      simpl. by rewrite (assoc_L (∪)).
Qed.

Lemma appendColumn_content (done : list inflatedColumn.t) (grid : Grid.t)
    (rows : gmap string nat) (col : inflatedColumn.t) :
  gridInv done grid rows ->
  gridOf done grid ->
  inflatedColumn.wf col = true ->
  Z.of_nat (length done) + 1 < 2 ^ 31 ->
  forall grid' rows',
    appendColumn grid rows col = Ok (grid', rows') ->
    gridOf (done ++ [col]) grid'.
Proof.
  intros [Hcols Hmap Hrows Habs] Hof Hwf Hbound grid' rows'.
  apply inflatedColumn_wf_inv in Hwf as [Hnd Hwf].
  unfold appendColumn. cbv zeta.
  match goal with |- context [go_fold appendColumnCell ?s _] => set (st0 := s) end.
  assert (colInv done col rows ∅ st0) as Hinv0.
  { split; subst st0; simpl.
    - by rewrite Hcols, fmap_app.
    - done.
    - intros p r Hp. rewrite decide_False by apply not_elem_of_empty. by apply (Hrows p).
    - intros name. by rewrite decide_False by apply not_elem_of_empty.
    - done.
    - done.
    - intros name Hin. by apply not_elem_of_empty in Hin.
    - intros name p Hp. by right. }
  assert (rowsOf done col ∅ (Grid.Rows (cs_grid st0))) as Hof0.
  { intros p r Hp. rewrite decide_False by apply not_elem_of_empty. by apply (Hof p). }
  destruct (appendColumnCells_content done col rows (inflatedColumn.cells col) ∅ st0)
    as (st1 & -> & Hinv1 & Hof1);
    [exact Hinv0 | exact Hof0 | exact Hnd | intros name _; apply not_elem_of_empty |
     | exact Hbound | exact Habs |].
  { intros [name c] Hnc. split; [by apply lookupCell_NoDup | by apply (Hwf (name, c))]. }
  simpl go_bind.
  rewrite (left_id_L ∅ (∪)) in Hinv1, Hof1.
  destruct Hinv1 as [Hcols1 Hmap1 Hrows1 Hmiss1 Hfresh1 Hkeep1 Hdom1 Horig1].
  assert (forall name p, (name, p) ∈ map_to_list (cs_missing st1) ->
            (name ∉ (list_to_set (inflatedColumn.cells col).*1 : gset string)) /\
            cs_rows st1 !! name = Some p /\
            lookupCell name (inflatedColumn.cells col) = None) as Hmissing.
  { intros name p Hin. apply elem_of_map_to_list in Hin.
    rewrite Hmiss1 in Hin.
    destruct (decide (name ∈ (list_to_set (inflatedColumn.cells col).*1 : gset string)))
      as [?|Hnot]; [done|].
    split; [done|]. split; [by apply Hkeep1|].
    apply lookupCell_None. by rewrite elem_of_list_to_set in Hnot. }
  destruct (appendMissing_spec done col (cs_rows st1) (map_to_list (cs_missing st1))
              (list_to_set (inflatedColumn.cells col).*1) (cs_grid st1))
    as (grid1 & Hfold & Hcols' & Hmap' & _);
    [exact Hmap1 | exact Hrows1 | apply NoDup_fst_map_to_list | exact Hmissing | exact Hbound |].
  destruct (appendMissing_content done col (cs_rows st1) (map_to_list (cs_missing st1))
              (list_to_set (inflatedColumn.cells col).*1) (cs_grid st1))
    as (grid2 & Hfold2 & Hof');
    [exact Hmap1 | exact Hof1 | apply NoDup_fst_map_to_list | exact Hmissing | exact Hbound |].
  rewrite Hfold in Hfold2. injection Hfold2 as <-.
  rewrite Hfold. simpl go_bind. intros [= <- <-].
  intros p r Hp. specialize (Hof' p r Hp).
  rewrite decide_True in Hof'; [done|].
  assert (cs_rows st1 !! Row.Name r = Some p) as Hrp by (apply Hmap'; eauto).
  rewrite elem_of_union.
  destruct (Horig1 _ _ Hrp) as [Hin|Hin]; [by left|].
  destruct (decide (Row.Name r ∈ (list_to_set (inflatedColumn.cells col).*1 : gset string)))
    as [?|Hnot]; [by left|right].
  rewrite elem_of_list_to_set.
  apply (list_elem_of_fmap_2' fst _ (Row.Name r, p)); [|done].
  apply elem_of_map_to_list. rewrite Hmiss1. by rewrite decide_False.
Qed.

(** ** The grid after every column *)

Lemma maximalRuns_encode (d : list Z) : maximalRuns (encode d).
Proof.
  induction d as [|r d IH]; simpl; [done|].
  pose proof (encode_length d) as Hlen.
  destruct (encode d) as [|c [|n rest]]; simpl in *.
  - split; [lia|done].
  - done.
  - destruct (Z.eqb_spec r c) as [->|Hne]; simpl.
    + destruct IH as (Hn & Hc & Hrest). split; [lia|done].
    + split; [lia|]. done.
Qed.

Lemma rowOf_set_AlertInfo (ds : list inflatedColumn.t) (info : option AlertInfo.t) (r : Row.t) :
  rowOf ds r -> rowOf ds (Row.set_AlertInfo info r).
Proof.
  intros [Hid Hseen [Hres [Hids Hmsg Hico Hnames Hnodup Hlisted Hall]]].
  split; [done|done|]. split; [done|]. by split.
Qed.

Lemma gridOf_alertRows (done : list inflatedColumn.t) (grid : Grid.t)
    (fto ptc : Z) (rs : list Row.t) :
  gridOf done grid ->
  alertRows (Grid.Columns grid) (Grid.Rows grid) fto ptc = Ok rs ->
  gridOf done (Grid.Build (Grid.Columns grid) rs).
Proof.
  intros Hof Hrs p r' Hp. apply alertRows_inv in Hrs. simpl in Hp.
  destruct (Forall2_lookup_r _ _ _ _ _ Hrs Hp) as (r & Hr & info & _ & ->).
  apply rowOf_set_AlertInfo. by apply (Hof p).
Qed.

Lemma constructStep_content (done : list inflatedColumn.t) (grid : Grid.t)
    (rows : gmap string nat) (col : inflatedColumn.t) (fto ptc : Z) :
  gridInv done grid rows ->
  gridOf done grid ->
  inflatedColumn.wf col = true ->
  Z.of_nat (length done) + 1 < 2 ^ 31 ->
  forall st', constructStep fto ptc (grid, rows) col = Ok st' ->
              gridOf (done ++ [col]) st'.1.
Proof.
  intros Hinv Hof Hwf Hbound st'.
  pose proof (appendColumn_content done grid rows col Hinv Hof Hwf Hbound) as Hcont.
  unfold constructStep. simpl fst. simpl snd.
  destruct (appendColumn grid rows col) as [[grid1 rows1]|]; [|done].
  specialize (Hcont grid1 rows1 eq_refl). simpl go_bind.
  destruct (alertRows (Grid.Columns grid1) (Grid.Rows grid1) fto ptc) as [rs|] eqn:Ers;
    [|done].
  simpl. intros [= <-]. simpl. by eapply gridOf_alertRows.
Qed.

Lemma constructFold_content (fto ptc : Z) (cols : list inflatedColumn.t) :
  forall (done : list inflatedColumn.t) (grid : Grid.t) (rows : gmap string nat),
    gridInv done grid rows ->
    gridOf done grid ->
    forallb inflatedColumn.wf cols = true ->
    Z.of_nat (length done) + Z.of_nat (length cols) < 2 ^ 31 ->
    forall st', go_fold (constructStep fto ptc) (grid, rows) cols = Ok st' ->
                gridOf (done ++ cols) st'.1.
Proof.
  induction cols as [|col cols IH]; intros done grid rows Hinv Hof Hwf Hbound st'.
  - simpl. intros [= <-]. by rewrite app_nil_r.
  - simpl in Hwf. apply andb_true_iff in Hwf as [Hwf Hwfs].
    simpl length in Hbound.
    destruct (constructStep_inv done grid rows col fto ptc Hinv Hwf) as [Hstep _]; [lia|].
    pose proof (constructStep_content done grid rows col fto ptc Hinv Hof Hwf) as Hcont.
    simpl go_fold.
    destruct (constructStep fto ptc (grid, rows) col) as [[g1 r1]|]; [|done].
    simpl go_bind. intros Hfold.
    replace (done ++ col :: cols) with ((done ++ [col]) ++ cols)
      by (by rewrite <- app_assoc).
    apply (IH (done ++ [col]) g1 r1); try done.
    + by apply (Hstep (g1, r1)).
    + apply (Hcont ltac:(lia) (g1, r1)). done.
    + rewrite length_app. simpl. lia.
Qed.

Lemma gridOf_empty : gridOf [] Grid.empty.
Proof. intros p r Hp. done. Qed.

Lemma resultAt_cellAt (name : string) (col : inflatedColumn.t) :
  cell.result (cellAt name col) = resultAt name col.
Proof. unfold cellAt, resultAt. by destruct (lookupCell name _). Qed.

Lemma samples_nonempty (k : string) (cs : list cell.t) :
  forall i, samples k i cs <> [] <->
            exists c, c ∈ cs /\ hasResult c = true /\ k ∈ (cell.metrics c).*1.
Proof.
  induction cs as [|c cs IH]; intros i; simpl.
  - split; [done|]. intros (c & Hc & _). by apply elem_of_nil in Hc.
  - split.
    + intros Hne. destruct (sampleAt k i c) eqn:Es.
      * simpl in Hne. apply IH in Hne as (c' & Hc' & H'). exists c'. split; [by right|done].
      * exists c. split; [left|]. unfold sampleAt in Es.
        destruct (hasResult c); [|done]. split; [done|].
        destruct (lookupMetric k (cell.metrics c)) eqn:El; [|done].
        destruct (decide (k ∈ (cell.metrics c).*1)) as [|Hnot]; [done|].
        apply lookupMetric_None in Hnot. congruence.
    + intros (c' & [->|Hc']%elem_of_cons & Hr & Hk).
      * destruct (lookupMetric k (cell.metrics c)) as [v|] eqn:El;
          [|by apply lookupMetric_None in El].
        by rewrite (sampleAt_Some k i c v).
      * assert (samples k (i + 1) cs <> []) as Hne by (apply IH; eauto).
        intros Heq. apply app_eq_nil in Heq as [_ Heq]. done.
Qed.

Section ContentOfGrid.
Variable NaturalLess : string -> string -> bool.

Lemma constructGrid_content (group : TestGroup.t) (cols : list inflatedColumn.t) :
  forallb inflatedColumn.wf cols = true ->
  Z.of_nat (length cols) < 2 ^ 31 ->
  forall g, constructGrid NaturalLess group cols = Ok g ->
    exists grid0 rows0,
      gridInv cols grid0 rows0 /\ gridOf cols grid0 /\ g = sortGrid NaturalLess grid0.
Proof.
  intros Hwf Hbound g.
  destruct (constructFold_inv (failsOpenOf group) (passesCloseOf group) cols
              [] Grid.empty ∅ gridInv_empty Hwf) as [Hinv _]; [simpl; lia|].
  pose proof (constructFold_content (failsOpenOf group) (passesCloseOf group) cols
                [] Grid.empty ∅ gridInv_empty gridOf_empty Hwf) as Hof.
  unfold constructGrid.
  destruct (go_fold _ _ cols) as [[grid0 rows0]|]; [|done].
  simpl. intros [= <-]. exists grid0, rows0.
  split; [by apply (Hinv (grid0, rows0))|]. split; [|done].
  apply (Hof ltac:(simpl; lia) (grid0, rows0)). done.
Qed.

Lemma sortGrid_row_of (grid : Grid.t) (r0 : Row.t) :
  r0 ∈ Grid.Rows grid -> sortRow NaturalLess r0 ∈ Grid.Rows (sortGrid NaturalLess grid).
Proof.
  intros Hr0. simpl. apply list_elem_of_fmap_2. by rewrite SliceStable_perm.
Qed.

(** X1.  The rows of a grid are the tests of its columns.
    On columns with distinct keys, fewer than [2^31] of them,
    [constructGrid] returns whenever the alert threshold is not negative,
    and in every grid it returns a name is the name of a row exactly
    when some column has a cell for that test; the [Id] of every row is its
    [Name]. *)
Theorem constructGrid_rows (group : TestGroup.t) (cols : list inflatedColumn.t) :
  forallb inflatedColumn.wf cols = true ->
  Z.of_nat (length cols) < 2 ^ 31 ->
  (0 <= TestGroup.NumFailuresToAlert group ->
   exists g, constructGrid NaturalLess group cols = Ok g) /\
  forall g, constructGrid NaturalLess group cols = Ok g ->
    (forall name, name ∈ Row.Name <$> Grid.Rows g <->
                  exists col, col ∈ cols /\ name ∈ (inflatedColumn.cells col).*1) /\
    forall row, row ∈ Grid.Rows g -> Row.Id row = Row.Name row.
Proof.
  intros Hwf Hbound.
  destruct (constructGrid_inv NaturalLess group cols Hwf Hbound) as [_ Hret].
  split; [done|]. intros g Hg.
  destruct (constructGrid_content group cols Hwf Hbound g Hg)
    as (grid0 & rows0 & [Hcols Hmap Hrows Habs] & Hof & ->).
  split.
  - intros name. split.
    + intros (row & -> & Hrow)%list_elem_of_fmap.
      apply sortGrid_rows in Hrow as (r0 & Hr0 & ->).
      apply list_elem_of_lookup in Hr0 as [p Hp].
      destruct (Hof p r0 Hp) as [_ Hseen _]. done.
    + intros (col & Hcol & Hin).
      destruct (rows0 !! name) as [p|] eqn:Ep.
      * apply Hmap in Ep as (r & Hp & <-).
        apply (list_elem_of_fmap_2' Row.Name _ (sortRow NaturalLess r)); [|done].
        apply sortGrid_row_of. by eapply list_elem_of_lookup_2.
      * exfalso. pose proof (Habs name Ep col Hcol) as Hnone.
        by apply lookupCell_None in Hnone.
  - intros row Hrow.
    apply sortGrid_rows in Hrow as (r0 & Hr0 & ->).
    apply list_elem_of_lookup in Hr0 as [p Hp].
    destruct (Hof p r0 Hp) as [Hid _ _]. done.
Qed.

(** X2.  The cell ids, messages and icons of a row.
    On columns with distinct keys, fewer than [2^31] of them,
    [constructGrid] returns whenever the alert threshold is not negative,
    and in every grid it returns every row has, column by column, the
    cell id of its test's cell (that of [emptyCell] where the column does
    not have the test), and the messages and the icons of those of these
    cells that hold a result, in the order of the columns. *)
Theorem constructGrid_side_content (group : TestGroup.t) (cols : list inflatedColumn.t) :
  forallb inflatedColumn.wf cols = true ->
  Z.of_nat (length cols) < 2 ^ 31 ->
  (0 <= TestGroup.NumFailuresToAlert group ->
   exists g, constructGrid NaturalLess group cols = Ok g) /\
  forall g, constructGrid NaturalLess group cols = Ok g ->
    forall row, row ∈ Grid.Rows g ->
      let cells := cellAt (Row.Name row) <$> cols in
      Row.CellIds row = cell.cellID <$> cells /\
      Row.Messages row = cell.message <$> List.filter hasResult cells /\
      Row.Icons row = cell.icon <$> List.filter hasResult cells.
Proof.
  intros Hwf Hbound.
  destruct (constructGrid_inv NaturalLess group cols Hwf Hbound) as [_ Hret].
  split; [done|]. intros g Hg.
  destruct (constructGrid_content group cols Hwf Hbound g Hg)
    as (grid0 & rows0 & _ & Hof & ->).
  intros row Hrow.
  apply sortGrid_rows in Hrow as (r0 & Hr0 & ->).
  apply list_elem_of_lookup in Hr0 as [p Hp].
  destruct (Hof p r0 Hp) as [_ _ [_ [Hids Hmsg Hico _ _ _ _]]].
  simpl. done.
Qed.

(** X3.  Results are compressed with maximal runs.
    On columns with distinct keys, fewer than [2^31] of them,
    [constructGrid] returns whenever the alert threshold is not negative,
    and in every grid it returns the results of every row are the
    run-length encoding of its test's results in the columns in which every
    run has a positive length and no two adjacent runs hold the same code. *)
Theorem constructGrid_results_compressed (group : TestGroup.t) (cols : list inflatedColumn.t) :
  forallb inflatedColumn.wf cols = true ->
  Z.of_nat (length cols) < 2 ^ 31 ->
  (0 <= TestGroup.NumFailuresToAlert group ->
   exists g, constructGrid NaturalLess group cols = Ok g) /\
  forall g, constructGrid NaturalLess group cols = Ok g ->
    forall row, row ∈ Grid.Rows g ->
      Row.Results row = encode (resultAt (Row.Name row) <$> cols) /\
      maximalRuns (Row.Results row).
Proof.
  intros Hwf Hbound.
  destruct (constructGrid_inv NaturalLess group cols Hwf Hbound) as [_ Hret].
  split; [done|]. intros g Hg.
  destruct (constructGrid_content group cols Hwf Hbound g Hg)
    as (grid0 & rows0 & _ & Hof & ->).
  intros row Hrow.
  apply sortGrid_rows in Hrow as (r0 & Hr0 & ->).
  apply list_elem_of_lookup in Hr0 as [p Hp].
  destruct (Hof p r0 Hp) as [_ _ [Hres _]].
  simpl. rewrite Hres, <- list_fmap_compose.
  assert (cell.result ∘ cellAt (Row.Name r0) <$> cols = resultAt (Row.Name r0) <$> cols) as ->.
  { apply list_fmap_ext. intros i col _. apply resultAt_cellAt. }
  split; [done|apply maximalRuns_encode].
Qed.

(** X4.  The metric names of a row.
    On columns with distinct keys, fewer than [2^31] of them,
    [constructGrid] returns whenever the alert threshold is not negative,
    and in every grid it returns the metric names of every row are
    distinct, and a name is among them exactly when some column's cell of
    the row's test holds a result and carries a metric of that name. *)
Theorem constructGrid_metric_names (group : TestGroup.t) (cols : list inflatedColumn.t) :
  forallb inflatedColumn.wf cols = true ->
  Z.of_nat (length cols) < 2 ^ 31 ->
  (0 <= TestGroup.NumFailuresToAlert group ->
   exists g, constructGrid NaturalLess group cols = Ok g) /\
  forall g, constructGrid NaturalLess group cols = Ok g ->
    forall row, row ∈ Grid.Rows g ->
      NoDup (Row.Metric row) /\
      forall k, k ∈ Row.Metric row <->
                exists col, col ∈ cols /\
                            hasResult (cellAt (Row.Name row) col) = true /\
                            k ∈ (cell.metrics (cellAt (Row.Name row) col)).*1.
Proof.
  intros Hwf Hbound.
  destruct (constructGrid_inv NaturalLess group cols Hwf Hbound) as [_ Hret].
  split; [done|]. intros g Hg.
  destruct (constructGrid_content group cols Hwf Hbound g Hg)
    as (grid0 & rows0 & _ & Hof & ->).
  intros row Hrow.
  apply sortGrid_rows in Hrow as (r0 & Hr0 & ->).
  apply list_elem_of_lookup in Hr0 as [p Hp].
  destruct (Hof p r0 Hp) as [_ _ [_ [_ _ _ _ Hnodup Hlisted _]]].
  simpl. split; [by rewrite SliceStable_perm|].
  intros k. rewrite SliceStable_perm, Hlisted, samples_nonempty. split.
  - intros (c & (col & -> & Hcol)%list_elem_of_fmap & Hr & Hk). by exists col.
  - intros (col & Hcol & Hr & Hk). exists (cellAt (Row.Name r0) col).
    split; [by apply list_elem_of_fmap_2|done].
Qed.

(** X5.  The series of a row decode to the samples of their metric.
    On columns with distinct keys, fewer than [2^31] of them,
    [constructGrid] returns whenever the alert threshold is not negative,
    and in every grid it returns the indices of every series of every
    row, expanded, and its values are, pair by pair, the column index and
    the value of its metric in the cells of the row's test that hold a
    result and carry the metric; the indices are the sparse encoding with
    maximal runs of these column indices; and there is at least one
    sample. *)
Theorem constructGrid_metric_samples (group : TestGroup.t) (cols : list inflatedColumn.t) :
  forallb inflatedColumn.wf cols = true ->
  Z.of_nat (length cols) < 2 ^ 31 ->
  (0 <= TestGroup.NumFailuresToAlert group ->
   exists g, constructGrid NaturalLess group cols = Ok g) /\
  forall g, constructGrid NaturalLess group cols = Ok g ->
    forall row m, row ∈ Grid.Rows g -> m ∈ Row.Metrics row ->
      let taken := samples (Metric.Name m) 0 (cellAt (Row.Name row) <$> cols) in
      zip (expand (Metric.Indices m)) (Metric.Values m) = taken /\
      Metric.Indices m = encodeIdx taken.*1 /\
      taken <> [].
Proof.
  intros Hwf Hbound.
  destruct (constructGrid_inv NaturalLess group cols Hwf Hbound) as [_ Hret].
  split; [done|]. intros g Hg.
  destruct (constructGrid_content group cols Hwf Hbound g Hg)
    as (grid0 & rows0 & _ & Hof & ->).
  intros row m Hrow Hm.
  apply sortGrid_rows in Hrow as (r0 & Hr0 & ->).
  apply list_elem_of_lookup in Hr0 as [p Hp].
  destruct (Hof p r0 Hp) as [_ _ [_ [_ _ _ Hnames _ Hlisted Hall]]].
  simpl in Hm |- *. rewrite SliceStable_perm in Hm.
  rewrite Forall_forall in Hall. destruct (Hall m Hm) as [Hi Hv].
  split; [|split; [done|]].
  - rewrite Hi, Hv, expand_encodeIdx. apply zip_fst_snd.
  - apply Hlisted. rewrite <- Hnames. by apply list_elem_of_fmap_2.
Qed.
End ContentOfGrid.

Lemma constructGrid_rows_witness :
  (0 <= TestGroup.NumFailuresToAlert example_group ->
   exists g, constructGrid sortorder.NaturalLess example_group example_columns = Ok g) /\
  forall g, constructGrid sortorder.NaturalLess example_group example_columns = Ok g ->
    (forall name, name ∈ Row.Name <$> Grid.Rows g <->
                  exists col, col ∈ example_columns /\
                              name ∈ (inflatedColumn.cells col).*1) /\
    forall row, row ∈ Grid.Rows g -> Row.Id row = Row.Name row.
Proof.
  apply (constructGrid_rows sortorder.NaturalLess example_group example_columns);
    [vm_compute; reflexivity | simpl; lia].
Defined.

Lemma constructGrid_side_content_witness :
  (0 <= TestGroup.NumFailuresToAlert example_group ->
   exists g, constructGrid sortorder.NaturalLess example_group example_columns = Ok g) /\
  forall g, constructGrid sortorder.NaturalLess example_group example_columns = Ok g ->
    forall row, row ∈ Grid.Rows g ->
      let cells := cellAt (Row.Name row) <$> example_columns in
      Row.CellIds row = cell.cellID <$> cells /\
      Row.Messages row = cell.message <$> List.filter hasResult cells /\
      Row.Icons row = cell.icon <$> List.filter hasResult cells.
Proof.
  apply (constructGrid_side_content sortorder.NaturalLess example_group example_columns);
    [vm_compute; reflexivity | simpl; lia].
Defined.

Lemma constructGrid_results_compressed_witness :
  (0 <= TestGroup.NumFailuresToAlert example_group ->
   exists g, constructGrid sortorder.NaturalLess example_group example_columns = Ok g) /\
  forall g, constructGrid sortorder.NaturalLess example_group example_columns = Ok g ->
    forall row, row ∈ Grid.Rows g ->
      Row.Results row = encode (resultAt (Row.Name row) <$> example_columns) /\
      maximalRuns (Row.Results row).
Proof.
  apply (constructGrid_results_compressed sortorder.NaturalLess example_group example_columns);
    [vm_compute; reflexivity | simpl; lia].
Defined.

Lemma constructGrid_metric_names_witness :
  (0 <= TestGroup.NumFailuresToAlert example_group ->
   exists g, constructGrid sortorder.NaturalLess example_group example_columns = Ok g) /\
  forall g, constructGrid sortorder.NaturalLess example_group example_columns = Ok g ->
    forall row, row ∈ Grid.Rows g ->
      NoDup (Row.Metric row) /\
      forall k, k ∈ Row.Metric row <->
                exists col, col ∈ example_columns /\
                            hasResult (cellAt (Row.Name row) col) = true /\
                            k ∈ (cell.metrics (cellAt (Row.Name row) col)).*1.
Proof.
  apply (constructGrid_metric_names sortorder.NaturalLess example_group example_columns);
    [vm_compute; reflexivity | simpl; lia].
Defined.

Lemma constructGrid_metric_samples_witness :
  (0 <= TestGroup.NumFailuresToAlert example_group ->
   exists g, constructGrid sortorder.NaturalLess example_group example_columns = Ok g) /\
  forall g, constructGrid sortorder.NaturalLess example_group example_columns = Ok g ->
    forall row m, row ∈ Grid.Rows g -> m ∈ Row.Metrics row ->
      let taken := samples (Metric.Name m) 0 (cellAt (Row.Name row) <$> example_columns) in
      zip (expand (Metric.Indices m)) (Metric.Values m) = taken /\
      Metric.Indices m = encodeIdx taken.*1 /\
      taken <> [].
Proof.
  apply (constructGrid_metric_samples sortorder.NaturalLess example_group example_columns);
    [vm_compute; reflexivity | simpl; lia].
Defined.

(** * The grid as a function of the maps *)

Lemma sameCell_refl (c : cell.t) : sameCell c c.
Proof. by repeat split. Qed.

Lemma sameCell_cellAt (name : string) (col col' : inflatedColumn.t) :
  sameColumn col col' -> sameCell (cellAt name col) (cellAt name col').
Proof.
  intros [_ H]. specialize (H name). unfold cellAt.
  destruct (lookupCell name (inflatedColumn.cells col)),
           (lookupCell name (inflatedColumn.cells col')); try done.
Qed.

Lemma sameCells_cellAt (name : string) (cols cols' : list inflatedColumn.t) :
  Forall2 sameColumn cols cols' ->
  Forall2 sameCell (cellAt name <$> cols) (cellAt name <$> cols').
Proof.
  induction 1 as [|col col' cols cols' Hc _ IH]; [constructor|].
  rewrite !fmap_cons. constructor; [by apply sameCell_cellAt|done].
Qed.

Lemma sameCell_hasResult (c c' : cell.t) : sameCell c c' -> hasResult c = hasResult c'.
Proof. intros (Hr & _). unfold hasResult. by rewrite Hr. Qed.

Lemma sameCell_sampleAt (k : string) (i : Z) (c c' : cell.t) :
  sameCell c c' -> sampleAt k i c = sampleAt k i c'.
Proof.
  intros Hc. unfold sampleAt. rewrite (sameCell_hasResult c c' Hc).
  destruct Hc as (_ & _ & _ & _ & Hm). by rewrite Hm.
Qed.

Lemma sameCells_samples (k : string) (cs cs' : list cell.t) :
  Forall2 sameCell cs cs' -> forall i, samples k i cs = samples k i cs'.
Proof.
  induction 1 as [|c c' cs cs' Hc _ IH]; intros i; [done|].
  simpl. by rewrite (sameCell_sampleAt k i c c' Hc), IH.
Qed.

Lemma sameCells_fields (cs cs' : list cell.t) :
  Forall2 sameCell cs cs' ->
  cell.result <$> cs = cell.result <$> cs' /\
  cell.cellID <$> cs = cell.cellID <$> cs' /\
  cell.message <$> List.filter hasResult cs = cell.message <$> List.filter hasResult cs' /\
  cell.icon <$> List.filter hasResult cs = cell.icon <$> List.filter hasResult cs'.
Proof.
  induction 1 as [|c c' cs cs' Hc _ (IH1 & IH2 & IH3 & IH4)]; [done|].
  pose proof (sameCell_hasResult c c' Hc) as Hh.
  destruct Hc as (Hr & Hi & Hm & Hic & _).
  rewrite !fmap_cons. simpl List.filter. rewrite Hh, Hr, Hi, IH1, IH2.
  split; [done|]. split; [done|].
  destruct (hasResult c'); rewrite ?fmap_cons, ?Hm, ?Hic, ?IH3, ?IH4; done.
Qed.

Lemma sameColumn_seen (name : string) (cols cols' : list inflatedColumn.t) :
  Forall2 sameColumn cols cols' -> seen name cols -> seen name cols'.
Proof.
  intros Hall (d & Hd & Hin).
  apply list_elem_of_lookup in Hd as [i Hi].
  destruct (Forall2_lookup_l _ _ _ _ _ Hall Hi) as (d' & Hi' & [_ Hsame]).
  exists d'. split; [by eapply list_elem_of_lookup_2|].
  specialize (Hsame name).
  destruct (decide (name ∈ (inflatedColumn.cells d').*1)) as [|Hnot]; [done|].
  apply lookupCell_None in Hnot. rewrite Hnot in Hsame.
  destruct (lookupCell name (inflatedColumn.cells d)) eqn:E; [done|].
  by apply lookupCell_None in E.
Qed.

Lemma alertRow_ext (cols : list (option Column.t)) (r r' : Row.t) (fto ptc : Z) :
  Row.Results r = Row.Results r' -> Row.Messages r = Row.Messages r' ->
  Row.CellIds r = Row.CellIds r' ->
  alertRow cols r fto ptc = alertRow cols r' fto ptc.
Proof. intros H1 H2 H3. unfold alertRow, alertInit. by rewrite H1, H2, H3. Qed.

Lemma metricContent_seriesOf (cs : list cell.t) (m : Metric.t) :
  metricContent cs m <-> m = seriesOf cs (Metric.Name m).
Proof.
  unfold metricContent, seriesOf. destruct m as [k ix vs]. simpl. split.
  - by intros [-> ->].
  - by intros [= -> ->].
Qed.

Lemma series_determined (cs : list cell.t) (names : list string) (ms : list Metric.t) :
  Metric.Name <$> ms = names -> Forall (metricContent cs) ms -> ms = seriesOf cs <$> names.
Proof.
  intros <- Hall. induction Hall as [|m ms Hm _ IH]; [done|].
  rewrite !fmap_cons, <- IH. f_equal. by apply metricContent_seriesOf.
Qed.

Lemma StronglySorted_fmap_inv {A B : Type} (f : A -> B) (R : relation B) (l : list A) :
  StronglySorted R (f <$> l) -> StronglySorted (fun a b => R (f a) (f b)) l.
Proof.
  induction l as [|x l IH]; [constructor|].
  rewrite fmap_cons. intros [Hall Hs]%StronglySorted_cons.
  constructor; [by apply IH|].
  apply Forall_forall. intros y Hy. rewrite Forall_forall in Hall.
  apply Hall. by apply list_elem_of_fmap_2.
Qed.

Section MapOrder.
Variable NaturalLess : string -> string -> bool.
Hypothesis Hasym :
  forall a b, NaturalLess a b = true -> NaturalLess b a = false.
Hypothesis Hnegtrans :
  forall a b c, NaturalLess a b = false -> NaturalLess b c = false -> NaturalLess a c = false.
Hypothesis Htotal :
  forall a b, NaturalLess a b = false -> NaturalLess b a = false -> a = b.

Lemma sorted_names_unique (l l' : list string) :
  NoDup l -> NoDup l' -> (forall k, k ∈ l <-> k ∈ l') ->
  SliceStable NaturalLess l = SliceStable NaturalLess l'.
Proof.
  intros Hnd Hnd' Hsame.
  apply (StronglySorted_unique_strong (notAfter NaturalLess)).
  - intros x1 x2 _ _ H1 H2. by apply Htotal.
  - by apply SliceStable_sorted.
  - by apply SliceStable_sorted.
  - rewrite !SliceStable_perm. by apply NoDup_Permutation.
Qed.

Lemma sorted_series (cs : list cell.t) (ms : list Metric.t) :
  Forall (metricContent cs) ms ->
  SliceStable (fun a b => NaturalLess (Metric.Name a) (Metric.Name b)) ms =
  seriesOf cs <$> SliceStable NaturalLess (Metric.Name <$> ms).
Proof.
  intros Hall.
  rewrite <- (SliceStable_fmap Metric.Name NaturalLess).
  apply series_determined; [done|].
  apply Forall_forall. intros m Hm. rewrite SliceStable_perm in Hm.
  rewrite Forall_forall in Hall. by apply Hall.
Qed.

(** The sorted row of a test is a function of the cells of the test. *)
Lemma sortRow_determined (cs cs' : list cell.t) (r r' : Row.t) :
  Forall2 sameCell cs cs' ->
  rowContent cs r -> rowContent cs' r' ->
  Row.Name r = Row.Name r' -> Row.Id r = Row.Id r' ->
  Row.AlertInfo r = Row.AlertInfo r' ->
  sortRow NaturalLess r = sortRow NaturalLess r'.
Proof.
  intros Hsame [Hres [Hids Hmsg Hico Hnames Hnodup Hlisted Hall]]
         [Hres' [Hids' Hmsg' Hico' Hnames' Hnodup' Hlisted' Hall']] Hname Hid Hinfo.
  destruct (sameCells_fields cs cs' Hsame) as (E1 & E2 & E3 & E4).
  assert (forall k, samples k 0 cs = samples k 0 cs') as Es
    by (intros k; by apply sameCells_samples).
  assert (SliceStable NaturalLess (Row.Metric r) = SliceStable NaturalLess (Row.Metric r'))
    as Emetric.
  { apply sorted_names_unique; [done|done|]. intros k. by rewrite Hlisted, Hlisted', Es. }
  assert (Forall (metricContent cs) (Row.Metrics r')) as Hall''.
  { eapply Forall_impl; [exact Hall'|]. intros m. unfold metricContent. by rewrite !Es. }
  destruct r, r'. unfold sortRow. simpl in *.
  rewrite (sorted_series cs _ Hall), (sorted_series cs _ Hall'').
  rewrite Hnames, Hnames', Emetric.
  rewrite Hres, Hres', Hids, Hids', Hmsg, Hmsg', Hico, Hico', E1, E2, E3, E4.
  by rewrite Hname, Hid, Hinfo.
Qed.

Lemma sameCell_sym (c c' : cell.t) : sameCell c c' -> sameCell c' c.
Proof. intros (H1 & H2 & H3 & H4 & H5). by repeat split. Qed.

Lemma sameColumn_sym (col col' : inflatedColumn.t) : sameColumn col col' -> sameColumn col' col.
Proof.
  intros [Hc H]. split; [done|]. intros name. specialize (H name).
  destruct (lookupCell name (inflatedColumn.cells col)),
           (lookupCell name (inflatedColumn.cells col')); try done.
  by apply sameCell_sym.
Qed.

Lemma sortGrid_names (grid : Grid.t) :
  Row.Name <$> Grid.Rows (sortGrid NaturalLess grid) =
  SliceStable NaturalLess (Row.Name <$> Grid.Rows grid).
Proof.
  simpl. rewrite <- list_fmap_compose.
  rewrite <- (SliceStable_fmap Row.Name NaturalLess).
  apply list_fmap_ext. by intros i [] _.
Qed.

(** Rows of the same name in the grids of two listings are the same row. *)
Lemma constructGrid_same_row (group : TestGroup.t) (cols cols' : list inflatedColumn.t)
    (g g' : Grid.t) :
  forallb inflatedColumn.wf cols = true ->
  forallb inflatedColumn.wf cols' = true ->
  Z.of_nat (length cols) < 2 ^ 31 ->
  Forall2 sameColumn cols cols' ->
  constructGrid NaturalLess group cols = Ok g ->
  constructGrid NaturalLess group cols' = Ok g' ->
  Grid.Columns g = Grid.Columns g' /\
  forall x x', x ∈ Grid.Rows g -> x' ∈ Grid.Rows g' -> Row.Name x = Row.Name x' -> x = x'.
Proof.
  intros Hwf Hwf' Hbound Hsame Hg Hg'.
  assert (Z.of_nat (length cols') < 2 ^ 31) as Hbound'
    by (by rewrite <- (Forall2_length _ _ _ Hsame)).
  pose proof (constructGrid_alerts NaturalLess group cols g Hg) as Halert.
  pose proof (constructGrid_alerts NaturalLess group cols' g' Hg') as Halert'.
  destruct (constructGrid_content NaturalLess group cols Hwf Hbound g Hg)
    as (grid0 & rows0 & [Hcols _ _ _] & Hof & ->).
  destruct (constructGrid_content NaturalLess group cols' Hwf' Hbound' g' Hg')
    as (grid0' & rows0' & [Hcols' _ _ _] & Hof' & ->).
  assert (Grid.Columns (sortGrid NaturalLess grid0) = Grid.Columns (sortGrid NaturalLess grid0'))
    as Ecols.
  { simpl. rewrite Hcols, Hcols'. clear -Hsame.
    induction Hsame as [|c c' l l' [Hc _] _ IH]; [done|]. rewrite !fmap_cons. congruence. }
  split; [done|]. intros x x' Hx Hx' Hname.
  specialize (Halert x Hx). specialize (Halert' x' Hx').
  apply sortGrid_rows in Hx as (r0 & Hr0 & ->).
  apply sortGrid_rows in Hx' as (r0' & Hr0' & ->).
  apply list_elem_of_lookup in Hr0 as [p Hp].
  apply list_elem_of_lookup in Hr0' as [p' Hp'].
  destruct (Hof p r0 Hp) as [Hid _ Hcont].
  destruct (Hof' p' r0' Hp') as [Hid' _ Hcont'].
  assert (Row.Name r0 = Row.Name r0') as Hn by (by destruct r0, r0').
  apply (sortRow_determined (cellAt (Row.Name r0) <$> cols) (cellAt (Row.Name r0') <$> cols'));
    try done.
  - rewrite <- Hn. by apply sameCells_cellAt.
  - congruence.
  - destruct (sameCells_fields _ _ (sameCells_cellAt (Row.Name r0) cols cols' Hsame))
      as (E1 & E2 & E3 & _).
    destruct Hcont as [Hres [Hids Hmsg _ _ _ _ _]].
    destruct Hcont' as [Hres' [Hids' Hmsg' _ _ _ _ _]].
    rewrite <- Hn in Hres', Hids', Hmsg'.
    rewrite (alertRow_sortRow NaturalLess) in Halert, Halert'.
    rewrite Ecols in Halert.
    rewrite (alertRow_ext _ r0 r0') in Halert by congruence.
    rewrite Halert' in Halert. injection Halert as Hinfo.
    by destruct r0, r0'.
Qed.

Lemma constructGrid_rows_included (group : TestGroup.t) (cols cols' : list inflatedColumn.t)
    (g g' : Grid.t) :
  forallb inflatedColumn.wf cols = true ->
  forallb inflatedColumn.wf cols' = true ->
  Z.of_nat (length cols) < 2 ^ 31 ->
  Forall2 sameColumn cols cols' ->
  constructGrid NaturalLess group cols = Ok g ->
  constructGrid NaturalLess group cols' = Ok g' ->
  forall x, x ∈ Grid.Rows g -> x ∈ Grid.Rows g'.
Proof.
  intros Hwf Hwf' Hbound Hsame Hg Hg' x Hx.
  assert (Z.of_nat (length cols') < 2 ^ 31) as Hbound'
    by (by rewrite <- (Forall2_length _ _ _ Hsame)).
  destruct (constructGrid_same_row group cols cols' g g' Hwf Hwf' Hbound Hsame Hg Hg')
    as [_ Hrow].
  destruct (constructGrid_content NaturalLess group cols Hwf Hbound g Hg)
    as (grid0 & rows0 & _ & Hof & Eg).
  destruct (constructGrid_content NaturalLess group cols' Hwf' Hbound' g' Hg')
    as (grid0' & rows0' & [_ Hmap' _ Habs'] & _ & Eg').
  assert (seen (Row.Name x) cols') as (d' & Hd' & Hin').
  { apply (sameColumn_seen _ cols cols' Hsame).
    rewrite Eg in Hx. apply sortGrid_rows in Hx as (r0 & Hr0 & ->).
    apply list_elem_of_lookup in Hr0 as [p Hp].
    destruct (Hof p r0 Hp) as [_ Hseen _]. by destruct r0. }
  destruct (rows0' !! Row.Name x) as [p'|] eqn:Ep'.
  - apply Hmap' in Ep' as (r' & Hp' & Hn').
    assert (sortRow NaturalLess r' ∈ Grid.Rows g') as Hin.
    { rewrite Eg'. apply sortGrid_row_of. by eapply list_elem_of_lookup_2. }
    rewrite (Hrow x (sortRow NaturalLess r') Hx Hin); [done|].
    rewrite <- Hn'. by destruct r'.
  - exfalso. pose proof (Habs' _ Ep' d' Hd') as Hnone.
    by apply lookupCell_None in Hnone.
Qed.

(** X6.  The grid does not depend on the order in which a map is listed.
    For a comparison of names that is a strict weak order and tells any two
    names apart: two lists of columns with distinct keys (fewer than [2^31]
    columns) that hold, column by column, the same header and the same
    cell for every test (the same fields, the same value for every metric),
    in whatever order each map is listed, give the same grid whenever
    [constructGrid] returns on both; and it does return on both whenever
    the alert threshold is not negative. *)
Theorem constructGrid_map_order (group : TestGroup.t) (cols cols' : list inflatedColumn.t) :
  forallb inflatedColumn.wf cols = true ->
  forallb inflatedColumn.wf cols' = true ->
  Z.of_nat (length cols) < 2 ^ 31 ->
  Forall2 sameColumn cols cols' ->
  (forall g g', constructGrid NaturalLess group cols = Ok g ->
                constructGrid NaturalLess group cols' = Ok g' -> g = g') /\
  (0 <= TestGroup.NumFailuresToAlert group ->
   exists g, constructGrid NaturalLess group cols = Ok g /\
             constructGrid NaturalLess group cols' = Ok g).
Proof.
  intros Hwf Hwf' Hbound Hsame.
  assert (Z.of_nat (length cols') < 2 ^ 31) as Hbound'
    by (by rewrite <- (Forall2_length _ _ _ Hsame)).
  assert (Forall2 sameColumn cols' cols) as Hsame'.
  { apply Forall2_flip. eapply Forall2_impl; [exact Hsame|]. apply sameColumn_sym. }
  assert (forall g g', constructGrid NaturalLess group cols = Ok g ->
                       constructGrid NaturalLess group cols' = Ok g' -> g = g') as Hsame_grid.
  { intros g g' Hg Hg'.
    destruct (constructGrid_same_row group cols cols' g g' Hwf Hwf' Hbound Hsame Hg Hg')
      as [Ecols Hrow].
    pose proof (constructGrid_rows_included group cols cols' g g'
                  Hwf Hwf' Hbound Hsame Hg Hg') as Hincl.
    pose proof (constructGrid_rows_included group cols' cols g' g
                  Hwf' Hwf Hbound' Hsame' Hg' Hg) as Hincl'.
    destruct (constructGrid_content NaturalLess group cols Hwf Hbound g Hg)
      as (grid0 & rows0 & [_ Hmap _ _] & _ & Eg).
    destruct (constructGrid_content NaturalLess group cols' Hwf' Hbound' g' Hg')
      as (grid0' & rows0' & [_ Hmap' _ _] & _ & Eg').
    assert (forall grid rows, rowsMap rows (Grid.Rows grid) ->
              StronglySorted (fun a b => notAfter NaturalLess (Row.Name a) (Row.Name b))
                             (Grid.Rows (sortGrid NaturalLess grid)) /\
              NoDup (Grid.Rows (sortGrid NaturalLess grid))) as Hsorted.
    { intros grid rows Hm. split.
      - apply StronglySorted_fmap_inv. rewrite sortGrid_names. by apply SliceStable_sorted.
      - apply (NoDup_fmap_1 Row.Name). rewrite sortGrid_names, SliceStable_perm.
        by eapply rowsMap_NoDup. }
    destruct (Hsorted grid0 rows0 Hmap) as [Hs Hnd].
    destruct (Hsorted grid0' rows0' Hmap') as [Hs' Hnd'].
    rewrite <- Eg in Hs, Hnd. rewrite <- Eg' in Hs', Hnd'.
    assert (Grid.Rows g = Grid.Rows g') as Erows.
    { apply (StronglySorted_unique_strong
               (fun a b => notAfter NaturalLess (Row.Name a) (Row.Name b))); try done.
      - intros x x' Hx Hx' H1 H2. apply Hrow; [done|done|]. by apply Htotal.
      - apply NoDup_Permutation; [done|done|]. intros x. split; [apply Hincl|apply Hincl']. }
    destruct g, g'. simpl in *. congruence. }
  split; [done|]. intros Hfto.
  destruct (constructGrid_inv NaturalLess group cols Hwf Hbound) as [_ Hret].
  destruct (constructGrid_inv NaturalLess group cols' Hwf' Hbound') as [_ Hret'].
  destruct (Hret Hfto) as [g Hg]. destruct (Hret' Hfto) as [g' Hg'].
  exists g. split; [done|]. by rewrite (Hsame_grid g g' Hg Hg').
Qed.
End MapOrder.

(** ** The natural order tells any two names apart *)

Lemma eatZeros_eq (s : list ascii) :
  s = replicate (sortorder.eatZeros s).1 "0"%char ++ (sortorder.eatZeros s).2.
Proof.
  induction s as [|c r IH]; [done|]. simpl.
  destruct (Nat.eqb_spec (nat_of_ascii c) 48) as [Hc|Hc]; simpl; [|done].
  rewrite <- IH. f_equal. by apply nat_of_ascii_inj.
Qed.

Lemma eatDigits_eq (s : list ascii) :
  s = (sortorder.eatDigits s).1 ++ (sortorder.eatDigits s).2.
Proof.
  induction s as [|c r IH]; [done|]. simpl.
  destruct (sortorder.isdigit c); simpl; [|done]. by rewrite <- IH.
Qed.

Lemma keys_inj (fuel : nat) :
  forall s1 s2 : list ascii,
    (length s1 <= fuel)%nat -> (length s2 <= fuel)%nat ->
    sortorder.keys fuel s1 = sortorder.keys fuel s2 -> s1 = s2.
Proof.
  induction fuel as [|fuel IH]; intros s1 s2 H1 H2.
  - destruct s1, s2; simpl in *; try lia. done.
  - destruct s1 as [|c1 r1], s2 as [|c2 r2]; simpl in H1, H2.
    + done.
    + cbn [sortorder.keys]. by destruct (sortorder.isdigit c2).
    + cbn [sortorder.keys]. by destruct (sortorder.isdigit c1).
    + cbn [sortorder.keys].
      destruct (sortorder.isdigit c1) eqn:Hd1, (sortorder.isdigit c2) eqn:Hd2; try done.
      * pose proof (digits_consumed c1 r1 Hd1) as Hu1.
        pose proof (digits_consumed c2 r2 Hd2) as Hu2.
        set (z1 := sortorder.eatZeros (c1 :: r1)) in *.
        set (z2 := sortorder.eatZeros (c2 :: r2)) in *.
        set (d1 := sortorder.eatDigits z1.2) in *.
        set (d2 := sortorder.eatDigits z2.2) in *.
        intros [= Hlen Hdig Hz Hrest].
        apply codes_inj in Hdig. apply IH in Hrest; [|lia|lia].
        rewrite (eatZeros_eq (c1 :: r1)), (eatZeros_eq (c2 :: r2)). fold z1 z2.
        rewrite (eatDigits_eq z1.2), (eatDigits_eq z2.2). fold d1 d2.
        by rewrite Hz, Hdig, Hrest.
      * intros [= Hc Hrest]. apply nat_of_ascii_inj in Hc.
        apply IH in Hrest; [|lia|lia]. by subst.
Qed.

Lemma list_ascii_of_string_inj (a b : string) :
  list_ascii_of_string a = list_ascii_of_string b -> a = b.
Proof.
  intros H. rewrite <- (string_of_list_ascii_of_string a), <- (string_of_list_ascii_of_string b).
  by rewrite H.
Qed.

Lemma NaturalLess_total (a b : string) :
  sortorder.NaturalLess a b = false -> sortorder.NaturalLess b a = false -> a = b.
Proof.
  intros Hab Hba. apply not_true_iff_false in Hab, Hba.
  rewrite NaturalLess_rank in Hab, Hba.
  destruct (trichotomyT lexico (sortorder.rank a) (sortorder.rank b)) as [[Hlt|Heq]|Hgt];
    [done| |done].
  unfold sortorder.rank in Heq. rewrite <- !length_list_ascii_of_string in Heq.
  apply list_ascii_of_string_inj.
  apply (keys_inj (length (list_ascii_of_string a) + length (list_ascii_of_string b))); [lia|lia|].
  rewrite (keys_fuel _ (length (list_ascii_of_string a)) (list_ascii_of_string a)) by lia.
  by rewrite (keys_fuel _ (length (list_ascii_of_string b)) (list_ascii_of_string b)) by lia.
Qed.


Lemma sameColumn_intro (col col' : inflatedColumn.t) :
  inflatedColumn.column col = inflatedColumn.column col' ->
  inflatedColumn.cells col ≡ₚ inflatedColumn.cells col' ->
  NoDup (inflatedColumn.cells col).*1 ->
  sameColumn col col'.
Proof.
  intros Hc Hperm Hnd. split; [done|]. intros name.
  assert (NoDup (inflatedColumn.cells col').*1) as Hnd' by (by rewrite <- Hperm).
  destruct (lookupCell name (inflatedColumn.cells col)) as [c|] eqn:E.
  - assert ((name, c) ∈ inflatedColumn.cells col) as Hin.
    { clear -E. induction (inflatedColumn.cells col) as [|[k c'] l IH]; [done|].
      simpl in E. destruct (String.eqb_spec k name) as [->|Hne].
      - injection E as ->. left.
      - right. by apply IH. }
    rewrite Hperm in Hin. rewrite (lookupCell_NoDup name c _ Hnd' Hin).
    by repeat split.
  - apply lookupCell_None in E. rewrite Hperm in E. apply lookupCell_None in E.
    by rewrite E.
Qed.

Lemma constructGrid_map_order_witness :
  (forall g g',
     constructGrid sortorder.NaturalLess example_group example_columns = Ok g ->
     constructGrid sortorder.NaturalLess example_group example_columns_reordered = Ok g' ->
     g = g') /\
  (0 <= TestGroup.NumFailuresToAlert example_group ->
   exists g,
     constructGrid sortorder.NaturalLess example_group example_columns = Ok g /\
     constructGrid sortorder.NaturalLess example_group example_columns_reordered = Ok g).
Proof.
  apply (constructGrid_map_order sortorder.NaturalLess NaturalLess_asym NaturalLess_negtrans
           NaturalLess_total example_group example_columns example_columns_reordered);
    [vm_compute; reflexivity | vm_compute; reflexivity | simpl; lia |].
  constructor; [|constructor; [|constructor]].
  - apply sameColumn_intro; [reflexivity|apply Permutation_swap|].
    apply (bool_decide_unpack _). vm_compute. reflexivity.
  - apply sameColumn_intro; [reflexivity|reflexivity|].
    apply (bool_decide_unpack _). vm_compute. reflexivity.
Defined.

(** * More on the alert walk *)

(** ** The count of failures *)

Lemma alertLoop_count (fto ptc : Z) (cols : list (option Column.t)) :
  forall st st' : alertState,
    0 <= failures st <= totalFailures st ->
    totalFailures st + Z.of_nat (length cols) < 2 ^ 31 ->
    alertLoop fto ptc cols st = Some st' ->
    0 <= failures st' <= totalFailures st' /\
    totalFailures st' <=
      totalFailures st + countResult Row_FAIL (take (length cols) (ch st)).
Proof.
  induction cols as [|col cols IH]; intros st st' Hpos Hbound; simpl.
  - intros [= <-]. simpl. lia.
  - destruct st as [f tf p ci s lf lp fi]; simpl in *.
    unfold alertStep; simpl.
    assert (countResult Row_FAIL (take (S (length cols)) s) =
            (if negb (length s =? 0)%nat && ((result.recv s).1 =? Row_FAIL) then 1 else 0)
            + countResult Row_FAIL (take (length cols) (result.recv s).2)) as Hr.
    { destruct s as [|r s]; simpl; [by destruct (length cols)|].
      by destruct (r =? Row_FAIL). }
    rewrite Hr. clear Hr.
    pose proof (countResult_nonneg Row_FAIL (take (length cols) (result.recv s).2)) as Hc.
    set (raw := (result.recv s).1) in *.
    set (s' := (result.recv s).2) in *.
    unfold result.Coalesce, result.IgnoreRunning.
    destruct (Z.eqb_spec raw Row_RUNNING) as [Hrun|Hrun]; simpl.
    { intros Hloop. apply IH in Hloop; simpl in *; [|lia|lia].
      destruct (negb _ && _); lia. }
    destruct (Z.eqb_spec raw Row_NO_RESULT) as [Hno|Hno].
    { intros Hloop. apply IH in Hloop; simpl in *; [|lia|lia].
      destruct (negb _ && _); lia. }
    destruct (Z.eqb_spec raw Row_PASS) as [Hpass|Hpass].
    { destruct (Z.leb_spec fto f).
      - intros [= <-]. simpl. destruct (negb _ && _); lia.
      - destruct (Z.leb_spec ptc (p + 1)); [done|].
        intros Hloop. apply IH in Hloop; simpl in *; [|lia|lia].
        destruct (negb _ && _); lia. }
    destruct (Z.eqb_spec raw Row_FAIL) as [Hfail|Hfail].
    { assert ((length s =? 0)%nat = false) as ->.
      { destruct s; [|done]. subst raw. simpl in Hfail. done. }
      simpl. rewrite wrap32_id by (unfold int32_range; lia).
      intros Hloop. apply IH in Hloop; simpl in *; lia. }
    rewrite andb_false_r.
    destruct (Z.eqb_spec raw Row_FLAKY) as [Hflaky|Hflaky].
    { destruct (Z.leb_spec fto f).
      - intros [= <-]. simpl. lia.
      - intros Hloop. apply IH in Hloop; simpl in *; lia. }
    intros Hloop. apply IH in Hloop; simpl in *; lia.
Qed.

Lemma countResult_le_length (code : Z) (l : list Z) :
  countResult code l <= Z.of_nat (length l).
Proof. induction l as [|r l IH]; simpl; [lia|]. destruct (r =? code); lia. Qed.

(** X7.  The count of an alert.  With a positive threshold and fewer than
    [2^31] columns, the [FailCount] of an alert that [alertRow] returns is
    at least [failuresToOpen], at most the number of FAIL cells among the
    results walked, one for each column, and so at most the number of
    columns. *)
Theorem alertRow_fail_count (cols : list (option Column.t)) (row : Row.t)
    (failuresToOpen passesToClose : Z) (info : AlertInfo.t) :
  0 < failuresToOpen ->
  Z.of_nat (length cols) < 2 ^ 31 ->
  alertRow cols row failuresToOpen passesToClose = Ok (Some info) ->
  failuresToOpen <= AlertInfo.FailCount info /\
  AlertInfo.FailCount info <=
    countResult Row_FAIL (take (length cols) (result.Iter (Row.Results row))) /\
  AlertInfo.FailCount info <= Z.of_nat (length cols).
Proof.
  intros Hfto Hbound. unfold alertRow.
  destruct (Z.eqb_spec failuresToOpen 0); [lia|].
  destruct (alertLoop failuresToOpen passesToClose cols (alertInit row)) as [st|] eqn:Eloop;
    [|done].
  destruct (Z.ltb_spec (failures st) failuresToOpen); [done|].
  destruct (alertLoop_count failuresToOpen passesToClose cols (alertInit row) st)
    as [Hf Ht]; [simpl; lia|simpl; lia|done|]. simpl in Ht.
  destruct (index (Row.Messages row) (failIdx st)); [|done].
  destruct (index (Row.CellIds row) (failIdx st)); [|done].
  simpl. intros [= <-]. simpl.
  pose proof (countResult_le_length Row_FAIL
                (take (length cols) (result.Iter (Row.Results row)))) as Hle.
  rewrite length_take in Hle. lia.
Qed.

Lemma alertRow_fail_count_witness :
  exists info,
    alertRow example_cols example_opened 2 1 = Ok (Some info) /\
    2 <= AlertInfo.FailCount info /\
    AlertInfo.FailCount info <=
      countResult Row_FAIL (take (length example_cols)
                              (result.Iter (Row.Results example_opened))) /\
    AlertInfo.FailCount info <= Z.of_nat (length example_cols).
Proof.
  eexists. split; [reflexivity|].
  apply (alertRow_fail_count example_cols example_opened 2 1);
    [lia | simpl; lia | reflexivity].
Defined.

(** ** A negative threshold *)

Lemma alertLoop_negative (fto ptc : Z) (cols : list (option Column.t)) :
  fto < 0 ->
  forall st : alertState,
    0 <= failures st ->
    exists st', alertLoop fto ptc cols st = Some st' /\ 0 <= failures st'.
Proof.
  intros Hfto. induction cols as [|col cols IH]; intros st Hpos; simpl.
  - by exists st.
  - destruct st as [f tf p ci s lf lp fi]; simpl in *.
    unfold alertStep; simpl.
    destruct (result.Coalesce (result.recv s).1 result.IgnoreRunning =? Row_NO_RESULT).
    { destruct ((result.recv s).1 =? Row_RUNNING); apply IH; simpl; lia. }
    destruct (result.Coalesce (result.recv s).1 result.IgnoreRunning =? Row_PASS).
    { destruct (Z.leb_spec fto f); [|lia]. eexists. split; [done|]. simpl. lia. }
    destruct (result.Coalesce (result.recv s).1 result.IgnoreRunning =? Row_FAIL).
    { apply IH; simpl; lia. }
    destruct (result.Coalesce (result.recv s).1 result.IgnoreRunning =? Row_FLAKY).
    { destruct (Z.leb_spec fto f); [|lia]. eexists. split; [done|]. simpl. lia. }
    apply IH; simpl; lia.
Qed.

(** X8.  A negative threshold.  With [failuresToOpen < 0], [alertRow]
    never returns [nil], whatever the columns, the results and
    [passesToClose]; on a row that has no message it panics, the index into
    [row.Messages] being out of range. *)
Theorem alertRow_negative_threshold (cols : list (option Column.t)) (row : Row.t)
    (failuresToOpen passesToClose : Z) :
  failuresToOpen < 0 ->
  (Row.Messages row = [] -> alertRow cols row failuresToOpen passesToClose = Panic) /\
  alertRow cols row failuresToOpen passesToClose <> Ok None.
Proof.
  intros Hfto. unfold alertRow.
  destruct (Z.eqb_spec failuresToOpen 0); [lia|].
  destruct (alertLoop_negative failuresToOpen passesToClose cols Hfto (alertInit row))
    as (st & -> & Hpos); [simpl; lia|].
  destruct (Z.ltb_spec (failures st) failuresToOpen); [lia|].
  split.
  - intros ->. unfold index. by destruct (failIdx st <? 0).
  - destruct (index (Row.Messages row) (failIdx st)); [|done].
    by destruct (index (Row.CellIds row) (failIdx st)).
Qed.

Lemma alertRow_negative_threshold_witness :
  (Row.Messages (Row.new "t") = [] -> alertRow example_cols (Row.new "t") (-1) 1 = Panic) /\
  alertRow example_cols (Row.new "t") (-1) 1 <> Ok None.
Proof. apply (alertRow_negative_threshold example_cols (Row.new "t") (-1) 1). lia. Defined.

(** ** The cell that an alert reports *)

(** The alert reports the message and the cell id found at the compressed
    index of a failure. *)
Lemma alertRow_noted (cols : list (option Column.t)) (row : Row.t)
    (fto ptc : Z) (info : AlertInfo.t) :
  0 < fto ->
  alertRow cols row fto ptc = Ok (Some info) ->
  exists p1 rest,
    result.Iter (Row.Results row) = p1 ++ Row_FAIL :: rest /\
    Row.Messages row !! occupied p1 = Some (AlertInfo.FailureMessage info) /\
    Row.CellIds row !! occupied p1 = Some (AlertInfo.FailTestId info).
Proof.
  intros Hfto. unfold alertRow.
  destruct (Z.eqb_spec fto 0); [lia|].
  assert (sideBySide [] (alertInit row) (alertInit (withoutRunning row))) as H0.
  { split; simpl; try done. apply Iter_ignoreRunning. }
  pose proof (alertLoop_sideBySide fto ptc cols _ _ _ H0) as Hloop.
  destruct (alertLoop _ _ cols (alertInit row)) as [a|]; [|done].
  destruct (alertLoop _ _ cols (alertInit (withoutRunning row))) as [b|]; [|done].
  destruct Hloop as [_ _ _ _ Hnoted]. simpl in Hnoted.
  destruct (Z.ltb_spec (failures a) fto); [done|].
  destruct Hnoted as (p1 & rest & Htotal & Hidx & _); [lia|].
  rewrite Hidx, !index_of_nat.
  destruct (Row.Messages row !! occupied p1) as [msg|] eqn:Em; [|done].
  destruct (Row.CellIds row !! occupied p1) as [id|] eqn:Ei; [|done].
  simpl. intros [= <-]. simpl. by exists p1, rest.
Qed.

Lemma occupied_filter (cs : list cell.t) :
  occupied (cell.result <$> cs) = length (List.filter hasResult cs).
Proof.
  induction cs as [|c cs IH]; [done|].
  rewrite fmap_cons. simpl. unfold hasResult at 1.
  destruct (cell.result c =? Row_NO_RESULT); simpl; by rewrite IH.
Qed.

Section AlertOfGrid.
Variable NaturalLess : string -> string -> bool.

(** X9.  The cell that an alert reports.  On columns with distinct keys,
    fewer than [2^31] of them, and with a positive threshold,
    [constructGrid] returns, and the alert of every row of the grid is
    about a column [i] in which the row's test failed: its message is the
    message of the test's cell in that column; its test id is read from
    [row.CellIds] at the compressed index, so it is the cell id of the
    test's cell in the column number [k], [k] being the number of cells
    that hold a result among the [i] columns before (the failed cell's own
    id when all of them do). *)
Theorem constructGrid_alert_cell (group : TestGroup.t) (cols : list inflatedColumn.t) :
  forallb inflatedColumn.wf cols = true ->
  Z.of_nat (length cols) < 2 ^ 31 ->
  0 < TestGroup.NumFailuresToAlert group ->
  (exists g, constructGrid NaturalLess group cols = Ok g) /\
  forall g, constructGrid NaturalLess group cols = Ok g ->
    forall row info, row ∈ Grid.Rows g -> Row.AlertInfo row = Some info ->
      exists (i : nat) (col col' : inflatedColumn.t),
        cols !! i = Some col /\
        resultAt (Row.Name row) col = Row_FAIL /\
        AlertInfo.FailureMessage info = cell.message (cellAt (Row.Name row) col) /\
        cols !! occupied (resultAt (Row.Name row) <$> take i cols) = Some col' /\
        AlertInfo.FailTestId info = cell.cellID (cellAt (Row.Name row) col').
Proof.
  intros Hwf Hbound Hfto.
  destruct (constructGrid_inv NaturalLess group cols Hwf Hbound) as [_ Hret].
  split; [apply Hret; lia|]. intros g Hg row info Hrow Hinfo.
  pose proof (constructGrid_alerts NaturalLess group cols g Hg row Hrow) as Halert.
  rewrite Hinfo in Halert.
  apply alertRow_noted in Halert as (p1 & rest & Hdec & Hmsg & Hid); [|done].
  destruct (constructGrid_content NaturalLess group cols Hwf Hbound g Hg)
    as (grid0 & rows0 & _ & Hof & ->).
  apply sortGrid_rows in Hrow as (r0 & Hr0 & ->).
  apply list_elem_of_lookup in Hr0 as [p Hp].
  destruct (Hof p r0 Hp) as [_ _ [Hres [Hids Hmsgs _ _ _ _ _]]].
  simpl in Hdec, Hmsg, Hid |- *.
  set (name := Row.Name r0) in *.
  rewrite Hres, Iter_encode in Hdec.
  rewrite <- list_fmap_compose in Hdec.
  apply fmap_app_inv in Hdec as (c1s & c2s & Hp1 & Hc2 & Hcols).
  destruct c2s as [|col c2s]; [done|]. rewrite fmap_cons in Hc2.
  injection Hc2 as Hfail0 Hrest.
  assert (cell.result (cellAt name col) = Row_FAIL) as Hfail by (simpl in Hfail0; congruence).
  assert (take (length c1s) cols = c1s) as Htake
    by (by rewrite Hcols, take_app_length).
  assert (resultAt name <$> c1s = p1) as Hp1'.
  { rewrite Hp1. apply list_fmap_ext. intros i c _. simpl. symmetry. apply resultAt_cellAt. }
  rewrite Hids, <- list_fmap_compose, list_lookup_fmap in Hid.
  destruct (cols !! occupied p1) as [col'|] eqn:Ecol'; [|done].
  injection Hid as Hid.
  exists (length c1s), col, col'.
  rewrite Htake, Hp1'.
  split; [by rewrite Hcols, list_lookup_middle|].
  split; [by rewrite <- resultAt_cellAt|].
  split; [|done].
  rewrite Hmsgs, Hcols, fmap_app, List.filter_app, fmap_cons in Hmsg. simpl in Hmsg.
  unfold hasResult at 2 in Hmsg. rewrite Hfail in Hmsg. simpl in Hmsg.
  rewrite fmap_app, fmap_cons in Hmsg.
  rewrite list_lookup_middle in Hmsg; [by injection Hmsg|].
  rewrite length_fmap, <- occupied_filter, <- list_fmap_compose. by rewrite <- Hp1.
Qed.
End AlertOfGrid.

Lemma constructGrid_alert_cell_witness :
  (exists g, constructGrid sortorder.NaturalLess alert_group example_columns = Ok g) /\
  forall g, constructGrid sortorder.NaturalLess alert_group example_columns = Ok g ->
    forall row info, row ∈ Grid.Rows g -> Row.AlertInfo row = Some info ->
      exists (i : nat) (col col' : inflatedColumn.t),
        example_columns !! i = Some col /\
        resultAt (Row.Name row) col = Row_FAIL /\
        AlertInfo.FailureMessage info = cell.message (cellAt (Row.Name row) col) /\
        example_columns !! occupied (resultAt (Row.Name row) <$> take i example_columns) = Some col' /\
        AlertInfo.FailTestId info = cell.cellID (cellAt (Row.Name row) col').
Proof.
  apply (constructGrid_alert_cell sortorder.NaturalLess alert_group example_columns);
    [vm_compute; reflexivity | simpl; lia | simpl; lia].
Defined.

(** The test [t2] fails in the newer build: its alert reports the message of
    that cell. *)
Example constructGrid_alert_example :
  exists g row info,
    constructGrid sortorder.NaturalLess alert_group example_columns = Ok g /\
    row ∈ Grid.Rows g /\ Row.Name row = "t2" /\ Row.AlertInfo row = Some info /\
    AlertInfo.FailureMessage info = "boom" /\ AlertInfo.FailTestId info = "b2" /\
    AlertInfo.FailCount info = 1.
Proof.
  eexists _, _, _. split; [vm_compute; reflexivity|].
  split; [right; left|]. done.
Qed.

(** ** When an alert opens *)

Lemma runAt_app_l (x : Z) (n : nat) (l1 l2 : list Z) (i : nat) :
  runAt x n (l1 ++ l2) i -> (i + n <= length l1)%nat -> runAt x n l1 i.
Proof.
  intros Hrun Hle j Hj. specialize (Hrun j Hj).
  by rewrite lookup_app_l in Hrun by lia.
Qed.

Lemma runAt_app_l_2 (x : Z) (n : nat) (l1 l2 : list Z) (i : nat) :
  runAt x n l1 i -> runAt x n (l1 ++ l2) i.
Proof.
  intros Hrun j Hj. specialize (Hrun j Hj). by apply lookup_app_l_Some.
Qed.

Lemma runAt_covers (x y : Z) (n : nat) (l1 l2 : list Z) (i : nat) :
  runAt x n (l1 ++ y :: l2) i -> (i <= length l1 < i + n)%nat -> y = x.
Proof.
  intros Hrun Hin. specialize (Hrun (length l1 - i)%nat ltac:(lia)).
  replace (i + (length l1 - i))%nat with (length l1) in Hrun by lia.
  rewrite list_lookup_middle in Hrun by done. congruence.
Qed.

(** A run in a list that has one more element lies in the list, or ends
    with the new element. *)
Lemma runAt_snoc (x y : Z) (n : nat) (l : list Z) (i : nat) :
  (0 < n)%nat ->
  runAt x n (l ++ [y]) i ->
  runAt x n l i \/ (y = x /\ (i + n = length l + 1)%nat).
Proof.
  intros Hn Hrun.
  destruct (decide (i + n <= length l)%nat) as [Hle|Hgt].
  - left. by eapply runAt_app_l.
  - right.
    assert (i + n <= length l + 1)%nat as Hle.
    { specialize (Hrun (n - 1)%nat ltac:(lia)).
      apply lookup_lt_Some in Hrun. rewrite length_app in Hrun. simpl in Hrun. lia. }
    split; [|lia]. apply (runAt_covers x y n l [] i); [done|lia].
Qed.

Lemma trailing_nil (x : Z) : trailing x 0 [].
Proof. split; [done|]. split; [intros j Hj; lia|simpl; lia]. Qed.

Lemma trailing_snoc_same (x : Z) (c : nat) (l : list Z) :
  trailing x c l -> trailing x (S c) (l ++ [x]).
Proof.
  intros (Hle & Hrun & Hstop). unfold trailing. rewrite length_app. simpl.
  split; [lia|]. split.
  - intros j Hj. destruct (decide (j < c)%nat) as [Hlt|Hge].
    + specialize (Hrun j Hlt). apply lookup_app_l_Some.
      by replace (length l + 1 - S c + j)%nat with (length l - c + j)%nat by lia.
    + replace (length l + 1 - S c + j)%nat with (length l) by lia.
      by rewrite list_lookup_middle.
  - intros Hlt. rewrite lookup_app_l by lia.
    replace (length l + 1 - S c - 1)%nat with (length l - c - 1)%nat by lia.
    apply Hstop. lia.
Qed.

Lemma trailing_snoc_other (x y : Z) (l : list Z) :
  y <> x -> trailing x 0 (l ++ [y]).
Proof.
  intros Hne. unfold trailing. rewrite length_app. simpl.
  split; [lia|]. split; [intros j Hj; lia|]. intros _.
  replace (length l + 1 - 0 - 1)%nat with (length l) by lia.
  rewrite list_lookup_middle by done. congruence.
Qed.

(** A run of [n] that ends the list is the trailing run. *)
Lemma trailing_run (x : Z) (c n : nat) (l : list Z) (i : nat) :
  trailing x c l -> runAt x n l i -> (i + n = length l)%nat -> (n <= c)%nat.
Proof.
  intros (Hle & Hrun & Hstop) Hn Hend.
  destruct (decide (n <= c)%nat) as [|Hgt]; [done|]. exfalso.
  apply Hstop; [lia|].
  specialize (Hn (length l - c - 1 - i)%nat ltac:(lia)).
  by replace (i + (length l - c - 1 - i))%nat with (length l - c - 1)%nat in Hn by lia.
Qed.

Lemma undecided_snoc_FLAKY (n m : nat) (done : list Z) (st st' : alertState) :
  (0 < n)%nat -> (0 < m)%nat ->
  undecided n m done st ->
  failures st' = 0 -> passes st' = 0 ->
  undecided n m (done ++ [Row_FLAKY]) st'.
Proof.
  intros Hn Hm [_ _ HnoF HnoP] Hf Hp. split.
  - exists 0%nat. split; [done|]. split; [done|]. by apply trailing_snoc_other.
  - exists 0%nat. split; [done|]. split; [done|]. by apply trailing_snoc_other.
  - intros i [Hrun|[Heq _]]%runAt_snoc; [by apply (HnoF i)|done|done].
  - intros i [Hrun|[Heq _]]%runAt_snoc; [by apply (HnoP i)|done|done].
Qed.

Lemma undecided_snoc_PASS (n m : nat) (done : list Z) (st st' : alertState) (p : nat) :
  (0 < n)%nat ->
  undecided n m done st ->
  passes st = Z.of_nat p -> trailing Row_PASS p done -> (S p < m)%nat ->
  failures st' = 0 -> passes st' = Z.of_nat (S p) ->
  undecided n m (done ++ [Row_PASS]) st'.
Proof.
  intros Hn [_ _ HnoF HnoP] Hp Htr Hlt Hf' Hp'. split.
  - exists 0%nat. split; [done|]. split; [done|]. by apply trailing_snoc_other.
  - exists (S p). split; [done|]. split; [done|]. by apply trailing_snoc_same.
  - intros i [Hrun|[Heq _]]%runAt_snoc; [by apply (HnoF i)|done|done].
  - intros k Hk.
    destruct (runAt_snoc Row_PASS Row_PASS m done k ltac:(lia) Hk) as [Hrun|[_ Hend]];
      [by apply (HnoP k)|].
    pose proof (trailing_snoc_same Row_PASS p done Htr) as Htr'.
    assert (m <= S p)%nat; [|lia].
    apply (trailing_run Row_PASS (S p) m (done ++ [Row_PASS]) k); [done|done|].
    rewrite length_app. simpl. lia.
Qed.

Lemma undecided_snoc_FAIL (n m : nat) (done : list Z) (st st' : alertState) (f : nat) :
  (0 < m)%nat ->
  undecided n m done st ->
  failures st = Z.of_nat f -> trailing Row_FAIL f done -> (S f < n)%nat ->
  failures st' = Z.of_nat (S f) -> passes st' = 0 ->
  undecided n m (done ++ [Row_FAIL]) st'.
Proof.
  intros Hm [_ _ HnoF HnoP] Hf Htr Hlt Hf' Hp'. split.
  - exists (S f). split; [done|]. split; [done|]. by apply trailing_snoc_same.
  - exists 0%nat. split; [done|]. split; [done|]. by apply trailing_snoc_other.
  - intros k Hk.
    destruct (runAt_snoc Row_FAIL Row_FAIL n done k ltac:(lia) Hk) as [Hrun|[_ Hend]];
      [by apply (HnoF k)|].
    pose proof (trailing_snoc_same Row_FAIL f done Htr) as Htr'.
    assert (n <= S f)%nat; [|lia].
    apply (trailing_run Row_FAIL (S f) n (done ++ [Row_FAIL]) k); [done|done|].
    rewrite length_app. simpl. lia.
  - intros i [Hrun|[Heq _]]%runAt_snoc; [by apply (HnoP i)|done|done].
Qed.

Lemma trailing_unique (x : Z) (c c' : nat) (l : list Z) :
  trailing x c l -> trailing x c' l -> c = c'.
Proof.
  intros (Hle & Hrun & Hstop) (Hle' & Hrun' & Hstop').
  destruct (Nat.lt_trichotomy c c') as [Hlt|[Heq|Hgt]]; [exfalso|done|exfalso].
  - apply Hstop; [lia|]. specialize (Hrun' (c' - c - 1)%nat ltac:(lia)).
    by replace (length l - c' + (c' - c - 1))%nat with (length l - c - 1)%nat in Hrun' by lia.
  - apply Hstop'; [lia|]. specialize (Hrun (c - c' - 1)%nat ltac:(lia)).
    by replace (length l - c + (c - c' - 1))%nat with (length l - c' - 1)%nat in Hrun by lia.
Qed.

(** Once the failures have reached the threshold, the walk ends with an
    alert to report. *)
Lemma alertLoop_absorbing (fto ptc : Z) (cols : list (option Column.t)) :
  forall st : alertState,
    fto <= failures st ->
    exists st', alertLoop fto ptc cols st = Some st' /\ fto <= failures st'.
Proof.
  induction cols as [|col cols IH]; intros st Hge; simpl.
  - by exists st.
  - destruct st as [f tf p ci s lf lp fi]; simpl in *.
    unfold alertStep; simpl.
    destruct (result.Coalesce (result.recv s).1 result.IgnoreRunning =? Row_NO_RESULT).
    { destruct ((result.recv s).1 =? Row_RUNNING); apply IH; simpl; lia. }
    destruct (result.Coalesce (result.recv s).1 result.IgnoreRunning =? Row_PASS).
    { destruct (Z.leb_spec fto f); [|lia]. eexists. split; [done|]. simpl. lia. }
    destruct (result.Coalesce (result.recv s).1 result.IgnoreRunning =? Row_FAIL).
    { apply IH; simpl; lia. }
    destruct (result.Coalesce (result.recv s).1 result.IgnoreRunning =? Row_FLAKY).
    { destruct (Z.leb_spec fto f); [|lia]. eexists. split; [done|]. simpl. lia. }
    apply IH; simpl; lia.
Qed.

Lemma opens_no_run (n m : nat) (l : list Z) :
  (forall i, ~ runAt Row_FAIL n l i) -> ~ opens n m l.
Proof. intros Hno (i & Hrun & _). by apply (Hno i). Qed.

(** The failures that end [done] and one more make [n]: the alert opens. *)
Lemma opens_reached (n m : nat) (done rest : list Z) (f : nat) :
  (0 < m)%nat ->
  trailing Row_FAIL f done -> S f = n ->
  (forall k, ~ runAt Row_PASS m done k) ->
  opens n m (done ++ Row_FAIL :: rest).
Proof.
  intros Hm (Hle & Hrun & _) Hn HnoP. exists (length done - f)%nat. split.
  - intros j Hj. destruct (decide (j < f)%nat) as [Hlt|Hge].
    + apply lookup_app_l_Some. by apply Hrun.
    + replace (length done - f + j)%nat with (length done) by lia.
      by rewrite list_lookup_middle.
  - intros k Hk. destruct (decide (length done - f + n <= k)%nat) as [|Hgt]; [done|].
    exfalso. destruct (decide (k + m <= length done)%nat) as [Hin|Hout].
    + apply (HnoP k). by eapply runAt_app_l.
    + assert (Row_FAIL = Row_PASS); [|done].
      apply (runAt_covers Row_PASS Row_FAIL m done rest k); [done|lia].
Qed.

(** The passes that end [done] and one more make [m] before any [n]
    failures: no alert. *)
Lemma opens_closed (n m : nat) (done rest : list Z) (p : nat) :
  (0 < n)%nat ->
  trailing Row_PASS p done -> S p = m ->
  (forall i, ~ runAt Row_FAIL n done i) ->
  ~ opens n m (done ++ Row_PASS :: rest).
Proof.
  intros Hn (Hle & Hrun & _) Hm HnoF (i & Hfail & Hfirst).
  assert (runAt Row_PASS m (done ++ Row_PASS :: rest) (length done - p)) as Hpass.
  { intros j Hj. destruct (decide (j < p)%nat) as [Hlt|Hge].
    - apply lookup_app_l_Some. by apply Hrun.
    - replace (length done - p + j)%nat with (length done) by lia.
      by rewrite list_lookup_middle. }
  apply Hfirst in Hpass. apply (HnoF i). eapply runAt_app_l; [done|lia].
Qed.

Lemma alertLoop_opens (fto ptc : Z) (cols : list (option Column.t)) :
  0 < fto -> 0 < ptc ->
  forall (st : alertState) (done : list Z),
    undecided (Z.to_nat fto) (Z.to_nat ptc) done st ->
    let l := done ++ List.filter decisive (take (length cols) (ch st)) in
    match alertLoop fto ptc cols st with
    | Some st' => fto <= failures st' <-> opens (Z.to_nat fto) (Z.to_nat ptc) l
    | None => ~ opens (Z.to_nat fto) (Z.to_nat ptc) l
    end.
Proof.
  intros Hfto Hptc.
  set (n := Z.to_nat fto). set (m := Z.to_nat ptc).
  induction cols as [|col cols IH]; intros st done Hud; cbv zeta.
  - simpl. rewrite app_nil_r.
    destruct Hud as [(f & Hf & Hlt & _) _ HnoF _].
    split; [lia|]. intros Hop. exfalso. revert Hop. by apply opens_no_run.
  - simpl length.
    assert (exists raw s', result.recv (ch st) = (raw, s') /\
              List.filter decisive (take (S (length cols)) (ch st)) =
              (if decisive raw then [raw] else []) ++
              List.filter decisive (take (length cols) s')) as (raw & s' & Hrecv & Hds).
    { destruct (ch st) as [|r s]; simpl.
      - exists 0, []. split; [done|]. by destruct (length cols).
      - exists r, s. split; [done|]. by destruct (decisive r). }
    rewrite Hds. clear Hds.
    pose proof Hud as [(f & Hf & Hflt & Hftr) (p & Hp & Hplt & Hptr) HnoF HnoP].
    destruct st as [f0 tf p0 ci s lf lp fi]; simpl in *. subst f0 p0.
    unfold alertStep; simpl. rewrite Hrecv. simpl.
    unfold result.Coalesce, result.IgnoreRunning.
    destruct (Z.eqb_spec raw Row_RUNNING) as [Hrun|Hrun]; simpl.
    { subst raw. change (decisive Row_RUNNING) with false. cbv iota. cbn [app].
      match goal with |- context [alertLoop _ _ _ ?s0] => apply (IH s0 done) end. by split; simpl; eauto. }
    destruct (Z.eqb_spec raw Row_NO_RESULT) as [Hno|Hno].
    { subst raw. change (decisive Row_NO_RESULT) with false. cbv iota. cbn [app].
      match goal with |- context [alertLoop _ _ _ ?s0] => apply (IH s0 done) end. by split; simpl; eauto. }
    destruct (Z.eqb_spec raw Row_PASS) as [Hpass|Hpass].
    { subst raw. change (decisive Row_PASS) with true. cbv iota. cbn [app].
      destruct (Z.leb_spec fto (Z.of_nat f)); [lia|].
      destruct (Z.leb_spec ptc (Z.of_nat p + 1)) as [Hclose|Hopen].
      - apply (opens_closed n m done _ p); [lia|done|lia|done].
      - rewrite (cons_middle Row_PASS done), app_assoc.
        match goal with |- context [alertLoop _ _ _ ?s0] =>
          apply (IH s0 (done ++ [Row_PASS]))
        end.
        eapply (undecided_snoc_PASS n m done _ _ p); simpl; try done; lia. }
    destruct (Z.eqb_spec raw Row_FAIL) as [Hfail|Hfail].
    { subst raw. change (decisive Row_FAIL) with true. cbv iota. cbn [app].
      destruct (decide (S f = n)) as [Hreach|Hbelow].
      - match goal with |- context [alertLoop fto ptc cols ?s0] =>
          destruct (alertLoop_absorbing fto ptc cols s0) as (st' & -> & Hge)
        end; [simpl; lia|].
        split; [intros _|done]. by apply (opens_reached n m done _ f); [lia|..].
      - rewrite (cons_middle Row_FAIL done), app_assoc.
        match goal with |- context [alertLoop _ _ _ ?s0] =>
          apply (IH s0 (done ++ [Row_FAIL]))
        end.
        eapply (undecided_snoc_FAIL n m done _ _ f); simpl; try done; lia. }
    destruct (Z.eqb_spec raw Row_FLAKY) as [Hflaky|Hflaky].
    { subst raw. change (decisive Row_FLAKY) with true. cbv iota. cbn [app].
      destruct (Z.leb_spec fto (Z.of_nat f)); [lia|].
      rewrite (cons_middle Row_FLAKY done), app_assoc.
        match goal with |- context [alertLoop _ _ _ ?s0] =>
          apply (IH s0 (done ++ [Row_FLAKY]))
        end.
      eapply (undecided_snoc_FLAKY n m done); simpl; try done; lia. }
    assert (decisive raw = false) as ->.
    { unfold decisive.
      destruct (Z.eqb_spec raw Row_PASS), (Z.eqb_spec raw Row_FAIL),
               (Z.eqb_spec raw Row_FLAKY); done. }
    simpl. match goal with |- context [alertLoop _ _ _ ?s0] => apply (IH s0 done) end. by split; simpl; eauto.
Qed.

Lemma undecided_init (n m : nat) (row : Row.t) :
  (0 < n)%nat -> (0 < m)%nat -> undecided n m [] (alertInit row).
Proof.
  intros Hn Hm. split.
  - exists 0%nat. split; [done|]. split; [done|apply trailing_nil].
  - exists 0%nat. split; [done|]. split; [done|apply trailing_nil].
  - intros i Hrun. by specialize (Hrun 0%nat Hn).
  - intros i Hrun. by specialize (Hrun 0%nat Hm).
Qed.

(** X10.  When an alert opens.  With positive thresholds, take the results
    that [alertRow] walks, one for each column, and of these PASS, FAIL and
    FLAKY only.  [alertRow] returns [nil] exactly when it is not so that
    they hold [failuresToOpen] failures in a row, with no [passesToClose]
    passes in a row that start before these failures end; on a row whose
    side arrays are as long as its results say, it returns an alert
    exactly when it is so. *)
Theorem alertRow_opens (cols : list (option Column.t)) (row : Row.t)
    (failuresToOpen passesToClose : Z) :
  0 < failuresToOpen -> 0 < passesToClose ->
  let walked := take (length cols) (result.Iter (Row.Results row)) in
  let alerts := opens (Z.to_nat failuresToOpen) (Z.to_nat passesToClose)
                    (List.filter decisive walked) in
  (alertRow cols row failuresToOpen passesToClose = Ok None <-> ~ alerts) /\
  (length (Row.Messages row) = occupied (result.Iter (Row.Results row)) ->
   (occupied (result.Iter (Row.Results row)) <= length (Row.CellIds row))%nat ->
   (exists info, alertRow cols row failuresToOpen passesToClose = Ok (Some info)) <-> alerts).
Proof.
  intros Hfto Hptc walked alerts.
  pose proof (alertLoop_opens failuresToOpen passesToClose cols Hfto Hptc
                (alertInit row) []
                (undecided_init (Z.to_nat failuresToOpen) (Z.to_nat passesToClose) row
                   ltac:(lia) ltac:(lia))) as Hloop.
  cbv zeta in Hloop. rewrite app_nil_l in Hloop. simpl ch in Hloop.
  fold walked in Hloop. fold alerts in Hloop.
  assert (alertRow cols row failuresToOpen passesToClose = Ok None <-> ~ alerts) as Hnil.
  { unfold alertRow. destruct (Z.eqb_spec failuresToOpen 0); [lia|].
    destruct (alertLoop failuresToOpen passesToClose cols (alertInit row)) as [st|]; [|done].
    destruct (Z.ltb_spec (failures st) failuresToOpen) as [Hlt|Hge].
    - split; [intros _|done]. rewrite <- Hloop. lia.
    - split.
      + destruct (index (Row.Messages row) (failIdx st)); [|done].
        by destruct (index (Row.CellIds row) (failIdx st)).
      + intros Hnot. exfalso. apply Hnot, Hloop. lia. }
  split; [done|]. intros Hmsg Hids.
  destruct (alertRow_returns cols row failuresToOpen passesToClose ltac:(lia) Hmsg Hids)
    as [[info|] Hret].
  - split; [intros _|by eexists].
    destruct (alertRow cols row failuresToOpen passesToClose) eqn:E; [|done].
    injection Hret as ->.
    unfold alertRow in E. destruct (Z.eqb_spec failuresToOpen 0); [lia|].
    destruct (alertLoop failuresToOpen passesToClose cols (alertInit row)) as [st|]; [|done].
    destruct (Z.ltb_spec (failures st) failuresToOpen) as [Hlt|Hge]; [done|].
    apply Hloop. lia.
  - split.
    + intros [info Hinfo]. congruence.
    + intros Hopen. exfalso. by apply Hnil in Hret.
Qed.

Lemma alertRow_opens_witness :
  let walked := take (length example_cols) (result.Iter (Row.Results example_opened)) in
  let alerts := opens 2 1 (List.filter decisive walked) in
  (alertRow example_cols example_opened 2 1 = Ok None <-> ~ alerts) /\
  (length (Row.Messages example_opened) = occupied (result.Iter (Row.Results example_opened)) ->
   (occupied (result.Iter (Row.Results example_opened))
    <= length (Row.CellIds example_opened))%nat ->
   (exists info, alertRow example_cols example_opened 2 1 = Ok (Some info)) <-> alerts).
Proof. apply (alertRow_opens example_cols example_opened 2 1); lia. Defined.

(** * More on the construction of the grid *)

(** ** The columns and the names of the rows *)

Section ColumnsOfGrid.
Variable NaturalLess : string -> string -> bool.

(** X11.  The columns of a grid and the names of its rows.
    On columns with distinct keys, fewer than [2^31] of them, every grid
    that [constructGrid] returns has the headers of the columns, in their
    order, and no two of its rows have the same name. *)
Theorem constructGrid_columns (group : TestGroup.t) (cols : list inflatedColumn.t) :
  forallb inflatedColumn.wf cols = true ->
  Z.of_nat (length cols) < 2 ^ 31 ->
  forall g, constructGrid NaturalLess group cols = Ok g ->
    Grid.Columns g = inflatedColumn.column <$> cols /\
    NoDup (Row.Name <$> Grid.Rows g).
Proof.
  intros Hwf Hbound g Hg.
  destruct (constructGrid_inv NaturalLess group cols Hwf Hbound) as [Hinv _].
  destruct (Hinv g Hg) as (grid0 & rows0 & [Hcols Hmap _ _] & ->).
  split; [done|].
  simpl. rewrite <- list_fmap_compose.
  change (Row.Name ∘ sortRow NaturalLess) with Row.Name.
  rewrite (SliceStable_perm _ (Grid.Rows grid0)).
  by eapply rowsMap_NoDup.
Qed.
End ColumnsOfGrid.

Lemma constructGrid_columns_witness :
  exists g, constructGrid sortorder.NaturalLess example_group example_columns = Ok g /\
    Grid.Columns g = inflatedColumn.column <$> example_columns /\
    NoDup (Row.Name <$> Grid.Rows g).
Proof.
  eexists. split; [vm_compute; reflexivity|].
  apply (constructGrid_columns sortorder.NaturalLess example_group example_columns);
    [vm_compute; reflexivity | simpl; lia | vm_compute; reflexivity].
Defined.

(** ** One call of [appendCell] or several *)

Lemma appendCell_appendRun (row : Row.t) (c : cell.t) (count : Z) :
  appendCell row c count =
  (results <~ appendRun (Row.Results row) (cell.result c) count ;;
   go_iter (Z.to_nat count) (appendCellOnce c) (Row.set_Results results row)).
Proof. reflexivity. Qed.

Lemma wrap32_add_l (a b : Z) : wrap32 (wrap32 a + b) = wrap32 (a + b).
Proof.
  unfold wrap32. f_equal.
  replace ((a + 2 ^ 31) mod 2 ^ 32 - 2 ^ 31 + b + 2 ^ 31)
    with ((a + 2 ^ 31) mod 2 ^ 32 + b) by lia.
  rewrite Z.add_mod_idemp_l by lia. f_equal. lia.
Qed.

Lemma wrap32_add_r (a b : Z) : wrap32 (a + wrap32 b) = wrap32 (a + b).
Proof. by rewrite (Z.add_comm a), wrap32_add_l, Z.add_comm. Qed.

Lemma list_two_last {A : Type} (l : list A) :
  (2 <= length l)%nat -> exists pre x y, l = pre ++ [x; y].
Proof.
  intros Hl.
  destruct l as [|y l _] using rev_ind; [simpl in Hl; lia|].
  destruct l as [|x l _] using rev_ind; [simpl in Hl; lia|].
  exists l, x, y. by rewrite <- app_assoc.
Qed.

Lemma appendRun_one (x latest count : Z) : appendRun [x] latest count = Panic.
Proof. reflexivity. Qed.

Lemma appendRun_nil (latest count : Z) :
  appendRun [] latest count = Ok [latest; wrap32 count].
Proof. reflexivity. Qed.

Lemma appendRun_snoc (pre : list Z) (x y latest count : Z) :
  appendRun (pre ++ [x; y]) latest count =
  Ok (if x =? latest then pre ++ [x; wrap32 (y + wrap32 count)]
      else pre ++ [x; y; latest; wrap32 count]).
Proof.
  unfold appendRun. cbv zeta.
  rewrite length_app. simpl length.
  destruct (Z.eqb_spec (Z.of_nat (length pre + 2)) 0); [lia|].
  replace (Z.of_nat (length pre + 2) - 2) with (Z.of_nat (length pre)) by lia.
  replace (Z.of_nat (length pre + 2) - 1) with (Z.of_nat (length pre + 1)) by lia.
  rewrite !index_of_nat.
  rewrite lookup_app_r by lia. rewrite Nat.sub_diag. simpl.
  destruct (Z.eqb_spec x latest) as [->|Hne]; simpl.
  - rewrite lookup_app_r by lia.
    replace (length pre + 1 - length pre)%nat with 1%nat by lia. simpl.
    rewrite Nat2Z.id.
    rewrite insert_app_r_alt by lia.
    replace (length pre + 1 - length pre)%nat with 1%nat by lia. done.
  - by rewrite <- app_assoc.
Qed.

(** The run added by two calls is the run added by one. *)
Lemma appendRun_split (results : list Z) (latest a b : Z) :
  appendRun results latest (a + b) =
  (results' <~ appendRun results latest a ;; appendRun results' latest b).
Proof.
  destruct (decide (2 <= length results)%nat) as [Hl|Hl].
  - destruct (list_two_last results Hl) as (pre & x & y & ->).
    rewrite !appendRun_snoc. simpl go_bind.
    destruct (Z.eqb_spec x latest) as [->|Hne].
    + rewrite appendRun_snoc, Z.eqb_refl.
      rewrite (wrap32_add_l (y + wrap32 a)), !wrap32_add_r.
      rewrite <- (Z.add_assoc y (wrap32 a) b), <- (wrap32_add_r y (wrap32 a + b)).
      by rewrite wrap32_add_l, wrap32_add_r.
    + replace (pre ++ [x; y; latest; wrap32 a]) with ((pre ++ [x; y]) ++ [latest; wrap32 a])
        by (by rewrite <- app_assoc).
      rewrite appendRun_snoc, Z.eqb_refl.
      by rewrite wrap32_add_l, wrap32_add_r, <- app_assoc.
  - destruct results as [|x [|y results]]; [| |simpl in Hl; lia].
    + rewrite !appendRun_nil. simpl go_bind.
      change [latest; wrap32 a] with ([] ++ [latest; wrap32 a]).
      rewrite (appendRun_snoc [] latest (wrap32 a) latest b), Z.eqb_refl.
      by rewrite wrap32_add_l, wrap32_add_r.
    + by rewrite !appendRun_one.
Qed.

Lemma go_iter_add {S : Type} (f : S -> go S) (n m : nat) (s : S) :
  go_iter (n + m) f s = (s' <~ go_iter n f s ;; go_iter m f s').
Proof.
  revert s. induction n as [|n IH]; intros s; simpl; [done|].
  destruct (f s) as [s'|]; simpl; [|done]. apply IH.
Qed.

Lemma appendCellMetric_set_Results (v : list Z) (r : Row.t) (m : string * float) :
  appendCellMetric (Row.set_Results v r) m = go_map (Row.set_Results v) (appendCellMetric r m).
Proof.
  unfold appendCellMetric, go_map. destruct r as [n i rs cs ms ic mn mt a]. simpl.
  destruct (existsb (String.eqb m.1) mn); simpl;
    destruct (list_find _ mt) as [[j metric]|]; simpl;
    try match goal with
        | |- context [appendMetric ?x ?i ?v] => destruct (appendMetric x i v)
        end; done.
Qed.

Lemma appendCellOnce_set_Results (v : list Z) (c : cell.t) (r : Row.t) :
  appendCellOnce c (Row.set_Results v r) = go_map (Row.set_Results v) (appendCellOnce c r).
Proof.
  unfold appendCellOnce.
  change (Row.set_CellIds (Row.CellIds (Row.set_Results v r) ++ [cell.cellID c])
            (Row.set_Results v r))
    with (Row.set_Results v (Row.set_CellIds (Row.CellIds r ++ [cell.cellID c]) r)).
  destruct (cell.result c =? Row_NO_RESULT); [done|].
  rewrite (go_fold_map (Row.set_Results v) appendCellMetric _
             (appendCellMetric_set_Results v)).
  unfold go_map. by destruct (go_fold appendCellMetric _ _).
Qed.

Lemma appendCellLoop_set_Results (v : list Z) (c : cell.t) (n : nat) (r : Row.t) :
  go_iter n (appendCellOnce c) (Row.set_Results v r) =
  go_map (Row.set_Results v) (go_iter n (appendCellOnce c) r).
Proof.
  apply (go_iter_map (Row.set_Results v) (appendCellOnce c)).
  intros s. apply appendCellOnce_set_Results.
Qed.

(** X12.  One call of [appendCell] with the count [a + b] is a call with the
    count [a] followed by a call with the count [b].
    For counts that are not negative, on any row and any cell, the two
    give the same row or panic both.  So the call that back-fills a new row
    with [n - 1] empty cells leaves it as [n - 1] calls, one per column,
    would. *)
Theorem appendCell_split (row : Row.t) (c : cell.t) (a b : Z) :
  0 <= a -> 0 <= b ->
  appendCell row c (a + b) = (row' <~ appendCell row c a ;; appendCell row' c b).
Proof.
  intros Ha Hb.
  rewrite !appendCell_appendRun, appendRun_split, Z2Nat.inj_add by done.
  destruct (appendRun (Row.Results row) (cell.result c) a) as [ra|] eqn:Era; [|done].
  cbn [go_bind].
  rewrite appendCellLoop_set_Results. unfold go_map.
  destruct (appendRun ra (cell.result c) b) as [rab|] eqn:Erab; cbn [go_bind].
  - rewrite go_iter_add, appendCellLoop_set_Results. unfold go_map.
    destruct (go_iter (Z.to_nat a) (appendCellOnce c) row) as [r1|]; cbn [go_bind]; [|done].
    rewrite appendCell_appendRun. simpl Row.Results. rewrite Erab. cbn [go_bind].
    by destruct r1.
  - destruct (go_iter (Z.to_nat a) (appendCellOnce c) row) as [r1|]; cbn [go_bind]; [|done].
    rewrite appendCell_appendRun. simpl Row.Results. by rewrite Erab.
Qed.

Lemma appendCell_split_witness :
  appendCell example_opened (plainCell Row_FAIL "b5" "bad5") (1 + 2) =
  (row' <~ appendCell example_opened (plainCell Row_FAIL "b5" "bad5") 1 ;;
   appendCell row' (plainCell Row_FAIL "b5" "bad5") 2).
Proof.
  apply (appendCell_split example_opened (plainCell Row_FAIL "b5" "bad5") 1 2); lia.
Defined.

(** ** Results of one element *)

Lemma appendRun_returns (results : list Z) (latest count : Z) :
  length results <> 1%nat -> exists results', appendRun results latest count = Ok results'.
Proof.
  intros Hl. destruct (decide (2 <= length results)%nat) as [H2|H2].
  - destruct (list_two_last results H2) as (pre & x & y & ->).
    rewrite appendRun_snoc. by eexists.
  - destruct results as [|x [|y results]]; simpl in *; [|done|lia].
    rewrite appendRun_nil. by eexists.
Qed.

Lemma appendRun_panics (results : list Z) (latest count : Z) :
  length results = 1%nat -> appendRun results latest count = Panic.
Proof.
  destruct results as [|x [|y results]]; [done| |done]. intros _. apply appendRun_one.
Qed.

Lemma appendCellLoop_plain (c : cell.t) (n : nat) :
  cell.result c = Row_NO_RESULT \/ cell.metrics c = [] ->
  forall row, exists row', go_iter n (appendCellOnce c) row = Ok row'.
Proof.
  intros Hc. induction n as [|n IH]; intros row; simpl; [by eexists|].
  unfold appendCellOnce at 1.
  destruct Hc as [Hres|Hmet].
  - rewrite Hres, Z.eqb_refl. cbn [go_bind]. apply IH.
  - rewrite Hmet. destruct (cell.result c =? Row_NO_RESULT); cbn [go_fold go_bind]; apply IH.
Qed.

(** X13.  [appendCell] on results of one element.
    On a row whose [Results] have exactly one element, [appendCell]
    panics, whatever the cell and the count: it reads [row.Results[n-2]].
    On any other row, a cell that holds no result or carries no metric (so
    [emptyCell]) is appended without a panic, whatever the count. *)
Theorem appendCell_one_element (row : Row.t) (c : cell.t) (count : Z) :
  (length (Row.Results row) = 1%nat -> appendCell row c count = Panic) /\
  (length (Row.Results row) <> 1%nat ->
   cell.result c = Row_NO_RESULT \/ cell.metrics c = [] ->
   exists row', appendCell row c count = Ok row').
Proof.
  rewrite appendCell_appendRun. split.
  - intros Hl. by rewrite appendRun_panics.
  - intros Hl Hc.
    destruct (appendRun_returns (Row.Results row) (cell.result c) count Hl) as [rs ->].
    cbn [go_bind]. by apply appendCellLoop_plain.
Qed.

Lemma appendCell_one_element_witness :
  appendCell example_cut emptyCell 1 = Panic /\
  exists row', appendCell example_opened emptyCell 1 = Ok row'.
Proof.
  split.
  - apply (proj1 (appendCell_one_element example_cut emptyCell 1)). reflexivity.
  - apply (proj2 (appendCell_one_element example_opened emptyCell 1)).
    + simpl. lia.
    + left. reflexivity.
Defined.

(** * Around the grid *)

(** ** The listing prefix *)

Lemma substring_all (s : string) : substring 0 (String.length s) s = s.
Proof. induction s as [|c s IH]; simpl; [done|]. by rewrite IH. Qed.

Lemma substring_skip (pre s : string) (n : nat) :
  substring (String.length pre) n (pre +:+ s) = substring 0 n s.
Proof. induction pre as [|c pre IH]; [done|]. apply IH. Qed.

Lemma substring_split (s : string) (n : nat) :
  (n <= String.length s)%nat ->
  s = substring 0 n s +:+ substring n (String.length s - n) s.
Proof.
  revert n. induction s as [|c s IH]; intros n Hn; simpl in *.
  - by destruct n; [|lia].
  - destruct n as [|n]; simpl.
    + by rewrite substring_all.
    + transitivity (String c (substring 0 n s +:+ substring n (String.length s - n) s));
        [|done].
      f_equal. apply IH. lia.
Qed.

Lemma length_append (s t : string) :
  String.length (s +:+ t) = (String.length s + String.length t)%nat.
Proof.
  induction s as [|c s IH]; [done|].
  change (S (String.length (s +:+ t)) = S (String.length s + String.length t)).
  by rewrite IH.
Qed.

(** [strings.HasSuffix] tells whether the string ends with the suffix. *)
Lemma strings_HasSuffix_spec (s suffix : string) :
  strings_HasSuffix s suffix = true <-> exists pre, s = pre +:+ suffix.
Proof.
  unfold strings_HasSuffix. rewrite andb_true_iff, Nat.leb_le, String.eqb_eq. split.
  - intros [Hlen Heq].
    exists (substring 0 (String.length s - String.length suffix) s).
    etrans; [apply (substring_split s (String.length s - String.length suffix)); lia|].
    f_equal. rewrite <- Heq at 3. f_equal. lia.
  - intros [pre ->]. rewrite length_append. split; [lia|].
    replace (String.length pre + String.length suffix - String.length suffix)%nat
      with (String.length pre) by lia.
    by rewrite substring_skip, substring_all.
Qed.

(** X14.  The prefix that [Objects] lists.
    The query carries the delimiter as given; its prefix always ends with
    a slash: it is the object of the path when that ends with a slash, and
    the object followed by a slash otherwise (a slash alone for the empty
    object).  Listing the prefix of a query gives the same query. *)
Theorem Objects_prefix (object delimiter : string) :
  let q := realGCSClient.Objects object delimiter in
  Query.Delimiter q = delimiter /\
  (exists pre, Query.Prefix q = pre +:+ "/") /\
  ((exists pre, object = pre +:+ "/") -> Query.Prefix q = object) /\
  ((forall pre, object <> pre +:+ "/") -> Query.Prefix q = object +:+ "/") /\
  realGCSClient.Objects (Query.Prefix q) delimiter = q.
Proof.
  unfold realGCSClient.Objects. cbv zeta.
  destruct (strings_HasSuffix object "/") eqn:E; simpl.
  - pose proof (proj1 (strings_HasSuffix_spec object "/") E) as Hsuf.
    split; [done|]. split; [done|]. split; [done|]. split.
    + intros Hno. destruct Hsuf as [pre Hpre]. by destruct (Hno pre).
    + by rewrite E.
  - assert (Hsuf : strings_HasSuffix (object +:+ "/") "/" = true)
      by (apply strings_HasSuffix_spec; by exists object).
    split; [done|]. split; [by exists object|]. split.
    + intros Hyes%strings_HasSuffix_spec. congruence.
    + split; [done|]. by rewrite Hsuf.
Qed.

Lemma Objects_prefix_witness :
  Query.Prefix (realGCSClient.Objects "logs/ci-job" "/") = "logs/ci-job/".
Proof.
  apply (proj1 (proj2 (proj2 (proj2 (Objects_prefix "logs/ci-job" "/"))))).
  intros pre Hpre.
  assert (H : strings_HasSuffix "logs/ci-job" "/" = true)
    by (apply strings_HasSuffix_spec; by exists pre).
  vm_compute in H. discriminate H.
Defined.

(** ** The name template *)

Lemma nameParts_fold (fmt : string) (es : list (option TestNameConfig_NameElement.t)) :
  forall (done : list string) (rest : list string),
    length rest = length es ->
    go_fold namePart (nameConfig.Build fmt (done ++ rest))
      (imap (fun i => pair (length done + i)%nat) es) =
    match mapM id es with
    | Some l =>
        Ok (nameConfig.Build fmt (done ++ (TestNameConfig_NameElement.TargetConfig <$> l)))
    | None => Panic
    end.
Proof.
  induction es as [|e es IH]; intros done rest Hlen.
  - destruct rest; [|done]. done.
  - destruct rest as [|r rest]; [done|]. simpl in Hlen.
    rewrite imap_cons. cbn [go_fold]. unfold namePart at 1. cbn [snd fst].
    destruct e as [e|]; [|done].
    unfold assign. cbn [nameConfig.parts nameConfig.format].
    rewrite decide_True by (rewrite length_app; simpl; lia).
    cbn [go_bind].
    rewrite Nat.add_0_r.
    rewrite insert_app_r_alt, Nat.sub_diag by lia. simpl insert.
    replace (done ++ TestNameConfig_NameElement.TargetConfig e :: rest)
      with ((done ++ [TestNameConfig_NameElement.TargetConfig e]) ++ rest)
      by (by rewrite <- app_assoc).
    rewrite (imap_ext _ (fun i => pair
               (length (done ++ [TestNameConfig_NameElement.TargetConfig e]) + i)%nat) es).
    2:{ intros i x _. simpl. rewrite length_app. simpl. f_equal. lia. }
    rewrite IH by lia.
    cbn [mapM]. simpl id. cbn [mbind option_bind].
    destruct (mapM id es) as [l|]; simpl; [|done].
    by rewrite <- app_assoc.
Qed.

Lemma makeNameConfig_mapM (tnc : TestNameConfig.t) :
  makeNameConfig (Some tnc) =
  match mapM id (TestNameConfig.NameElements tnc) with
  | Some es =>
      Ok (nameConfig.Build (TestNameConfig.NameFormat tnc)
            (TestNameConfig_NameElement.TargetConfig <$> es))
  | None => Panic
  end.
Proof.
  unfold makeNameConfig. cbv zeta.
  apply (nameParts_fold (TestNameConfig.NameFormat tnc) (TestNameConfig.NameElements tnc) []).
  by rewrite length_replicate.
Qed.

(** X15.  The parts of a name template.
    For a template whose elements are all set, [makeNameConfig] returns
    the format of the template and, in their order, the [TargetConfig] of
    every element, as many parts as elements; for a template with a nil
    element it panics. *)
Theorem makeNameConfig_parts (tnc : TestNameConfig.t) :
  (forall es, TestNameConfig.NameElements tnc = Some <$> es ->
     makeNameConfig (Some tnc) =
     Ok (nameConfig.Build (TestNameConfig.NameFormat tnc)
           (TestNameConfig_NameElement.TargetConfig <$> es))) /\
  (None ∈ TestNameConfig.NameElements tnc -> makeNameConfig (Some tnc) = Panic).
Proof.
  rewrite makeNameConfig_mapM. split.
  - intros es ->. by rewrite (mapM_fmap_Some id Some es).
  - intros Hnil.
    destruct (mapM id (TestNameConfig.NameElements tnc)) as [l|] eqn:E; [|done].
    exfalso. apply mapM_Some in E.
    apply list_elem_of_lookup in Hnil as [i Hi].
    destruct (Forall2_lookup_l _ _ _ _ _ E Hi) as (y & _ & Hy). done.
Qed.

Lemma makeNameConfig_parts_witness :
  makeNameConfig (Some example_template) =
  Ok (nameConfig.Build "%s [%s]" ["Tests name"; "Context"]).
Proof.
  apply (proj1 (makeNameConfig_parts example_template)
           [TestNameConfig_NameElement.Build "Tests name";
            TestNameConfig_NameElement.Build "Context"]).
  reflexivity.
Defined.

(** ** The progress log *)

Lemma logLoop_panics (total : Z) (events : list event) :
  forall current,
    logLoop total current events = Panic <->
    exists pre elapsed post,
      events = pre ++ Tick elapsed :: post /\ (Closed ∉ pre) /\
      (currentAfter current pre = 0 \/ total = 0).
Proof.
  induction events as [|ev events IH]; intros current.
  - split; [done|]. intros (pre & e & post & Heq & _). by destruct pre.
  - destruct ev as [i| |elapsed]; simpl.
    + rewrite IH. split.
      * intros (pre & e & post & -> & Hcl & Hz).
        exists (Recv i :: pre), e, post. split; [done|]. split; [|done].
        rewrite not_elem_of_cons. done.
      * intros (pre & e & post & Heq & Hcl & Hz).
        destruct pre as [|ev pre]; [done|]. injection Heq as <- ->.
        exists pre, e, post. split; [done|].
        rewrite not_elem_of_cons in Hcl. by destruct Hcl.
    + split; [done|].
      intros (pre & e & post & Heq & Hcl & _).
      destruct pre as [|ev pre]; [done|]. injection Heq as <- ->.
      rewrite not_elem_of_cons in Hcl. by destruct Hcl.
    + unfold logTick, go_div.
      destruct (Z.eqb_spec current 0) as [->|Hcur].
      { split; [|done]. intros _. exists [], elapsed, events.
        split; [done|]. split; [apply not_elem_of_nil|]. by left. }
      cbn [go_bind].
      destruct (Z.eqb_spec total 0) as [->|Htot].
      { split; [|done]. intros _. exists [], elapsed, events.
        split; [done|]. split; [apply not_elem_of_nil|]. by right. }
      cbn [go_bind].
      destruct (logLoop total current events) as [entries|] eqn:E; cbn [go_bind].
      * split; [done|].
        intros (pre & e & post & Heq & Hcl & Hz).
        destruct pre as [|ev pre].
        { simpl in Hz. lia. }
        injection Heq as <- ->.
        assert (logLoop total current (pre ++ Tick e :: post) = Panic); [|congruence].
        apply IH. exists pre, e, post. split; [done|].
        rewrite not_elem_of_cons in Hcl. by destruct Hcl.
      * split; [|done]. intros _.
        apply IH in E as (pre & e & post & -> & Hcl & Hz).
        exists (Tick elapsed :: pre), e, post. split; [done|]. split; [|done].
        rewrite not_elem_of_cons. done.
Qed.

(** X16.  When [logUpdate] panics.
    It panics exactly when a tick of the timer comes, before the channel
    is found closed, while the index last received is zero (none received
    yet, or the index of the first group) or while [total] is zero: the
    tick divides by [current] and by [total]. *)
Theorem logUpdate_panics (total : Z) (events : list event) :
  logUpdate total events = Panic <->
  exists pre elapsed post,
    events = pre ++ Tick elapsed :: post /\ (Closed ∉ pre) /\
    (currentAfter 0 pre = 0 \/ total = 0).
Proof. apply logLoop_panics. Qed.

(** One group that takes more than a minute. *)
Example logUpdate_one_group : logUpdate 1 [Recv 0; Tick 60000000000; Closed] = Panic.
Proof. reflexivity. Qed.

Lemma wrap64_id (z : Z) : int64_range z -> wrap64 z = z.
Proof. unfold int64_range, wrap64. intros H. rewrite Z.mod_small; lia. Qed.

Lemma logLoop_percent (total : Z) (events : list event) :
  100 * total < 2 ^ 63 ->
  Forall (indexOf total) events ->
  forall current entries,
    0 <= current < total ->
    logLoop total current events = Ok entries ->
    Forall (entryOf total) entries.
Proof.
  intros Htot Hev. induction Hev as [|ev events Hi Hev IH]; intros current entries Hcur.
  - intros [= <-]. constructor.
  - destruct ev as [i| |elapsed]; simpl.
    + apply IH. exact Hi.
    + intros [= <-]. constructor.
    + unfold logTick, go_div.
      destruct (Z.eqb_spec current 0); [done|]. cbn [go_bind].
      destruct (Z.eqb_spec total 0); [done|]. cbn [go_bind].
      destruct (logLoop total current events) as [rest|] eqn:E; [|done].
      cbn [go_bind]. intros [= <-]. constructor; [|by apply (IH current)].
      unfold entryOf. simpl.
      assert (Hq : Z.quot (wrap64 (100 * current)) total = 100 * current / total).
      { rewrite wrap64_id by (unfold int64_range; lia).
        apply Z.quot_div_nonneg; lia. }
      assert (Hp : 0 <= 100 * current / total < 100).
      { split; [apply Z.div_pos; lia|]. apply Z.div_lt_upper_bound; lia. }
      rewrite Hq, wrap64_id by (unfold int64_range; lia).
      repeat split; lia.
Qed.

(** X17.  What [logUpdate] logs.
    When the indices received are indices of groups, from [0] to
    [total - 1], and [100 * total] fits an [int64], every entry that
    [logUpdate] logs carries [total], an index from [1] to [total - 1] and
    the percentage [100 * current / total], which is below 100: the log
    never says that the update is complete. *)
Theorem logUpdate_percent (total : Z) (events : list event) (entries : list progress.t) :
  100 * total < 2 ^ 63 ->
  Forall (indexOf total) events ->
  logUpdate total events = Ok entries ->
  Forall (entryOf total) entries.
Proof.
  intros Htot Hev Hlog.
  destruct (decide (0 < total)) as [Hpos|Hnpos].
  - by apply (logLoop_percent total events Htot Hev 0 entries).
  - (* no index can have been received *)
    unfold logUpdate in Hlog.
    destruct Hev as [|ev events Hi Hev]; [by injection Hlog as <-|].
    destruct ev as [i| |elapsed]; simpl in Hi, Hlog; [lia|by injection Hlog as <-|done].
Qed.

Lemma logUpdate_percent_witness :
  Forall (entryOf 3)
    [progress.Build 1 3 33 120000000000; progress.Build 2 3 66 60000000000].
Proof.
  apply (logUpdate_percent 3 example_events); [lia| |reflexivity].
  unfold example_events. repeat constructor; simpl; lia.
Defined.

(** ** Integers held in a float *)

Lemma digits2_log2 (m : positive) : Z.pos (digits2_pos m) = Z.log2 (Z.pos m) + 1.
Proof.
  assert (Hsize : forall p, digits2_pos p = Pos.size p).
  { induction p as [p IH|p IH|]; simpl; by rewrite ?IH. }
  destruct m as [p|p|]; simpl; rewrite ?Hsize; lia.
Qed.

Lemma iter_xO (p d : positive) : Z.pos (Pos.iter xO p d) = Z.pos p * 2 ^ Z.pos d.
Proof.
  induction d as [|d IH] using Pos.peano_ind.
  - simpl. lia.
  - rewrite Pos.iter_succ, Pos2Z.inj_succ, Z.pow_succ_r by lia.
    rewrite Pos2Z.inj_xO, IH. lia.
Qed.

Lemma iter_pos_nat {A : Type} (f : A -> A) (p : positive) :
  forall a, SpecFloat.iter_pos f p a = Nat.iter (Pos.to_nat p) f a.
Proof.
  induction p as [p IH|p IH|]; intros a; simpl SpecFloat.iter_pos.
  - rewrite !IH, Pos2Nat.inj_xI, <- Nat.iter_add.
    replace (S (2 * Pos.to_nat p)) with (S (Pos.to_nat p + Pos.to_nat p)) by lia.
    by rewrite Nat.iter_succ_r.
  - rewrite !IH, Pos2Nat.inj_xO, <- Nat.iter_add. f_equal. lia.
  - done.
Qed.

(** Shifting out zeros loses nothing. *)
Lemma shr_exact (s x : positive) :
  SpecFloat.iter_pos shr_1 s (Build_shr_record (Z.pos (Pos.iter xO x s)) false false) =
  Build_shr_record (Z.pos x) false false.
Proof.
  rewrite iter_pos_nat, Pos2Nat.inj_iter.
  change (nat_rect (fun _ => positive) x (fun _ => xO) (Pos.to_nat s))
    with (Nat.iter (Pos.to_nat s) xO x).
  generalize (Pos.to_nat s). intros n. induction n as [|n IH]; [done|].
  rewrite Nat.iter_succ_r. simpl. apply IH.
Qed.

Lemma fexp_normal (e : Z) : -1021 <= e -> fexp prec emax e = e - 53.
Proof. unfold fexp, emin, prec, emax. lia. Qed.

(** A mantissa of 53 bits is not shifted. *)
Lemma shr_fexp_normal (m : positive) (e : Z) :
  Z.pos (digits2_pos m) = 53 -> -1074 <= e ->
  shr_fexp prec emax (Z.pos m) e loc_Exact = (Build_shr_record (Z.pos m) false false, e).
Proof.
  intros Hd He. unfold shr_fexp. simpl Zdigits2. rewrite Hd, fexp_normal by lia.
  replace (53 + e - 53 - e) with 0 by lia. done.
Qed.

Lemma round_finish (sx : bool) (m : positive) (e : Z) :
  Z.pos (digits2_pos m) = 53 -> -1074 <= e <= 971 ->
  (let '(mrs, e') :=
     shr_fexp prec emax
       (round_nearest_even (shr_m (Build_shr_record (Z.pos m) false false))
          (loc_of_shr_record (Build_shr_record (Z.pos m) false false))) e loc_Exact in
   match shr_m mrs with
   | 0 => S754_zero sx
   | Z.pos m => if e' <=? emax - prec then S754_finite sx m e' else S754_infinity sx
   | Z.neg _ => S754_nan
   end) = S754_finite sx m e.
Proof.
  intros Hd He. cbn [shr_m loc_of_shr_record round_nearest_even].
  rewrite shr_fexp_normal by (done || lia). cbn [shr_m].
  destruct (Z.leb_spec e (emax - prec)); [done|].
  unfold emax, prec in *. lia.
Qed.

(** So it is not rounded. *)
Lemma round_normal (sx : bool) (m : positive) (e : Z) :
  Z.pos (digits2_pos m) = 53 -> -1074 <= e <= 971 ->
  binary_round_aux prec emax sx (Z.pos m) e loc_Exact = S754_finite sx m e.
Proof.
  intros Hd He. unfold binary_round_aux.
  rewrite shr_fexp_normal by (done || lia). by apply round_finish.
Qed.

(** Nor is one that ends in enough zeros. *)
Lemma round_shift (sx : bool) (M x s : positive) (e : Z) :
  Z.pos (digits2_pos x) = 53 -> Z.pos M = Z.pos x * 2 ^ Z.pos s ->
  -1074 <= e + Z.pos s <= 971 ->
  binary_round_aux prec emax sx (Z.pos M) e loc_Exact = S754_finite sx x (e + Z.pos s).
Proof.
  intros Hd HM He.
  assert (M = Pos.iter xO x s) as -> by (apply Pos2Z.inj; by rewrite iter_xO).
  assert (Hshr : shr_fexp prec emax (Z.pos (Pos.iter xO x s)) e loc_Exact =
                 (Build_shr_record (Z.pos x) false false, e + Z.pos s)).
  { unfold shr_fexp. simpl Zdigits2.
    rewrite digits2_log2, HM, Z.log2_mul_pow2, <- (Z.add_assoc _ _ 1) by lia.
    rewrite <- digits2_log2, Hd, fexp_normal by lia.
    replace (Z.pos s + 53 + e - 53 - e) with (Z.pos s) by lia.
    unfold shr, shr_record_of_loc. by rewrite <- HM, shr_exact. }
  unfold binary_round_aux. rewrite Hshr. by apply round_finish.
Qed.

(** An integer below [2^53] is held exactly. *)
Lemma exactly_of_Z (z : Z) :
  0 < z < 2 ^ 53 -> exactly (binary_normalize prec emax z 0 false) z.
Proof.
  intros Hz. destruct z as [|p|p]; [lia| |lia].
  set (k := Z.log2 (Z.pos p) + 1).
  assert (Hk : 1 <= k <= 53).
  { pose proof (Z.log2_nonneg (Z.pos p)).
    pose proof (Z.log2_lt_pow2 (Z.pos p) 53 ltac:(lia)). unfold k. lia. }
  unfold binary_normalize, binary_round.
  rewrite Z.add_0_r, digits2_log2. fold k. rewrite fexp_normal by lia.
  destruct (decide (k = 53)) as [Hk53|Hk53].
  - rewrite Hk53. change (shl_align p 0 (53 - 53)) with (p, 0). cbv iota beta.
    rewrite round_normal by (rewrite ?digits2_log2; fold k; lia).
    exists p, 0. split; [done|]. rewrite digits2_log2. fold k.
    split; [done|]. split; [lia|]. simpl. lia.
  - unfold shl_align. rewrite Z.sub_0_r.
    destruct (k - 53) as [|d|d] eqn:Ed; [lia|lia|].
    assert (Hd : Z.pos d = 53 - k) by lia.
    assert (Hdig : Z.pos (digits2_pos (Pos.iter xO p d)) = 53).
    { rewrite digits2_log2, iter_xO, Z.log2_mul_pow2 by lia. fold k. lia. }
    rewrite round_normal by (done || lia).
    exists (Pos.iter xO p d), (Z.neg d). split; [done|]. split; [done|].
    split; [lia|]. rewrite iter_xO. done.
Qed.

(** The product of two such integers is, when it is below [2^53]. *)
Lemma exactly_mul (f1 f2 : spec_float) (z1 z2 : Z) :
  exactly f1 z1 -> exactly f2 z2 -> z1 * z2 < 2 ^ 53 ->
  exactly (SFmul prec emax f1 f2) (z1 * z2).
Proof.
  intros (m1 & e1 & -> & Hd1 & He1 & Hm1) (m2 & e2 & -> & Hd2 & He2 & Hm2) Hlt.
  assert (Hz1 : 0 < z1) by nia. assert (Hz2 : 0 < z2) by nia.
  set (z := z1 * z2) in *. assert (Hz : 0 < z) by nia.
  set (k := Z.log2 z + 1).
  assert (Hk : 1 <= k <= 53).
  { pose proof (Z.log2_nonneg z).
    pose proof (Z.log2_lt_pow2 z 53 ltac:(lia)). unfold k. lia. }
  (* the digits of the factors *)
  assert (Hk1 : Z.log2 z1 + 1 = 53 + e1).
  { rewrite digits2_log2, Hm1, Z.log2_mul_pow2 in Hd1 by lia. lia. }
  assert (Hk2 : Z.log2 z2 + 1 = 53 + e2).
  { rewrite digits2_log2, Hm2, Z.log2_mul_pow2 in Hd2 by lia. lia. }
  pose proof (Z.log2_mul_below z1 z2 Hz1 Hz2) as Hbelow.
  pose proof (Z.log2_mul_above z1 z2 ltac:(lia) ltac:(lia)) as Habove.
  fold z in Hbelow, Habove.
  (* the mantissa of the product *)
  set (s := k - 53 - e1 - e2).
  assert (Hs : 52 <= s <= 53) by (unfold s, k; lia).
  destruct s as [|ps|ps] eqn:Es; [lia| |lia].
  destruct (53 - k) as [|d|d] eqn:Ed; [| |lia].
  - (* the product has 53 digits *)
    destruct z as [|pz|pz] eqn:Ez; [lia| |lia].
    unfold SFmul. simpl xorb.
    rewrite (round_shift false (m1 * m2) pz ps (e1 + e2)).
    + exists pz, 0. split; [f_equal; lia|].
      split; [rewrite digits2_log2; fold k; lia|]. split; [lia|]. simpl. lia.
    + rewrite digits2_log2. fold k. lia.
    + rewrite Pos2Z.inj_mul, Hm1, Hm2.
      replace (Z.pos ps) with (- e1 + - e2) by lia.
      rewrite Z.pow_add_r by lia. unfold z in Ez. nia.
    + lia.
  - destruct z as [|pz|pz] eqn:Ez; [lia| |lia].
    unfold SFmul. simpl xorb.
    rewrite (round_shift false (m1 * m2) (Pos.iter xO pz d) ps (e1 + e2)).
    + exists (Pos.iter xO pz d), (Z.neg d). split; [f_equal; lia|].
      split; [rewrite digits2_log2, iter_xO, Z.log2_mul_pow2 by lia; fold k; lia|].
      split; [lia|]. by rewrite iter_xO.
    + rewrite digits2_log2, iter_xO, Z.log2_mul_pow2 by lia. fold k. lia.
    + rewrite Pos2Z.inj_mul, Hm1, Hm2, iter_xO.
      replace (- e1) with (Z.pos d + Z.pos ps - (- e2)) by lia.
      rewrite <- Ez. unfold z.
      replace (z1 * 2 ^ (Z.pos d + Z.pos ps - (- e2)) * (z2 * 2 ^ (- e2)))
        with (z1 * z2 * (2 ^ (Z.pos d + Z.pos ps - (- e2)) * 2 ^ (- e2))) by lia.
      rewrite <- Z.pow_add_r by lia.
      replace (Z.pos d + Z.pos ps - (- e2) + - e2) with (Z.pos d + Z.pos ps) by lia.
      rewrite Z.pow_add_r by lia. lia.
    + lia.
Qed.

(** Truncation gives the integer back. *)
Lemma float_trunc_exactly (x : float) (z : Z) :
  exactly (Prim2SF x) z -> float_trunc x = Some z.
Proof.
  intros (m & e & Hx & _ & He & Hm). unfold float_trunc. rewrite Hx.
  destruct (Z.leb_spec 0 e).
  - assert (e = 0) as -> by lia. simpl. f_equal.
    rewrite Z.shiftl_0_r, Hm. change (2 ^ (- 0)) with 1. lia.
  - rewrite Z.shiftr_div_pow2, Hm by lia.
    rewrite Z.div_mul by (apply Z.pow_nonzero; lia). done.
Qed.

Lemma float_of_Z_exactly (n : Z) :
  0 < n < 2 ^ 53 -> exactly (Prim2SF (float_of_Z n)) n.
Proof.
  intros Hn. unfold float_of_Z.
  destruct (Z.ltb_spec n 0); [lia|].
  rewrite of_uint63_spec, Uint63.of_Z_spec.
  rewrite Z.mod_small by (change wB with (2 ^ 63); lia).
  by apply exactly_of_Z.
Qed.

Lemma exactly_24 : exactly (Prim2SF 24%float) 24.
Proof.
  exists 6755399441055744%positive, (-48).
  split; [vm_compute; reflexivity|]. split; [reflexivity|]. split; [lia|reflexivity].
Qed.

(** ** The window of results *)

(** [days] of a whole number of days. *)
Lemma days_of_Z (n : Z) :
  0 < n -> 24 * n < 2 ^ 53 -> days (float_of_Z n) = wrap64 (n * (24 * time_Hour)).
Proof.
  intros Hn Hlt. unfold days, int64_of_float.
  rewrite (float_trunc_exactly _ (24 * n)).
  2:{ rewrite mul_spec. apply exactly_mul; [apply exactly_24| |done].
      apply float_of_Z_exactly. lia. }
  destruct (Z.leb_spec (- 2 ^ 63) (24 * n)); [|lia].
  destruct (Z.ltb_spec (24 * n) (2 ^ 63)); [|lia].
  simpl andb. cbv iota. f_equal. lia.
Qed.

Lemma days_7 : days 7%float = 7 * (24 * time_Hour).
Proof. vm_compute. reflexivity. Qed.

(** X18.  The window of results of a group.
    For every [int32] value of [DaysOfResults]: when it is zero or
    negative the window is 7 days; from 1 to 106751 it is that number of
    days of 24 hours, in nanoseconds; above 106751 the product with
    [time.Hour] no longer fits an [int64] and wraps, so the window is not
    that number of days. *)
Theorem updateGroup_window (DaysOfResults : Z) :
  int32_range DaysOfResults ->
  (DaysOfResults <= 0 -> updateGroup_dur DaysOfResults = 7 * (24 * time_Hour)) /\
  (0 < DaysOfResults <= 106751 ->
   updateGroup_dur DaysOfResults = DaysOfResults * (24 * time_Hour)) /\
  (106751 < DaysOfResults ->
   updateGroup_dur DaysOfResults = wrap64 (DaysOfResults * (24 * time_Hour)) /\
   updateGroup_dur DaysOfResults <> DaysOfResults * (24 * time_Hour)).
Proof.
  intros Hrange. unfold int32_range in Hrange. unfold updateGroup_dur.
  split; [|split].
  - intros Hd. destruct (Z.ltb_spec 0 DaysOfResults); [lia|]. apply days_7.
  - intros Hd. destruct (Z.ltb_spec 0 DaysOfResults); [|lia].
    rewrite days_of_Z by lia. unfold wrap64, time_Hour.
    rewrite Z.mod_small; lia.
  - intros Hd. destruct (Z.ltb_spec 0 DaysOfResults); [|lia].
    rewrite days_of_Z by lia. split; [done|].
    unfold wrap64, time_Hour.
    pose proof (Z.mod_pos_bound (DaysOfResults * (24 * 3600000000000) + 2 ^ 63) (2 ^ 64)).
    lia.
Qed.

Lemma updateGroup_window_witness :
  updateGroup_dur 30 = 30 * (24 * time_Hour).
Proof.
  apply (proj1 (proj2 (updateGroup_window 30 ltac:(unfold int32_range; lia)))). lia.
Defined.

(** A window of 106752 days is negative. *)
Example updateGroup_window_wraps : updateGroup_dur 106752 = -9223371273709551616.
Proof. vm_compute. reflexivity. Qed.

(** ** Whole seconds *)

Lemma math_Floor_exactly (n : Z) :
  0 < n < 2 ^ 53 -> math_Floor (float_of_Z n) = float_of_Z n.
Proof.
  intros Hn. destruct (float_of_Z_exactly n Hn) as (m & e & Hx & _ & He & Hm).
  unfold math_Floor. rewrite Hx.
  destruct (Z.leb_spec 0 e); [done|].
  rewrite Z.shiftr_div_pow2, Hm by lia.
  rewrite Z.div_mul by (apply Z.pow_nonzero; lia).
  destruct (Z.eqb_spec n 0); [lia|done].
Qed.

Lemma sub_self_exactly (x : float) (z : Z) :
  exactly (Prim2SF x) z -> Prim2SF (x - x) = S754_zero false.
Proof.
  intros (m & e & Hx & _). rewrite sub_spec, Hx.
  unfold SF64sub, SFsub. rewrite Z.min_id.
  match goal with
  | |- binary_normalize _ _ ?d _ _ = _ => assert (d = 0) as -> by apply Z.sub_diag
  end.
  done.
Qed.

(** X19.  [stamp] of a whole number of seconds.
    For a column started at a whole number of seconds [n], from 0 to
    below [2^53], held in its [float64], [stamp] gives back [n] seconds
    and no nanosecond. *)
Theorem stamp_whole_seconds (col : Column.t) (n : Z) :
  0 <= n < 2 ^ 53 ->
  Column.Started col = float_of_Z n ->
  stamp (Some col) = Some (Timestamp.Build n 0).
Proof.
  intros Hn Hs. unfold stamp. rewrite Hs.
  destruct (decide (n = 0)) as [->|Hn0]; [by vm_compute|].
  assert (Hn' : 0 < n < 2 ^ 53) by lia.
  rewrite math_Floor_exactly by done.
  pose proof (float_of_Z_exactly n Hn') as Hex.
  f_equal. f_equal.
  - unfold int64_of_float. rewrite (float_trunc_exactly _ n Hex).
    destruct (Z.leb_spec (- 2 ^ 63) n); [|lia].
    destruct (Z.ltb_spec n (2 ^ 63)); [done|lia].
  - unfold int32_of_float, float_trunc.
    rewrite mul_spec, (sub_self_exactly _ n Hex).
    by vm_compute.
Qed.

Lemma stamp_whole_seconds_witness :
  stamp (Some (Column.Make "b3" 3000%float [])) = Some (Timestamp.Build 3000 0).
Proof.
  apply (stamp_whole_seconds (Column.Make "b3" 3000%float []) 3000); [lia|].
  vm_compute. reflexivity.
Defined.

(** * The alerts of the rows *)

Lemma alertRows_panics (cols : list (option Column.t)) (rows : list Row.t) (fto ptc : Z) :
  alertRows cols rows fto ptc = Panic <->
  exists r, r ∈ rows /\ alertRow cols r fto ptc = Panic.
Proof.
  induction rows as [|r rows IH]; simpl.
  - split; [done|]. intros (r & Hr & _). by apply elem_of_nil in Hr.
  - destruct (alertRow cols r fto ptc) as [info|] eqn:Einfo; simpl.
    + destruct (alertRows cols rows fto ptc) as [rest|]; simpl.
      * split; [done|]. intros (r' & Hr' & Hp).
        apply elem_of_cons in Hr' as [->|Hr']; [congruence|].
        assert (Ok rest = @Panic (list Row.t)) as Hpanic by (apply IH; eauto).
        done.
      * split; [|done]. intros _.
        destruct (proj1 IH eq_refl) as (r' & Hr' & Hp).
        exists r'. split; [by apply elem_of_cons; right|done].
    + split; [|done]. intros _. exists r. split; [apply elem_of_cons; by left|done].
Qed.

(** X20.  [alertRows] sets the alerts and nothing else.
    Every row that it returns is the row given, in its place, with the
    alert that [alertRow] computes for it, and evaluating the rows
    returned again returns them as they are.  It panics exactly when
    [alertRow] panics on one of the rows.  The alerts that the rows carry
    before are not read: rows that differ by them only have the same
    outcome. *)
Theorem alertRows_only_alerts (cols : list (option Column.t)) (rows : list Row.t)
    (openFailures closePasses : Z) :
  (forall rs, alertRows cols rows openFailures closePasses = Ok rs ->
     Forall2 (fun r r' =>
       alertRow cols r openFailures closePasses = Ok (Row.AlertInfo r') /\
       r' = Row.set_AlertInfo (Row.AlertInfo r') r) rows rs /\
     alertRows cols rs openFailures closePasses = Ok rs) /\
  (alertRows cols rows openFailures closePasses = Panic <->
   exists r, r ∈ rows /\ alertRow cols r openFailures closePasses = Panic) /\
  (forall infos : list (option AlertInfo.t),
     length infos = length rows ->
     alertRows cols (zip_with Row.set_AlertInfo infos rows) openFailures closePasses =
     alertRows cols rows openFailures closePasses).
Proof.
  split; [|split].
  - intros rs Hrs. split; [|by eapply alertRows_idem].
    apply alertRows_inv in Hrs.
    eapply Forall2_impl; [exact Hrs|].
    intros r r' (info & Hinfo & ->). by destruct r.
  - apply alertRows_panics.
  - intros infos Hlen.
    rewrite <- (alertRows_clear cols (zip_with _ _ _)), <- (alertRows_clear cols rows).
    f_equal. revert infos Hlen.
    induction rows as [|r rows IH]; intros [|i infos] Hlen; try done.
    simpl in Hlen. cbn [zip_with]. rewrite !fmap_cons, (IH infos) by lia. by destruct r.
Qed.
